(** * TreeVisualization: the Weka J48 text-to-DOT pipeline

    A shallow embedding of [Python Scripts/TreeVisualization.py]:
    [parse_weka_j48_tree], [build_tree_structure] and
    [generate_dot_from_tree], together with the fragments of the Python
    run time they rest on ([str.strip], [str.split], [str.startswith],
    [re.match], [float], [repr] and the [.2f] format).

    Texts are sequences of 8-bit characters, read as the code points
    U+0000 to U+00FF.  The node dictionaries that Python mutates in place
    are records updated functionally: [parse_weka_j48_tree] allocates one
    fresh dictionary per line, so no two entries of its result alias. *)

From Stdlib Require Import Ascii String.
From Stdlib Require Import List Bool Arith ZArith Lia.
From Stdlib Require Import DecimalString DecimalNat DecimalN DecimalPos.
From Stdlib Require Import Floats.SpecFloat.
Import ListNotations.

Set Implicit Arguments.

(** ** Texts *)

Definition str := list ascii.

Coercion list_ascii_of_string : string >-> list.

Open Scope char_scope.
Open Scope string_scope.
Open Scope list_scope.
Open Scope nat_scope.

Module Py.

(** [str.isspace] on one character; also the class [\s] of [re] on [str]
    patterns.  Within Latin-1: TAB..CR, FS..US, SPACE, NEL and NBSP. *)
Definition isspace (c : ascii) : bool :=
  let n := nat_of_ascii c in
  ((9 <=? n) && (n <=? 13)) || ((28 <=? n) && (n <=? 32))
  || (n =? 133) || (n =? 160).

(** [str.isdecimal] on one character; the class [\d] of [re]. *)
Definition isdecimal (c : ascii) : bool :=
  let n := nat_of_ascii c in (48 <=? n) && (n <=? 57).

Fixpoint lstrip (s : str) : str :=
  match s with
  | c :: s' => if isspace c then lstrip s' else s
  | [] => []
  end.

Fixpoint rstrip (s : str) : str :=
  match s with
  | [] => []
  | c :: s' =>
      match rstrip s' with
      | [] => if isspace c then [] else [c]
      | r => c :: r
      end
  end.

(** [s.strip()] *)
Definition strip (s : str) : str := rstrip (lstrip s).

(** [s.split('\n')]: one piece more than there are newlines. *)
Fixpoint split_nl (s : str) : list str :=
  match s with
  | [] => [[]]
  | c :: s' =>
      if Ascii.eqb c "010"%char then [] :: split_nl s'
      else match split_nl s' with
           | l :: ls => (c :: l) :: ls
           | [] => [[c]]
           end
  end.

(** [s.startswith(p)] *)
Fixpoint startswith (s p : str) : bool :=
  match p, s with
  | [], _ => true
  | a :: p', b :: s' => Ascii.eqb a b && startswith s' p'
  | _ :: _, [] => false
  end.

(** Truth value of an optional text: [None] and [''] are false. *)
Definition truthy (o : option str) : bool :=
  match o with
  | Some (_ :: _) => true
  | _ => false
  end.

(** The longest prefix of [s] whose characters satisfy [p], and the rest. *)
Fixpoint span (p : ascii -> bool) (s : str) : str * str :=
  match s with
  | c :: s' => if p c then let (a, b) := span p s' in (c :: a, b) else ([], s)
  | [] => ([], [])
  end.

End Py.

(** ** Regular expressions

    The fragment of Python's [re] the program uses, with its backtracking
    search order: alternatives left to right, repetitions greedy, the first
    complete match wins. *)

Module Re.

Inductive regex : Type :=
| Eps                                  (* the empty pattern *)
| Any                                  (* [.] : any character but newline *)
| Lit (a : ascii)                      (* a literal character *)
| Class (p : ascii -> bool)            (* [\s], [\d], a bracket set *)
| Seq (r1 r2 : regex)
| Alt (r1 r2 : regex)                  (* [r1|r2] *)
| Star (r : regex)                     (* [r*], greedy *)
| Group (n : nat) (r : regex)          (* capturing group number [n] *)
| Eol.                                 (* [$] *)

Definition Plus (r : regex) : regex := Seq r (Star r).   (* [r+] *)
Definition Opt (r : regex) : regex := Alt r Eps.          (* [r?] *)

(** A literal word, character by character. *)
Fixpoint Word (w : str) : regex :=
  match w with
  | [] => Eps
  | a :: w' => Seq (Lit a) (Word w')
  end.

(** Captured groups, most recent binding first. *)
Definition captures := list (nat * str).

Fixpoint group (m : captures) (n : nat) : option str :=
  match m with
  | [] => None
  | (k, v) :: m' => if Nat.eqb k n then Some v else group m' n
  end.

Section Matcher.

Variable R : Type.

(** Continuations: what remains to be matched after the current pattern,
    run on the rest of the subject and the groups captured so far. *)
Definition cont := str -> captures -> option R.

(** The greedy loop of [r*]: try one more round of [step] first and fall
    back to the continuation.  A round that consumes nothing ends the
    loop, as in [sre]; every other round shortens the subject, so its
    length is fuel enough. *)
Fixpoint star_loop (step : str -> captures -> cont -> option R)
    (fuel : nat) (s : str) (c : captures) (k : cont) : option R :=
  match fuel with
  | 0 => k s c
  | S fuel' =>
      match step s c (fun s' c' =>
                        if List.length s' <? List.length s
                        then star_loop step fuel' s' c' k
                        else None) with
      | Some res => Some res
      | None => k s c
      end
  end.

Fixpoint rmatch (r : regex) (s : str) (c : captures) (k : cont) : option R :=
  match r with
  | Eps => k s c
  | Any =>
      match s with
      | a :: s' => if Ascii.eqb a "010"%char then None else k s' c
      | [] => None
      end
  | Lit b =>
      match s with
      | a :: s' => if Ascii.eqb a b then k s' c else None
      | [] => None
      end
  | Class p =>
      match s with
      | a :: s' => if p a then k s' c else None
      | [] => None
      end
  | Seq r1 r2 => rmatch r1 s c (fun s' c' => rmatch r2 s' c' k)
  | Alt r1 r2 =>
      match rmatch r1 s c k with
      | Some res => Some res
      | None => rmatch r2 s c k
      end
  | Star r' => star_loop (rmatch r') (List.length s) s c k
  | Group n r' =>
      rmatch r' s c
        (fun s' c' =>
           k s' ((n, firstn (List.length s - List.length s') s) :: c'))
  | Eol =>
      match s with
      | [] => k s c
      | [a] => if Ascii.eqb a "010"%char then k s c else None
      | _ => None
      end
  end.

End Matcher.

(** [re.match(r, s)]: anchored at the start of [s] only; the result is the
    table of captured groups, [None] when there is no match. *)
Definition re_match (r : regex) (s : str) : option captures :=
  rmatch r s [] (fun _ c => Some c).

End Re.

Import Re.

Definition in_set (w : string) (c : ascii) : bool :=
  existsb (Ascii.eqb c) w.

Definition in_range (lo hi c : ascii) : bool :=
  (nat_of_ascii lo <=? nat_of_ascii c) && (nat_of_ascii c <=? nat_of_ascii hi).

(** [\d+ \.? \d*], the numeral both patterns share. *)
Definition number_re : regex :=
  Seq (Plus (Class Py.isdecimal)) (Seq (Opt (Lit ".")) (Star (Class Py.isdecimal))).

(** The leaf pattern, spaced out as under [re.VERBOSE]:
    [( .* ) : \s* ( POS | NEG ) \s* \( ( \d+ \.? \d* ) (?: / ( \d+ \.? \d* ) )? \) $] *)
Definition leaf_re : regex :=
  Seq (Group 1 (Star Any))
  (Seq (Lit ":")
  (Seq (Star (Class Py.isspace))
  (Seq (Group 2 (Alt (Word "POS") (Word "NEG")))
  (Seq (Star (Class Py.isspace))
  (Seq (Lit "(")
  (Seq (Group 3 number_re)
  (Seq (Opt (Seq (Lit "/") (Group 4 number_re)))
  (Seq (Lit ")") Eol)))))))).

(** [[a-zA-Z0-9_.-]] *)
Definition feature_char (c : ascii) : bool :=
  in_range "a" "z" c || in_range "A" "Z" c || in_range "0" "9" c
  || in_set "_.-" c.

(** [[<=>!]] *)
Definition comparator_char : ascii -> bool := in_set "<=>!".

(** The feature pattern, spaced out likewise:
    [( [a-zA-Z0-9_.-]+ ) \s* [<=>!]+ \s* ( \d+ \.? \d* ) $] *)
Definition feature_re : regex :=
  Seq (Group 1 (Plus (Class feature_char)))
  (Seq (Star (Class Py.isspace))
  (Seq (Plus (Class comparator_char))
  (Seq (Star (Class Py.isspace))
  (Seq (Group 2 number_re) Eol)))).

(** ** Floats

    Python's [float] is IEEE 754 binary64: [spec_float] at precision 53 and
    maximal exponent 1024.  Conversions from and to text are correctly
    rounded, ties to even. *)

Module F64.

Definition float := spec_float.

Definition zero : float := S754_zero false.      (* the literal [0.0] *)

(** The binary64 nearest to the quotient [m / d] of two integers. *)
Definition of_ratio (m d : Z) : float :=
  match m, d with
  | Zpos pm, Zpos pd =>
      SFdiv 53 1024 (S754_finite false pm 0) (S754_finite false pd 0)
  | _, _ => zero
  end.

(** [m * 10^e] for an integer [m] and a decimal exponent [e] of any sign. *)
Definition of_decimal (m e : Z) : float :=
  if (0 <=? e)%Z then of_ratio (m * 10 ^ e) 1 else of_ratio m (10 ^ (- e)).

Definition digit_value (c : ascii) : Z := Z.of_nat (nat_of_ascii c - 48).

Fixpoint digits_value (acc : Z) (ds : str) : Z :=
  match ds with
  | [] => acc
  | c :: ds' => digits_value (10 * acc + digit_value c)%Z ds'
  end.

(** [float(s)] on plain numerals: digits, then optionally a point and more
    digits, with a digit somewhere.  [None] stands for [ValueError].  The
    other spellings Python reads (signs, exponents, blanks, underscores,
    the words inf and nan) are outside this domain and are mapped to [None]
    as well; the program only ever passes text captured by [number_re]. *)
Definition float_of_str (s : str) : option float :=
  let (ip, rest) := Py.span Py.isdecimal s in
  match rest with
  | [] =>
      match ip with
      | [] => None
      | _ => Some (of_decimal (digits_value 0 ip) 0)
      end
  | c :: fp =>
      if Ascii.eqb c "." && forallb Py.isdecimal fp
         && negb ((List.length ip =? 0) && (List.length fp =? 0)) then
        Some (of_decimal (digits_value 0 (ip ++ fp)) (- Z.of_nat (List.length fp)))
      else None
  end.

(** The exact value of a finite float, as a fraction. *)
Definition exact (m : positive) (e : Z) : Z * Z :=
  if (0 <=? e)%Z then (Zpos m * 2 ^ e, 1)%Z else (Zpos m, 2 ^ (- e))%Z.

Definition same_value (x y : float) : bool :=
  match x, y with
  | S754_finite sx mx ex, S754_finite sy my ey =>
      let (nx, dx) := exact mx ex in
      let (ny, dy) := exact my ey in
      Bool.eqb sx sy && (nx * dy =? ny * dx)%Z
  | S754_zero _, S754_zero _ => true
  | S754_infinity sx, S754_infinity sy => Bool.eqb sx sy
  | _, _ => false
  end.

Definition dec (z : Z) : str :=
  list_ascii_of_string (NilEmpty.string_of_uint (N.to_uint (Z.to_N z))).

Definition zeros (n : Z) : str := repeat "0"%char (Z.to_nat n).

(** Rounding of the fraction [n / d] to an integer, ties to even. *)
Definition round_half_even (n d : Z) : Z :=
  let q := (n / d)%Z in
  let r := (n mod d)%Z in
  match (2 * r ?= d)%Z with
  | Lt => q
  | Gt => (q + 1)%Z
  | Eq => if Z.even q then q else (q + 1)%Z
  end.

Definition sign_str (s : bool) : str := if s then "-" else "".

(** [format(x, '.2f')] *)
Definition format_2f (x : float) : str :=
  match x with
  | S754_nan => "nan"
  | S754_infinity s => sign_str s ++ "inf"
  | S754_zero s => sign_str s ++ "0.00"
  | S754_finite s m e =>
      let (n, d) := exact m e in
      let h := round_half_even (100 * n) d in
      let f := dec (h mod 100) in
      sign_str s ++ dec (h / 100) ++ "."
        ++ zeros (2 - Z.of_nat (List.length f)) ++ f
  end.

(** The least [k], searched upwards from [k0], with [n / d < 10^k]. *)
Fixpoint decimal_point (fuel : nat) (k0 n d : Z) : Z :=
  match fuel with
  | 0 => k0
  | S fuel' =>
      if (if 0 <=? k0 then n <? d * 10 ^ k0 else n * 10 ^ (- k0) <? d)%Z
      then k0 else decimal_point fuel' (k0 + 1)%Z n d
  end.

(** The integer [h] of at most [p] digits (or [10^p]) such that
    [h * 10^(decpt - p)] is nearest to [n / d] among those that read back
    as [x]; [None] when no such decimal reads back as [x]. *)
Definition shortest_at (x : float) (n d decpt : Z) (p : Z) : option Z :=
  let sh := (p - decpt)%Z in
  let (n', d') := if (0 <=? sh)%Z then (n * 10 ^ sh, d)%Z
                  else (n, d * 10 ^ (- sh))%Z in
  let lo := (n' / d')%Z in
  let r := (n' mod d')%Z in
  let back h := same_value (of_decimal h (- sh)) x in
  if (r =? 0)%Z then (if back lo then Some lo else None)
  else
    let hi := (lo + 1)%Z in
    match back lo, back hi with
    | true, true =>
        match (2 * r ?= d')%Z with
        | Lt => Some lo
        | Gt => Some hi
        | Eq => Some (if Z.even lo then lo else hi)
        end
    | true, false => Some lo
    | false, true => Some hi
    | false, false => None
    end.

(** The shortest digit string that reads back as [x], with the position of
    its decimal point: the value is [0.d1d2...dn * 10^decpt]. *)
Fixpoint shortest_from (fuel : nat) (x : float) (n d decpt p : Z) : Z * Z :=
  match fuel with
  | 0 => (round_half_even (if 0 <=? p - decpt then n * 10 ^ (p - decpt) else n)%Z
                          (if 0 <=? p - decpt then d else d * 10 ^ (decpt - p))%Z, p)
  | S fuel' =>
      match shortest_at x n d decpt p with
      | Some h => (h, p)
      | None => shortest_from fuel' x n d decpt (p + 1)%Z
      end
  end.

Fixpoint drop_trailing_zeros (ds : str) : str :=
  match ds with
  | [] => []
  | c :: ds' =>
      match drop_trailing_zeros ds' with
      | [] => if Ascii.eqb c "0" then [] else [c]
      | r => c :: r
      end
  end.

Definition shortest_digits (x : float) (m : positive) (e : Z) : str * Z :=
  let (n, d) := exact m e in
  let decpt := decimal_point 700 (-330)%Z n d in
  let (h, p) := shortest_from 16 x n d decpt 1%Z in
  let ds := dec h in
  (drop_trailing_zeros ds, (decpt + (Z.of_nat (List.length ds) - p))%Z).

(** [repr(x)], which is also [str(x)] and what an f-string field without a
    format shows: the shortest digits that read back as [x], in positional
    notation when the decimal point falls within [-4 < decpt <= 16] and in
    exponent notation otherwise. *)
Definition repr (x : float) : str :=
  match x with
  | S754_nan => "nan"
  | S754_infinity s => sign_str s ++ "inf"
  | S754_zero s => sign_str s ++ "0.0"
  | S754_finite s m e =>
      let (ds, decpt) := shortest_digits x m e in
      let n := Z.of_nat (List.length ds) in
      sign_str s ++
      (if ((decpt <=? -4) || (16 <? decpt))%Z then
         let ex := (decpt - 1)%Z in
         let es := dec (Z.abs ex) in
         firstn 1 ds ++ (if (1 <? n)%Z then "." ++ skipn 1 ds else [])
           ++ "e" ++ (if (ex <? 0)%Z then "-" else "+")
           ++ zeros (2 - Z.of_nat (List.length es)) ++ es
       else if (decpt <=? 0)%Z then "0." ++ zeros (- decpt) ++ ds
       else if (n <=? decpt)%Z then ds ++ zeros (decpt - n) ++ ".0"
       else firstn (Z.to_nat decpt) ds ++ "." ++ skipn (Z.to_nat decpt) ds)
  end.

End F64.

(** ** Exceptions

    [None] is a raised exception; [x <- e ;; k] runs [k] when [e] returns. *)

Definition bind {A B : Type} (e : option A) (k : A -> option B) : option B :=
  match e with
  | Some x => k x
  | None => None
  end.

Notation "x <- e ;; k" := (bind e (fun x => k))
  (at level 61, e at next level, right associativity).

Fixpoint foldM {A B : Type} (f : A -> B -> option A) (l : list B) (a : A)
  : option A :=
  match l with
  | [] => Some a
  | b :: l' => a' <- f a b ;; foldM f l' a'
  end.

(** ** Nodes

    The dictionary built for each line, one field per key. *)

Record node : Type := mk_node {
  level : nat;
  text : str;
  prediction : option str;
  instances : option F64.float;
  error : option F64.float;
  parent_node_id : option str;
  parent_relation : option str;
  node_id : option str
}.

Definition set_node_id (v : option str) (d : node) : node :=
  mk_node (level d) (text d) (prediction d) (instances d) (error d)
          (parent_node_id d) (parent_relation d) v.

Definition set_parent (p r : option str) (d : node) : node :=
  mk_node (level d) (text d) (prediction d) (instances d) (error d)
          p r (node_id d).

(** ** parse_weka_j48_tree *)

(** The indentation marker: a bar and three blanks. *)
Definition marker : str := "|   ".

(** [while line.startswith(marker): level += 1; line = line[4:]].
    Every round drops four characters, so the length of the line is fuel
    enough for the loop to end by its own test ([indent_loop_exit]). *)
Fixpoint indent_loop (fuel : nat) (level : nat) (line : str) : nat * str :=
  match fuel with
  | 0 => (level, line)
  | S fuel' =>
      if Py.startswith line marker
      then indent_loop fuel' (S level) (skipn 4 line)
      else (level, line)
  end.

(** The leaf branch: what [leaf_match] turns [node_text], [prediction],
    [instances] and [error] into.  Reading an unset group where a text is
    needed, and [float] on a text it cannot read, raise. *)
Definition leaf_fields (node_text : str)
  : option (str * option str * option F64.float * option F64.float) :=
  match re_match leaf_re node_text with
  | Some leaf_match =>
      g1 <- group leaf_match 1 ;;
      let node_text := Py.strip g1 in
      let prediction := group leaf_match 2 in
      g3 <- group leaf_match 3 ;;
      instances <- F64.float_of_str g3 ;;
      error <- (if Py.truthy (group leaf_match 4)
                then g4 <- group leaf_match 4 ;; F64.float_of_str g4
                else Some F64.zero) ;;
      Some (node_text, prediction, Some instances, Some error)
  | None => Some (node_text, None, None, None)
  end.

(** One round of the loop over the lines: the record to append, or the
    inner [None] for [continue] on a blank line. *)
Definition parse_line (line : str) : option (option node) :=
  if negb (Py.truthy (Some (Py.strip line))) then Some None
  else
    let (level, line) := indent_loop (List.length line) 0 line in
    let node_text := Py.strip line in
    f <- leaf_fields node_text ;;
    let '(node_text, prediction, instances, error) := f in
    Some (Some (mk_node level node_text prediction instances error
                        None None None)).

Definition parse_step (nodes : list node) (line : str) : option (list node) :=
  r <- parse_line line ;;
  Some (match r with
        | Some d => nodes ++ [d]
        | None => nodes
        end).

Definition parse_weka_j48_tree (tree_text : str) : option (list node) :=
  let lines := Py.split_nl (Py.strip tree_text) in
  foldM parse_step lines [].

(** ** build_tree_structure *)

(** [f"N{node_counter}"] *)
Definition node_name (node_counter : nat) : str :=
  "N" ++ list_ascii_of_string (NilEmpty.string_of_uint (Nat.to_uint node_counter)).

Definition str_eqb (a b : str) : bool :=
  if list_eq_dec ascii_dec a b then true else false.

(** A [dict] with text keys in insertion order, as [items()] walks it. *)
Definition dict := list (str * node).

(** [d[key] = v]: a key already there keeps its place. *)
Fixpoint dict_set (d : dict) (key : str) (v : node) : dict :=
  match d with
  | [] => [(key, v)]
  | (k, w) :: d' =>
      if str_eqb k key then (k, v) :: d' else (k, w) :: dict_set d' key v
  end.

Fixpoint dict_get (d : dict) (key : str) : option node :=
  match d with
  | [] => None
  | (k, w) :: d' => if str_eqb k key then Some w else dict_get d' key
  end.

(** The stack of (node_id, level) pairs; its head is Python's [stack[-1]]. *)
Definition stack_t := list (str * nat).

(** [while stack and stack[-1][1] >= level: stack.pop()] *)
Fixpoint pop_while (stack : stack_t) (lvl : nat) : stack_t :=
  match stack with
  | (_, l) :: rest => if lvl <=? l then pop_while rest lvl else stack
  | [] => []
  end.

(** The variables the loop carries from one round to the next. *)
Record build_state : Type := mk_state {
  nodes_dict : dict;
  node_counter : nat;
  stack : stack_t;
  root_node_id : option str
}.

Definition build_init : build_state := mk_state [] 0 [] None.

(** One round of the loop.  [nodes_dict[node_id]] holds a reference to
    [node_data], so the later writes to its parent fields show in the
    table: the entry is stored with them applied.  This is what the loop
    does on a list of distinct dictionaries, such as the parser returns;
    a list that holds one dictionary twice is not modelled. *)
Definition build_step (st : build_state) (node_data : node) : build_state :=
  let node_id := node_name (node_counter st) in
  let node_data := set_node_id (Some node_id) node_data in
  let node_counter' := S (node_counter st) in
  if level node_data =? 0 then
    mk_state (dict_set (nodes_dict st) node_id node_data) node_counter'
             [(node_id, 0)] (Some node_id)
  else
    let stack := pop_while (stack st) (level node_data) in
    let node_data :=
      match stack with
      | (parent_id, _) :: _ =>
          set_parent (Some parent_id) (Some (text node_data)) node_data
      | [] => node_data
      end in
    mk_state (dict_set (nodes_dict st) node_id node_data) node_counter'
             ((node_id, level node_data) :: stack) (root_node_id st).

Definition build_loop (parsed_nodes : list node) : build_state :=
  fold_left build_step parsed_nodes build_init.

Definition build_tree_structure (parsed_nodes : list node)
  : option str * dict :=
  let st := build_loop parsed_nodes in
  (root_node_id st, nodes_dict st).

(** ** generate_dot_from_tree *)

(** An optional float in an f-string field without a format. *)
Definition show_float (o : option F64.float) : str :=
  match o with
  | Some x => F64.repr x
  | None => "None"
  end.

Definition show_str (o : option str) : str :=
  match o with
  | Some s => s
  | None => "None"
  end.

Definition quote : str := [ascii_of_nat 34].
Definition nl : str := [ascii_of_nat 10].

(** What the first loop appends for one item of the table. *)
Definition node_declaration (item : str * node) : str :=
  let (node_id, data) := item in
  if Py.truthy (prediction data) then
    let node_label :=
      match error data with
      | Some e =>
          show_str (prediction data) ++ " (" ++ show_float (instances data)
            ++ "/" ++ F64.format_2f e ++ ")"
      | None =>
          show_str (prediction data) ++ " (" ++ show_float (instances data) ++ ")"
      end in
    "  " ++ node_id ++ " [label=" ++ quote ++ node_label ++ quote
      ++ ", fillcolor=lightblue];" ++ nl
  else
    let node_label :=
      match re_match feature_re (text data) with
      | Some m => show_str (group m 1)
      | None => text data
      end in
    "  " ++ node_id ++ " [label=" ++ quote ++ node_label ++ quote ++ "];" ++ nl.

(** What the second loop appends for one item: nothing without a parent. *)
Definition edge_declaration (item : str * node) : str :=
  let (node_id, data) := item in
  if Py.truthy (parent_node_id data) then
    let edge_label := parent_relation data in
    "  " ++ show_str (parent_node_id data) ++ " -> " ++ node_id
      ++ " [label=" ++ quote ++ show_str edge_label ++ quote ++ "];" ++ nl
  else "".

Definition dot_header : str :=
  "digraph J48Tree {" ++ nl
  ++ "  graph [rankdir=TB];" ++ nl
  ++ "  node [shape=box, style=filled, fillcolor=lightgray];" ++ nl
  ++ "  edge [fontsize=10];" ++ nl.

Definition generate_dot_from_tree (root_id : option str) (nodes_dict : dict)
  : str :=
  let dot_string := dot_header in
  let dot_string :=
    fold_left (fun acc item => acc ++ node_declaration item) nodes_dict dot_string in
  let dot_string :=
    fold_left (fun acc item => acc ++ edge_declaration item) nodes_dict dot_string in
  dot_string ++ "}" ++ nl.

(** The three steps at the end of the script, in a row. *)
Definition pipeline (tree_text : str) : option str :=
  parsed_nodes <- parse_weka_j48_tree tree_text ;;
  let (root_id, nodes_dict) := build_tree_structure parsed_nodes in
  Some (generate_dot_from_tree root_id nodes_dict).

(** * Notions the properties are stated with *)

(** ** Patterns, read declaratively

    [matches r p rest c c']: pattern [r] can consume [p] when [rest]
    follows, turning the captured groups [c] into [c']. *)

Inductive matches : regex -> str -> str -> captures -> captures -> Prop :=
| m_eps rest c : matches Eps [] rest c c
| m_any a rest c : a <> "010"%char -> matches Any [a] rest c c
| m_lit a rest c : matches (Lit a) [a] rest c c
| m_class (q : ascii -> bool) a rest c :
    q a = true -> matches (Class q) [a] rest c c
| m_seq r1 r2 p1 p2 rest c c1 c2 :
    matches r1 p1 (p2 ++ rest) c c1 -> matches r2 p2 rest c1 c2 ->
    matches (Seq r1 r2) (p1 ++ p2) rest c c2
| m_alt_l r1 r2 p rest c c1 :
    matches r1 p rest c c1 -> matches (Alt r1 r2) p rest c c1
| m_alt_r r1 r2 p rest c c1 :
    matches r2 p rest c c1 -> matches (Alt r1 r2) p rest c c1
| m_star_nil r rest c : matches (Star r) [] rest c c
| m_star_cons r p1 p2 rest c c1 c2 :
    matches r p1 (p2 ++ rest) c c1 -> matches (Star r) p2 rest c1 c2 ->
    matches (Star r) (p1 ++ p2) rest c c2
| m_group n r p rest c c1 :
    matches r p rest c c1 -> matches (Group n r) p rest c ((n, p) :: c1)
| m_eol rest c :
    rest = [] \/ rest = ["010"%char] -> matches Eol [] rest c c.

(** The matcher is sound at [r]: a result comes from a match of [r] on a
    prefix of the subject, continued successfully. *)
Definition sound_at (R : Type) (r : regex) : Prop :=
  forall s c (k : cont R) res,
    rmatch r s c k = Some res ->
    exists p rest c',
      s = p ++ rest /\ matches r p rest c c' /\ k rest c' = Some res.

(** The matcher is complete at [r]: where [r] has a match that the
    continuation accepts, the matcher returns some result. *)
Definition complete_at (R : Type) (r : regex) : Prop :=
  forall p rest c c' (k : cont R) res,
    matches r p rest c c' -> k rest c' = Some res ->
    exists res', rmatch r (p ++ rest) c k = Some res'.

(** Patterns without groups leave the captures alone. *)
Fixpoint groupless (r : regex) : bool :=
  match r with
  | Seq r1 r2 | Alt r1 r2 => groupless r1 && groupless r2
  | Star r' => groupless r'
  | Group _ _ => false
  | _ => true
  end.

(** Patterns that cannot match the empty text, and patterns all of whose
    starred parts are such. *)
Fixpoint consumes (r : regex) : bool :=
  match r with
  | Any | Lit _ | Class _ => true
  | Seq r1 r2 => consumes r1 || consumes r2
  | Alt r1 r2 => consumes r1 && consumes r2
  | Group _ r' => consumes r'
  | _ => false
  end.

Fixpoint star_ok (r : regex) : bool :=
  match r with
  | Seq r1 r2 | Alt r1 r2 => star_ok r1 && star_ok r2
  | Star r' => consumes r' && star_ok r'
  | Group _ r' => star_ok r'
  | _ => true
  end.

(** The texts [number_re] can consume: a digit, more digits, and
    optionally a point followed by digits. *)
Definition numeral (p : str) : Prop :=
  exists d ip dot fp,
    p = d :: ip ++ dot ++ fp /\ Py.isdecimal d = true
    /\ forallb Py.isdecimal ip = true
    /\ (dot = [] \/ dot = ["."%char]) /\ forallb Py.isdecimal fp = true.

(** A condition text of the shape name, comparator, threshold: a name of
    letters, digits, underscores, points and hyphens, then optional white
    space, comparator characters, optional white space and a numeral,
    up to the end of the text or a last newline. *)
Definition condition_shape (name conditionText : str) : Prop :=
  exists ws1 cmp ws2 thr tail,
    conditionText = name ++ ws1 ++ cmp ++ ws2 ++ thr ++ tail
    /\ name <> [] /\ forallb feature_char name = true
    /\ forallb Py.isspace ws1 = true
    /\ cmp <> [] /\ forallb comparator_char cmp = true
    /\ forallb Py.isspace ws2 = true
    /\ numeral thr /\ (tail = [] \/ tail = ["010"%char]).

(** ** Lines and records *)

(** A line is blank when it holds nothing but white space. *)
Definition blank (l : str) : bool := forallb Py.isspace l.

(** The non-blank lines of a text, cut at its newlines. *)
Definition nonblank_lines (s : str) : list str :=
  filter (fun l => negb (blank l)) (Py.split_nl s).


(** Texts without a newline, such as the marker. *)
Definition no_newline (p : str) : bool :=
  forallb (fun a => negb (Ascii.eqb a "010")) p.

(** A record as the parser leaves it: no identifier and no parent yet. *)
Definition fresh (d : node) : Prop :=
  parent_node_id d = None /\ parent_relation d = None /\ node_id d = None.

(** Leaf fields come all together, with one of the two class labels. *)
Definition leaf_ok (d : node) : Prop :=
  (prediction d = None /\ instances d = None /\ error d = None)
  \/ ((prediction d = Some ("POS" : str) \/ prediction d = Some ("NEG" : str))
      /\ (exists x, instances d = Some x) /\ (exists e, error d = Some e)).

(** The records one line contributes: one, or none for a blank line. *)
Definition line_nodes (line : str) : list node :=
  match parse_line line with
  | Some (Some d) => [d]
  | _ => []
  end.

(** ** The reconstruction *)

(** What a round stores in the table for the record it is given. *)
Definition stored (st : build_state) (r : node) : node :=
  let d := set_node_id (Some (node_name (node_counter st))) r in
  if level r =? 0 then d
  else match pop_while (stack st) (level r) with
       | (parent_id, _) :: _ => set_parent (Some parent_id) (Some (text r)) d
       | [] => d
       end.

(** What the top of the stack is once the entries at level [L] or deeper
    are popped: the last record so far that is shallower than [L]. *)
Definition last_shallower (recs : list node) (L : nat)
    (top : option (str * nat)) : Prop :=
  match top with
  | Some (id, l) =>
      exists j r,
        id = node_name j /\ nth_error recs j = Some r /\ level r = l /\ l < L
        /\ forall k rk, j < k -> nth_error recs k = Some rk -> L <= level rk
  | None => forall k rk, nth_error recs k = Some rk -> L <= level rk
  end.

(** The root identifier the loop ends with: that of the last record at
    level 0, if there is one. *)
Definition last_root (recs : list node) (root : option str) : Prop :=
  match root with
  | Some id =>
      exists j r,
        id = node_name j /\ nth_error recs j = Some r /\ level r = 0
        /\ forall k rk, j < k -> nth_error recs k = Some rk -> level rk <> 0
  | None => forall k rk, nth_error recs k = Some rk -> level rk <> 0
  end.

(** The returned root identifier, read as a collection. *)
Definition root_collection (root : option str) : list str :=
  match root with
  | Some id => [id]
  | None => []
  end.

(** C2 as the specification words it: the returned collection is not
    empty and holds the identifier of every depth-0 entry of the table. *)
Definition all_roots_returned (tree_text : str) : Prop :=
  exists recs,
    parse_weka_j48_tree tree_text = Some recs
    /\ let (root, tbl) := build_tree_structure recs in
       1 <= List.length (root_collection root)
       /\ forall nid nd,
            In (nid, nd) tbl -> level nd = 0 -> In nid (root_collection root).

(** C9 as the specification words it: the first record, if any, is at
    depth 0. *)
Definition first_depth_zero (tree_text : str) : Prop :=
  forall recs d,
    parse_weka_j48_tree tree_text = Some recs ->
    hd_error recs = Some d -> level d = 0.

(** ** Numbers in the output *)

(** The number a row of decimal digits denotes. *)
Definition decimal_value (ds : str) : Z :=
  fold_left (fun acc c => (10 * acc + (Z.of_nat (nat_of_ascii c) - 48))%Z)
            ds 0%Z.

(** A text with two decimal places that shows [h] hundredths: digits, at
    least one, a point, and two digits. *)
Definition two_decimal_places (s : str) (h : Z) : Prop :=
  exists ip fp,
    s = ip ++ "." ++ fp
    /\ ip <> [] /\ forallb Py.isdecimal ip = true
    /\ List.length fp = 2 /\ forallb Py.isdecimal fp = true
    /\ decimal_value (ip ++ fp) = h.

(** [h] hundredths is what the number [x], zero or more, rounds to: no
    other count of hundredths is nearer to [x], and of two equally near
    it is the even one. *)
Definition nearest_hundredths (x : F64.float) (h : Z) : Prop :=
  match x with
  | S754_zero false => h = 0%Z
  | S754_finite false m e =>
      let n := (100 * Zpos m * 2 ^ Z.max 0 e)%Z in
      let d := (2 ^ Z.max 0 (- e))%Z in
      (2 * Z.abs (h * d - n) <= d)%Z
      /\ ((2 * Z.abs (h * d - n) = d)%Z -> Z.even h = true)
  | _ => False
  end.

(** The floats [float] makes of a numeral: zero, a positive number, or
    infinity for a numeral beyond the range of the format. *)
Definition count_value (x : F64.float) : Prop :=
  match x with
  | S754_zero false | S754_finite false _ _ | S754_infinity false => True
  | _ => False
  end.

(** The characters [repr] and the [.2f] format write for such a float. *)
Definition float_char (c : ascii) : bool :=
  Py.isdecimal c || in_set ".e+-infa" c.

(** A record as the emitter meets it: a condition text that stays within
    its line, and counts that are numbers. *)
Definition printable (d : node) : Prop :=
  no_newline (text d) = true
  /\ (forall x, instances d = Some x -> count_value x)
  /\ (forall e, error d = Some e -> count_value e).

(** ** The lines of the output *)



(** C5 as the specification words it, for the leaves: the label of a
    leaf's declaration is the class and, in brackets, the instance count
    and the error count with two decimal places. *)
Definition leaf_labels_two_decimals (tree_text : str) : Prop :=
  forall recs nid nd cls,
    parse_weka_j48_tree tree_text = Some recs ->
    In (nid, nd) (snd (build_tree_structure recs)) ->
    prediction nd = Some cls ->
    exists inst err h,
      node_declaration (nid, nd)
      = "  " ++ nid ++ " [label=" ++ quote ++ cls ++ " (" ++ inst ++ "/"
          ++ err ++ ")" ++ quote ++ ", fillcolor=lightblue];" ++ nl
      /\ two_decimal_places err h.

(** ** Sample inputs *)

(** A root with one leaf under it. *)
Definition two_line_text : str := "A <= 1" ++ nl ++ "|   A <= 1: POS (5.0)".

(** Two roots, the second with a leaf. *)
Definition forest_text : str :=
  "A <= 0" ++ nl ++ "A > 0" ++ nl ++ "|   B > 2: NEG (3.5/1.25)".

(** A text that starts one level deep. *)
Definition orphan_text : str := "|   A <= 1: POS (5.0)" ++ nl ++ "B > 3".

(** A leaf whose error count, 2 followed by 308 zeros, is beyond the
    largest binary64 number. *)
Definition huge_error_text : str :=
  "a: POS (1/2" ++ repeat "0"%char 308 ++ ")".

(** * Further notions *)

(** ** Lines, once more *)

(** [n] indentation markers in a row. *)
Definition markers (n : nat) : str := concat (repeat marker n).

(** A record list as a tree dump has it: the first record at depth 0 and
    no record more than one level deeper than the one before it. *)
Definition well_nested (recs : list node) : Prop :=
  (forall r, hd_error recs = Some r -> level r = 0)
  /\ forall i a b,
       nth_error recs i = Some a -> nth_error recs (S i) = Some b ->
       level b <= S (level a).

(** Levels strictly decreasing from the top of the stack downwards. *)
Fixpoint descending (stk : stack_t) : Prop :=
  match stk with
  | (_, l) :: rest =>
      match rest with
      | (_, l') :: _ => l' < l
      | [] => True
      end /\ descending rest
  | [] => True
  end.

(** ** The leaf pattern, read declaratively *)

(** The optional error fragment: a slash and a numeral, or nothing. *)
Definition error_fragment (err : option str) : str :=
  match err with
  | Some e => "/" ++ e
  | None => []
  end.

(** A text of the shape condition, colon, class, counts in brackets: the
    condition is free of newlines; white space may follow the colon and
    the class; the text ends after the closing bracket, or with one last
    newline. *)
Definition leaf_shape (cond cls inst : str) (err : option str) (t : str)
  : Prop :=
  exists ws1 ws2 tail,
    t = cond ++ ":" ++ ws1 ++ cls ++ ws2 ++ "(" ++ inst
          ++ error_fragment err ++ ")" ++ tail
    /\ no_newline cond = true
    /\ forallb Py.isspace ws1 = true
    /\ (cls = ("POS" : str) \/ cls = ("NEG" : str))
    /\ forallb Py.isspace ws2 = true
    /\ numeral inst
    /\ match err with Some e => numeral e | None => True end
    /\ (tail = [] \/ tail = ["010"%char]).

(** The characters of a numeral. *)
Definition numeral_char (c : ascii) : bool :=
  Py.isdecimal c || Ascii.eqb c ".".

Definition not_colon (c : ascii) : bool := negb (Ascii.eqb c ":").

(** An internal record as the parser leaves it, and a small well-nested
    list of such records. *)
Definition internal (lvl : nat) (t : str) : node :=
  mk_node lvl t None None None None None None.

Definition nested_recs : list node :=
  [ internal 0 "A <= 0"; internal 1 "B <= 1"; internal 2 "C <= 2";
    internal 2 "C > 2"; internal 1 "B > 1" ].

(** Two record lists with the same depths line by line and different
    contents. *)
Definition other_recs : list node :=
  [ mk_node 0 "x" None None None None None None;
    mk_node 1 "y" (Some ("POS" : str)) (Some F64.zero) (Some F64.zero)
      None None None;
    internal 2 "z"; internal 2 "u"; internal 1 "v" ].

(** A well-nested dump and its records. *)
Definition nested_text : str :=
  "A <= 0" ++ nl ++ "|   B <= 1" ++ nl ++ "|   |   C <= 2" ++ nl
  ++ "|   |   C > 2" ++ nl ++ "|   B > 1".

(** A dump with the same depths line by line and other contents. *)
Definition other_text : str :=
  "x" ++ nl ++ "|   y: POS (0)" ++ nl ++ "|   |   z" ++ nl
  ++ "|   |   u" ++ nl ++ "|   v".

(** * NominalToOrdinal.py

    The table of binding strengths and [convert_to_ordinal].  A data
    frame is its rows of cells; [DataFrame.replace] with a table of
    values replaces, cell by cell, a value equal to a key by what the
    table gives for it and leaves every other value alone. *)

Module Ordinal.

(** A cell as [read_csv] types it. *)
Inductive cell : Type :=
| Text (s : str)
| Int (z : Z)
| Real (x : F64.float)
| Flag (b : bool)
| Missing.

Definition dataframe := list (list cell).

Definition binding_strength_map : list (str * Z) :=
  [ (("E" : str), 4%Z); (("E1" : str), 4%Z);
    (("G" : str), 3%Z); (("G1" : str), 3%Z);
    (("M" : str), 2%Z); (("M1" : str), 2%Z);
    (("W" : str), 1%Z); (("W1" : str), 1%Z);
    (("Z" : str), 0%Z); (("N" : str), 0%Z) ].

(** [m.get(key)] *)
Fixpoint lookup (m : list (str * Z)) (key : str) : option Z :=
  match m with
  | [] => None
  | (k, v) :: m' => if str_eqb k key then Some v else lookup m' key
  end.

(** One cell under [replace(m)]: the keys are texts, so only a text cell
    can equal one. *)
Definition replace_cell (m : list (str * Z)) (c : cell) : cell :=
  match c with
  | Text s =>
      match lookup m s with
      | Some v => Int v
      | None => c
      end
  | _ => c
  end.

(** [df.replace(m)] *)
Definition replace (m : list (str * Z)) (df : dataframe) : dataframe :=
  map (map (replace_cell m)) df.

Definition convert_to_ordinal (df : dataframe) : dataframe :=
  replace binding_strength_map df.

(** The ten strength codes. *)
Definition codes : list str :=
  [ ("E" : str); ("E1" : str); ("G" : str); ("G1" : str); ("M" : str);
    ("M1" : str); ("W" : str); ("W1" : str); ("Z" : str); ("N" : str) ].

Definition is_code (c : cell) : Prop := exists s, c = Text s /\ In s codes.

(** How a cell of the result relates to the cell it comes from. *)
Definition encoded (c c' : cell) : Prop :=
  (is_code c /\ exists z, c' = Int z /\ (0 <= z <= 4)%Z)
  \/ (~ is_code c /\ c' = c).

End Ordinal.

(** * CompareCSV.py

    The two comparisons of the script, on the column labels and on the
    row labels of the two files.  A label is a text, an integer, or
    missing; the missing label of a file read by [read_csv] is the float
    NaN, which equals no label, itself included. *)

Module CompareCSV.

Inductive label : Type :=
| Name (s : str)
| Number (z : Z)
| Missing.

Definition label_eqb (a b : label) : bool :=
  match a, b with
  | Name s, Name t => str_eqb s t
  | Number x, Number y => Z.eqb x y
  | _, _ => false
  end.

(** [x in ys] *)
Definition member (x : label) (ys : list label) : bool :=
  existsb (label_eqb x) ys.

(** [[x for x in xs if x not in ys]] *)
Definition not_in (xs ys : list label) : list label :=
  filter (fun x => negb (member x ys)) xs.

(** The four lists the script prints, and their lengths. *)
Record report : Type := mk_report {
  missing_columns_in_csv2 : list label;
  extra_columns_in_csv2 : list label;
  missing_rows_in_csv2 : list label;
  extra_rows_in_csv2 : list label
}.

Definition compare (columns1 columns2 rows1 rows2 : list label) : report :=
  mk_report (not_in columns1 columns2) (not_in columns2 columns1)
            (not_in rows1 rows2) (not_in rows2 rows1).

(** Labels all present: no missing one among them. *)
Definition present (ls : list label) : Prop := ~ In Missing ls.

End CompareCSV.

(** * VisualizeOutput.py

    The label columns the script derives from the columns [actual] and
    [predicted] of the WEKA output, whose cells read like 1:NEG and
    2:POS.  The frame is as [read_csv] gives it: columns under their
    names, a cell being a text, a number (or truth value), or missing.
    Reading a column the frame does not have raises KeyError.  The [.str]
    accessor takes a column that holds a text, or no cell at all, and
    raises AttributeError on any other: a column of numbers, and one with
    nothing but missing cells, which [read_csv] types as numbers.  [None]
    stands for either exception. *)

Module Visualize.

Inductive cell : Type :=
| Text (s : str)
| Number
| Missing.

Definition frame := list (str * list cell).

(** [df[name]] *)
Fixpoint column (df : frame) (name : str) : option (list cell) :=
  match df with
  | [] => None
  | (k, cells) :: df' => if str_eqb k name then Some cells else column df' name
  end.

Definition is_text (c : cell) : bool :=
  match c with
  | Text _ => true
  | _ => false
  end.

(** Whether [column.str] is accepted. *)
Definition accepts_str (column : list cell) : bool :=
  match column with
  | [] => true
  | _ => existsb is_text column
  end.

(** [s.split(sep)] for a separator of one character. *)
Fixpoint split_on (sep : ascii) (s : str) : list str :=
  match s with
  | [] => [[]]
  | c :: s' =>
      if Ascii.eqb c sep then [] :: split_on sep s'
      else match split_on sep s' with
           | l :: ls => (c :: l) :: ls
           | [] => [[c]]
           end
  end.

(** [.str.split(':').str[1]] on one cell of an accepted column: the
    second piece of a text, missing when the text has no second piece and
    when the cell is not a text. *)
Definition label_of (c : cell) : option str :=
  match c with
  | Text s => nth_error (split_on ":" s) 1
  | _ => None
  end.

(** [column.str.split(':').str[1]]; [None] is the AttributeError. *)
Definition second_field (column : list cell) : option (list (option str)) :=
  if accepts_str column then Some (map label_of column) else None.

(** [lambda x: 1 if x == 'POS' else 0] *)
Definition binary_of (x : option str) : nat :=
  match x with
  | Some l => if str_eqb l "POS" then 1 else 0
  | None => 0
  end.

(** The four derived columns. *)
Record labels : Type := mk_labels {
  actual_label : list (option str);
  predicted_label : list (option str);
  actual_binary : list nat;
  predicted_binary : list nat
}.

(** The assignments of steps 2 and 2b in the order of the script, which
    stops at the first exception. *)
Definition derive (df : frame) : option labels :=
  actual <- column df "actual" ;;
  actual_label <- second_field actual ;;
  predicted <- column df "predicted" ;;
  predicted_label <- second_field predicted ;;
  confidence <- column df "prediction" ;;
  Some (mk_labels actual_label predicted_label
                  (map binary_of actual_label)
                  (map binary_of predicted_label)).

Definition no_colon (s : str) : bool :=
  forallb (fun c => negb (Ascii.eqb c ":")) s.

(** A column [.str] accepts, said without the test: it is empty or holds
    a text. *)
Definition text_column (column : list cell) : Prop :=
  column = [] \/ exists s, In (Text s) column.

(** A cell whose second colon-separated field is [lab]: a text free of
    colons, a colon, [lab], itself free of colons, and then nothing or a
    colon and anything. *)
Definition second_field_is (lab : str) (c : cell) : Prop :=
  exists k tail,
    c = Text (k ++ ":" ++ lab ++ tail)
    /\ no_colon k = true /\ no_colon lab = true
    /\ (tail = [] \/ exists t, tail = ":"%char :: t).

End Visualize.

(** * Properties *)

(** ** The run-time fragments on examples *)

Example strip_ex : Py.strip "
 a b
 " = "a b".
Proof. reflexivity. Qed.

Example split_ex : Py.split_nl "a
b" = [ ("a" : str); ("b" : str) ].
Proof. reflexivity. Qed.

Example leaf_re_ex1 :
  let m := re_match leaf_re "f <= 1: NEG (30.07/14.97)" in
  option_map (fun m => (group m 1, group m 2, group m 3, group m 4)) m
  = Some (Some ("f <= 1" : str), Some ("NEG" : str),
          Some ("30.07" : str), Some ("14.97" : str)).
Proof. reflexivity. Qed.

Example leaf_re_ex2 :
  let m := re_match leaf_re "g > 2: POS (15.7)" in
  option_map (fun m => (group m 1, group m 2, group m 3, group m 4)) m
  = Some (Some ("g > 2" : str), Some ("POS" : str),
          Some ("15.7" : str), None).
Proof. reflexivity. Qed.

Example leaf_re_ex3 : re_match leaf_re "g > 2" = None.
Proof. reflexivity. Qed.

Example leaf_re_ex4 :
  option_map (fun m => group m 1) (re_match leaf_re "a: POS (1): NEG (2)")
  = Some (Some ("a: POS (1)" : str)).
Proof. reflexivity. Qed.

Example feature_re_ex1 :
  option_map (fun m => group m 1) (re_match feature_re "CHEMBL312_non_agonist_Label-2 <= 0")
  = Some (Some ("CHEMBL312_non_agonist_Label-2" : str)).
Proof. reflexivity. Qed.

Example float_ex1 : F64.float_of_str "30.07" = Some (F64.of_ratio 3007 100).
Proof. reflexivity. Qed.

Example float_ex2 :
  F64.float_of_str "30.07" = Some (S754_finite false 8463952549689426 (-48)).
Proof. vm_compute. reflexivity. Qed.

Example repr_ex1 :
  map (fun s => option_map F64.repr (F64.float_of_str s))
    [ ("30.07" : str); ("15.7" : str); ("5" : str); ("5." : str); ("0" : str);
      ("10000000000000000" : str); ("1000000000000000" : str);
      ("0.0001" : str); ("0.00001" : str); ("0.1234567890123456789" : str);
      ("9007199254740993" : str); ("123456789012345678" : str);
      ("0.000015" : str); ("100" : str) ]
  = [ Some ("30.07" : str); Some ("15.7" : str); Some ("5.0" : str);
      Some ("5.0" : str); Some ("0.0" : str);
      Some ("1e+16" : str); Some ("1000000000000000.0" : str);
      Some ("0.0001" : str); Some ("1e-05" : str);
      Some ("0.12345678901234568" : str);
      Some ("9007199254740992.0" : str); Some ("1.2345678901234568e+17" : str);
      Some ("1.5e-05" : str); Some ("100.0" : str) ].
Proof. vm_compute. reflexivity. Qed.

Example format_2f_ex1 :
  map (fun s => option_map F64.format_2f (F64.float_of_str s))
    [ ("14.97" : str); ("0" : str); ("0.125" : str); ("0.375" : str);
      ("2.675" : str); ("1.005" : str); ("7.08" : str); ("123456.999" : str);
      ("0.005" : str); ("5.0" : str) ]
  = [ Some ("14.97" : str); Some ("0.00" : str); Some ("0.12" : str);
      Some ("0.38" : str); Some ("2.67" : str); Some ("1.00" : str);
      Some ("7.08" : str); Some ("123457.00" : str); Some ("0.01" : str);
      Some ("5.00" : str) ].
Proof. vm_compute. reflexivity. Qed.

Example pipeline_ex :
  pipeline ("A <= 1" ++ nl ++ "|   A <= 1: POS (5.0)")
  = Some (dot_header
          ++ "  N0 [label=" ++ quote ++ "A" ++ quote ++ "];" ++ nl
          ++ "  N1 [label=" ++ quote ++ "POS (5.0/0.00)" ++ quote
          ++ ", fillcolor=lightblue];" ++ nl
          ++ "  N0 -> N1 [label=" ++ quote ++ "A <= 1" ++ quote ++ "];" ++ nl
          ++ "}" ++ nl).
Proof. vm_compute. reflexivity. Qed.

(** A count beyond the range of binary64 is read as infinity and written
    as inf. *)
Example float_ex3 :
  F64.float_of_str ("2" ++ repeat "0"%char 308) = Some (S754_infinity false).
Proof. vm_compute. reflexivity. Qed.

Example pipeline_ex2 :
  pipeline huge_error_text
  = Some (dot_header
          ++ "  N0 [label=" ++ quote ++ "POS (1.0/inf)" ++ quote
          ++ ", fillcolor=lightblue];" ++ nl
          ++ "}" ++ nl).
Proof. vm_compute. reflexivity. Qed.

(** ** The matcher is sound *)

Create HintDb re.
#[local] Hint Constructors matches : re.

Lemma firstn_consumed (p rest : str) :
  firstn (List.length (p ++ rest) - List.length rest) (p ++ rest) = p.
Proof.
  rewrite length_app, Nat.add_sub.
  rewrite firstn_app, Nat.sub_diag, firstn_all. simpl. apply app_nil_r.
Qed.

Section Soundness.

Variable R : Type.

Lemma star_loop_sound (r : regex) :
  sound_at R r ->
  forall fuel s c (k : cont R) res,
    star_loop (rmatch (R:=R) r) fuel s c k = Some res ->
    exists p rest c',
      s = p ++ rest /\ matches (Star r) p rest c c' /\ k rest c' = Some res.
Proof.
  intros Hr. induction fuel as [|fuel IH]; intros s c k res H; simpl in H.
  - exists [], s, c. auto with re.
  - destruct (rmatch r s c _) as [res'|] eqn:E.
    + inversion H; subst res'; clear H.
      apply Hr in E. destruct E as (p1 & rest1 & c1 & -> & Hm & Hk).
      destruct (_ <? _); [|discriminate].
      apply IH in Hk. destruct Hk as (p2 & rest & c2 & -> & Hm2 & Hk).
      exists (p1 ++ p2), rest, c2. rewrite app_assoc. eauto with re.
    + exists [], s, c. auto with re.
Qed.

Lemma rmatch_sound : forall r, sound_at R r.
Proof.
  induction r as [| |b|q|r1 IH1 r2 IH2|r1 IH1 r2 IH2|r IH|n r IH|];
    intros s c k res H; cbn [rmatch] in H.
  - exists [], s, c. auto with re.
  - destruct s as [|a s]; [discriminate|].
    destruct (Ascii.eqb a "010") eqn:E; [discriminate|].
    apply Ascii.eqb_neq in E. exists [a], s, c. auto with re.
  - destruct s as [|a s]; [discriminate|].
    destruct (Ascii.eqb a b) eqn:E; [|discriminate].
    apply Ascii.eqb_eq in E; subst. exists [b], s, c. auto with re.
  - destruct s as [|a s]; [discriminate|].
    destruct (q a) eqn:E; [|discriminate].
    exists [a], s, c. auto with re.
  - apply IH1 in H. destruct H as (p1 & rest1 & c1 & -> & Hm1 & Hk).
    apply IH2 in Hk. destruct Hk as (p2 & rest & c2 & -> & Hm2 & Hk).
    exists (p1 ++ p2), rest, c2. rewrite app_assoc. eauto with re.
  - destruct (rmatch r1 s c k) as [res'|] eqn:E.
    + inversion H; subst res'. apply IH1 in E.
      destruct E as (p & rest & c1 & -> & Hm & Hk). eauto 7 with re.
    + apply IH2 in H. destruct H as (p & rest & c1 & -> & Hm & Hk).
      eauto 7 with re.
  - eapply star_loop_sound; eauto.
  - apply IH in H. destruct H as (p & rest & c1 & -> & Hm & Hk).
    rewrite firstn_consumed in Hk. eauto 7 with re.
  - destruct s as [|a [|b s]].
    + exists [], [], c. auto with re.
    + destruct (Ascii.eqb a "010") eqn:E; [|discriminate].
      apply Ascii.eqb_eq in E; subst. exists [], ["010"%char], c. auto with re.
    + discriminate.
Qed.

End Soundness.

Lemma re_match_sound (r : regex) (s : str) (m : captures) :
  re_match r s = Some m ->
  exists p rest, s = p ++ rest /\ matches r p rest [] m.
Proof.
  intros H. apply rmatch_sound in H.
  destruct H as (p & rest & c' & -> & Hm & Hk). inversion Hk; subst. eauto.
Qed.

Lemma matches_groupless r p rest c c' :
  matches r p rest c c' -> groupless r = true -> c' = c.
Proof.
  induction 1; simpl; intros G; try reflexivity;
    try (apply andb_prop in G; destruct G as [G1 G2]).
  - rewrite IHmatches2, IHmatches1; auto.
  - auto.
  - auto.
  - rewrite IHmatches2, IHmatches1; auto.
  - discriminate.
Qed.

Lemma matches_word w p rest c c' : matches (Word w) p rest c c' -> p = w.
Proof.
  revert p rest c c'. induction w as [|a w IH]; simpl; intros p rest c c' H.
  - inversion H; reflexivity.
  - inversion H as [| | | |r1 r2 p1 p2 rest' c0 c1 c2 H1 H2| | | | | |]; subst.
    inversion H1; subst. simpl. f_equal. eauto.
Qed.

Lemma matches_star_class q p rest c c' :
  matches (Star (Class q)) p rest c c' -> forallb q p = true.
Proof.
  remember (Star (Class q)) as r eqn:E. induction 1; try discriminate.
  - reflexivity.
  - injection E as ->. match goal with H : matches (Class q) _ _ _ _ |- _ =>
      inversion H; subst end.
    simpl. rewrite IHmatches2 by reflexivity.
    match goal with H : q _ = true |- _ => rewrite H end. reflexivity.
Qed.

Lemma matches_number p rest c c' :
  matches number_re p rest c c' -> numeral p /\ c' = c.
Proof.
  intros H. split; [|eapply matches_groupless; eauto].
  unfold number_re, Plus, Opt in H.
  inversion H as [| | | |? ? p1 p2 ? ? ? ? H1 H2| | | | | |]; subst; clear H.
  inversion H1 as [| | | |? ? p3 p4 ? ? ? ? H3 H4| | | | | |]; subst; clear H1.
  inversion H3; subst; clear H3.
  apply matches_star_class in H4.
  inversion H2 as [| | | |? ? p5 p6 ? ? ? ? H5 H6| | | | | |]; subst; clear H2.
  apply matches_star_class in H6.
  exists a, p4, p5, p6. simpl. repeat split; auto.
  inversion H5 as [| | | | |? ? ? ? ? ? H7|? ? ? ? ? ? H7| | | |]; subst;
    inversion H7; subst; auto.
Qed.

Lemma span_all q (s : str) :
  forallb q s = true -> Py.span q s = (s, []).
Proof.
  induction s as [|a s IH]; simpl; [reflexivity|].
  intros H. apply andb_prop in H. destruct H as [Ha Hs].
  rewrite Ha, IH by assumption. reflexivity.
Qed.

Lemma span_stop q (s : str) b (t : str) :
  forallb q s = true -> q b = false -> Py.span q (s ++ b :: t) = (s, b :: t).
Proof.
  induction s as [|a s IH]; simpl; intros H Hb.
  - rewrite Hb. reflexivity.
  - apply andb_prop in H. destruct H as [Ha Hs].
    rewrite Ha, IH by assumption. reflexivity.
Qed.

(** [float] never raises on a numeral. *)
Lemma float_of_numeral p :
  numeral p -> exists x, F64.float_of_str p = Some x.
Proof.
  intros (d & ip & dot & fp & -> & Hd & Hip & Hdot & Hfp).
  unfold F64.float_of_str. destruct Hdot as [-> | ->].
  - rewrite (span_all Py.isdecimal (d :: ip ++ [] ++ fp)).
    + eauto.
    + simpl. rewrite Hd, forallb_app, Hip, Hfp. reflexivity.
  - change (d :: ip ++ ["."%char] ++ fp) with ((d :: ip) ++ "."%char :: fp).
    rewrite span_stop.
    + simpl Ascii.eqb. rewrite Hfp. simpl. eauto.
    + simpl. rewrite Hd, Hip. reflexivity.
    + reflexivity.
Qed.

Lemma matches_class_label p rest c c' :
  matches (Alt (Word "POS") (Word "NEG")) p rest c c' ->
  (p = ("POS" : str) \/ p = ("NEG" : str)) /\ c' = c.
Proof.
  intros H. split; [|eapply matches_groupless; eauto].
  inversion H as [| | | | |? ? ? ? ? ? H1|? ? ? ? ? ? H1| | | |]; subst.
  - apply (@matches_word (list_ascii_of_string "POS")) in H1; auto.
  - apply (@matches_word (list_ascii_of_string "NEG")) in H1; auto.
Qed.

(** What a match of the leaf pattern has captured. *)
Lemma leaf_re_captures s m :
  re_match leaf_re s = Some m ->
  exists g1 g2 g3,
    (g2 = ("POS" : str) \/ g2 = ("NEG" : str)) /\ numeral g3
    /\ (m = [(3, g3); (2, g2); (1, g1)]
        \/ exists g4, numeral g4 /\ m = [(4, g4); (3, g3); (2, g2); (1, g1)]).
Proof.
  intros H. apply re_match_sound in H. destruct H as (p & rest & _ & H).
  unfold leaf_re, Opt in H.
  repeat match goal with
  | H : matches (Seq _ _) _ _ _ _ |- _ => inversion H; subst; clear H
  | H : matches (Group _ _) _ _ _ _ |- _ => inversion H; subst; clear H
  | H : matches (Lit _) _ _ _ _ |- _ => inversion H; subst; clear H
  | H : matches Eol _ _ _ _ |- _ => inversion H; subst; clear H
  | H : matches Eps _ _ _ _ |- _ => inversion H; subst; clear H
  | H : matches (Star _) _ _ _ _ |- _ =>
      apply matches_groupless in H; [subst | reflexivity]
  | H : matches number_re _ _ _ _ |- _ =>
      apply matches_number in H; destruct H as [? ?]; subst
  | H : matches (Alt (Seq (Lit "P") _) _) _ _ _ _ |- _ =>
      apply matches_class_label in H; destruct H as [? ?]; subst
  | H : matches (Alt (Seq _ _) Eps) _ _ _ _ |- _ => inversion H; subst; clear H
  end; eauto 10.
Qed.

(** The leaf branch never raises, and fills in all of a leaf or nothing. *)
Lemma leaf_fields_total node_text :
  exists txt pred inst err,
    leaf_fields node_text = Some (txt, pred, inst, err)
    /\ ((pred = None /\ inst = None /\ err = None /\ txt = node_text)
        \/ ((pred = Some ("POS" : str) \/ pred = Some ("NEG" : str))
            /\ (exists x, inst = Some x) /\ (exists e, err = Some e))).
Proof.
  unfold leaf_fields. destruct (re_match leaf_re node_text) as [m|] eqn:E.
  - apply leaf_re_captures in E.
    destruct E as (g1 & g2 & g3 & Hg2 & Hg3 & Hm).
    destruct (float_of_numeral Hg3) as [x Hx].
    destruct Hm as [-> | (g4 & Hg4 & ->)];
      cbn [bind group Nat.eqb Py.truthy]; rewrite Hx;
      cbn [bind group Nat.eqb Py.truthy].
    + do 4 eexists. split; [reflexivity|]. right.
      split; [destruct Hg2; subst; auto|]. eauto.
    + destruct (float_of_numeral Hg4) as [e He].
      destruct g4 as [|a t];
        [destruct Hg4 as (? & ? & ? & ? & Hnil & _); discriminate|].
      rewrite He. cbn [bind].
      do 4 eexists. split; [reflexivity|]. right.
      split; [destruct Hg2; subst; auto|]. eauto.
  - do 4 eexists. split; [reflexivity|]. left. auto.
Qed.

(** ** The matcher finds a match when there is one

    For patterns whose starred parts always consume a character, which
    holds of the two patterns of the program. *)

Lemma consumes_nonempty r p rest c c' :
  matches r p rest c c' -> consumes r = true -> p <> [].
Proof.
  induction 1; simpl; intros C; try discriminate.
  - apply orb_prop in C. destruct C as [C | C].
    + specialize (IHmatches1 C). destruct p1; [contradiction | discriminate].
    + specialize (IHmatches2 C). destruct p1; simpl; [exact IHmatches2 | discriminate].
  - apply andb_prop in C. tauto.
  - apply andb_prop in C. tauto.
  - auto.
Qed.

Section Completeness.

Variable R : Type.

Lemma star_loop_complete (r : regex) :
  complete_at R r -> consumes r = true ->
  forall p rest c c',
    matches (Star r) p rest c c' ->
    forall fuel (k : cont R) res,
      List.length (p ++ rest) <= fuel -> k rest c' = Some res ->
      exists res', star_loop (rmatch (R:=R) r) fuel (p ++ rest) c k = Some res'.
Proof.
  intros Hr Hc p rest c c' H. remember (Star r) as r0 eqn:E.
  induction H as [| | | | | | |r1 rest c|r1 p1 p2 rest c c1 c2 H1 _ H2 IH2| |];
    try discriminate; injection E as ->; intros fuel k res Hf Hk.
  - destruct fuel as [|fuel]; simpl; [eauto|].
    destruct (rmatch r rest c _); eauto.
  - assert (Hp1 : p1 <> []) by (eapply consumes_nonempty; eauto).
    destruct fuel as [|fuel].
    { destruct p1; [contradiction | simpl in Hf; lia]. }
    simpl. rewrite <- app_assoc.
    destruct (IH2 eq_refl fuel k res) as [res2 E2]; [|exact Hk|].
    { destruct p1; [contradiction|]. simpl in Hf.
      rewrite <- app_assoc in Hf. simpl in Hf.
      rewrite length_app in Hf. rewrite length_app in *. lia. }
    destruct (Hr p1 (p2 ++ rest) c c1
                (fun s' c' =>
                   if List.length s' <? List.length (p1 ++ p2 ++ rest)
                   then star_loop (rmatch (R:=R) r) fuel s' c' k
                   else None) res2 H1) as [res1 E1].
    + assert ((List.length (p2 ++ rest) <? List.length (p1 ++ p2 ++ rest)) = true) as ->.
      { apply Nat.ltb_lt. destruct p1; [contradiction|].
        simpl. rewrite !length_app. lia. }
      exact E2.
    + rewrite E1. eauto.
Qed.

Lemma rmatch_complete : forall r, star_ok r = true -> complete_at R r.
Proof.
  induction r as [| |b|q|r1 IH1 r2 IH2|r1 IH1 r2 IH2|r IH|n r IH|];
    simpl; intros S p rest c c' k res H Hk; cbn [rmatch];
    try (apply andb_prop in S; destruct S as [S1 S2]).
  - inversion H; subst. simpl. eauto.
  - inversion H; subst. simpl.
    assert (Ascii.eqb a "010" = false) as -> by (apply Ascii.eqb_neq; auto).
    eauto.
  - inversion H; subst. simpl. rewrite Ascii.eqb_refl. eauto.
  - inversion H; subst. simpl.
    match goal with Hq : q _ = true |- _ => rewrite Hq end. eauto.
  - inversion H as [| | | |? ? p1 p2 ? ? c1 ? H1 H2| | | | | |]; subst.
    destruct (IH2 S2 _ _ _ _ k res H2 Hk) as [res2 E2].
    rewrite <- app_assoc.
    apply (IH1 S1 _ _ _ _ (fun s' c' => rmatch r2 s' c' k) res2 H1 E2).
  - inversion H as [| | | | |? ? ? ? ? ? H1|? ? ? ? ? ? H1| | | |]; subst.
    + destruct (IH1 S1 _ _ _ _ k res H1 Hk) as [res1 E1].
      rewrite E1. eauto.
    + destruct (rmatch r1 (p ++ rest) c k); [eauto|].
      apply (IH2 S2 _ _ _ _ k res H1 Hk).
  - eapply star_loop_complete; eauto.
  - inversion H as [| | | | | | | | |? ? ? ? ? c1 H1|]; subst.
    eapply (IH S); [exact H1|]. cbv beta.
    rewrite firstn_consumed. exact Hk.
  - inversion H as [| | | | | | | | | |? ? Hr]; subst. simpl.
    destruct Hr as [-> | ->]; simpl; eauto.
Qed.

End Completeness.

Lemma re_match_complete (r : regex) (p rest : str) (c' : captures) :
  star_ok r = true -> matches r p rest [] c' ->
  exists m, re_match r (p ++ rest) = Some m.
Proof.
  intros S H. unfold re_match.
  eapply rmatch_complete; [exact S | exact H | reflexivity].
Qed.

(** ** The feature pattern, read declaratively *)

Lemma matches_plus_class q p rest c c' :
  matches (Plus (Class q)) p rest c c' ->
  p <> [] /\ forallb q p = true /\ c' = c.
Proof.
  intros H. split; [|split].
  - eapply consumes_nonempty; [exact H | reflexivity].
  - unfold Plus in H.
    inversion H as [| | | |? ? p1 p2 ? ? ? ? H1 H2| | | | | |]; subst.
    inversion H1; subst. apply matches_star_class in H2. simpl.
    rewrite H2. match goal with Hq : q _ = true |- _ => rewrite Hq end.
    reflexivity.
  - eapply matches_groupless; [exact H | reflexivity].
Qed.

Lemma star_class_intro q (p rest : str) c :
  forallb q p = true -> matches (Star (Class q)) p rest c c.
Proof.
  induction p as [|a p IH]; simpl; intros H; [constructor|].
  apply andb_prop in H. destruct H as [Ha Hp].
  apply (@m_star_cons (Class q) [a] p rest c c c); auto with re.
Qed.

Lemma plus_class_intro q (p rest : str) c :
  p <> [] -> forallb q p = true -> matches (Plus (Class q)) p rest c c.
Proof.
  destruct p as [|a p]; [contradiction|]. simpl. intros _ H.
  apply andb_prop in H. destruct H as [Ha Hp].
  apply (@m_seq (Class q) (Star (Class q)) [a] p rest c c c);
    auto using star_class_intro with re.
Qed.

Lemma number_intro (p rest : str) c :
  numeral p -> matches number_re p rest c c.
Proof.
  intros (d & ip & dot & fp & -> & Hd & Hip & Hdot & Hfp).
  change (d :: ip ++ dot ++ fp) with ((d :: ip) ++ dot ++ fp).
  unfold number_re. apply m_seq with (c1 := c).
  - apply plus_class_intro; [discriminate|]. simpl. rewrite Hd. exact Hip.
  - apply m_seq with (c1 := c).
    + destruct Hdot as [-> | ->]; unfold Opt; auto with re.
    + apply star_class_intro. exact Hfp.
Qed.

Lemma feature_re_sound (t : str) (m : captures) :
  re_match feature_re t = Some m ->
  exists name, group m 1 = Some name /\ condition_shape name t.
Proof.
  intros H. apply re_match_sound in H. destruct H as (p & rest & -> & H).
  unfold feature_re in H.
  repeat match goal with
  | H : matches (Seq _ _) _ _ _ _ |- _ => inversion H; subst; clear H
  | H : matches (Group _ _) _ _ _ _ |- _ => inversion H; subst; clear H
  | H : matches Eol _ _ _ _ |- _ => inversion H; subst; clear H
  | H : matches (Plus _) _ _ _ _ |- _ =>
      apply matches_plus_class in H; destruct H as (? & ? & ?); subst
  | H : matches (Star (Class _)) _ _ _ _ |- _ =>
      let H' := fresh in
      assert (H' := matches_groupless H eq_refl); subst;
      apply matches_star_class in H
  | H : matches number_re _ _ _ _ |- _ =>
      apply matches_number in H; destruct H as [? ?]; subst
  end.
  rewrite <- !app_assoc. cbn [app].
  eexists. split; [reflexivity|]. unfold condition_shape.
  do 5 eexists. split; [reflexivity|]. repeat split; eauto.
Qed.

Lemma feature_re_complete (name t : str) :
  condition_shape name t -> exists m, re_match feature_re t = Some m.
Proof.
  intros (ws1 & cmp & ws2 & thr & tail & -> & Hn & Hname & Hw1 & Hc & Hcmp
          & Hw2 & Hthr & Htail).
  replace (name ++ ws1 ++ cmp ++ ws2 ++ thr ++ tail)
    with ((name ++ ws1 ++ cmp ++ ws2 ++ thr ++ []) ++ tail)
    by (rewrite <- !app_assoc; reflexivity).
  eapply re_match_complete; [reflexivity|]. unfold feature_re.
  eapply m_seq; [apply m_group, plus_class_intro; eassumption|].
  eapply m_seq; [apply star_class_intro; eassumption|].
  eapply m_seq; [apply plus_class_intro; eassumption|].
  eapply m_seq; [apply star_class_intro; eassumption|].
  eapply m_seq; [apply m_group, number_intro; eassumption|].
  apply m_eol. exact Htail.
Qed.

Lemma space_not_feature (b : ascii) :
  Py.isspace b = true -> feature_char b = false.
Proof.
  destruct b as [[] [] [] [] [] [] [] []]; vm_compute; congruence.
Qed.

Lemma comparator_not_feature (b : ascii) :
  comparator_char b = true -> feature_char b = false.
Proof.
  destruct b as [[] [] [] [] [] [] [] []]; vm_compute; congruence.
Qed.

(** The name of a condition is its longest prefix of name characters. *)
Lemma condition_shape_name (name t : str) :
  condition_shape name t -> fst (Py.span feature_char t) = name.
Proof.
  intros (ws1 & cmp & ws2 & thr & tail & -> & Hn & Hname & Hw1 & Hc & Hcmp
          & _).
  destruct ws1 as [|b ws1].
  - destruct cmp as [|b cmp]; [contradiction|]. simpl in Hcmp.
    apply andb_prop in Hcmp. destruct Hcmp as [Hb _]. simpl.
    rewrite span_stop; auto using comparator_not_feature.
  - simpl in Hw1. apply andb_prop in Hw1. destruct Hw1 as [Hb _]. simpl.
    rewrite span_stop; auto using space_not_feature.
Qed.

Lemma condition_shape_unique (n1 n2 t : str) :
  condition_shape n1 t -> condition_shape n2 t -> n1 = n2.
Proof.
  intros H1 H2. apply condition_shape_name in H1, H2. congruence.
Qed.

(** [re.match] on the feature pattern succeeds exactly on the texts of
    that shape, and its first group is the name. *)
Lemma feature_re_spec (t : str) :
  match re_match feature_re t with
  | Some m => exists name, group m 1 = Some name /\ condition_shape name t
  | None => forall name, ~ condition_shape name t
  end.
Proof.
  destruct (re_match feature_re t) as [m|] eqn:E.
  - apply feature_re_sound. exact E.
  - intros name H. apply feature_re_complete in H.
    destruct H as [m H]. congruence.
Qed.

(** ** Lines *)

Lemma lstrip_head (s : str) :
  Py.lstrip s = [] \/ exists a t, Py.lstrip s = a :: t /\ Py.isspace a = false.
Proof.
  induction s as [|c s IH]; simpl; auto.
  destruct (Py.isspace c) eqn:E; eauto.
Qed.

Lemma lstrip_nil (s : str) : Py.lstrip s = [] <-> blank s = true.
Proof.
  induction s as [|c s IH]; simpl; [tauto|].
  destruct (Py.isspace c); simpl; [exact IH|]. split; discriminate.
Qed.

Lemma rstrip_nil (s : str) : Py.rstrip s = [] <-> blank s = true.
Proof.
  induction s as [|c s IH]; simpl; [tauto|].
  destruct (Py.rstrip s) as [|b r].
  - destruct (Py.isspace c); simpl.
    + split; [intros _; apply IH; reflexivity | reflexivity].
    + split; discriminate.
  - split; [discriminate|]. intros H. apply andb_prop in H.
    destruct H as [_ H]. apply IH in H. discriminate.
Qed.

Lemma rstrip_head (a : ascii) (t : str) :
  Py.isspace a = false -> exists t', Py.rstrip (a :: t) = a :: t'.
Proof.
  intros H. simpl. destruct (Py.rstrip t); rewrite ?H; eauto.
Qed.

Lemma strip_nil (s : str) : Py.strip s = [] <-> blank s = true.
Proof.
  unfold Py.strip. rewrite rstrip_nil.
  destruct (lstrip_head s) as [E | (a & t & E & Ha)].
  - rewrite E. simpl. rewrite <- lstrip_nil. tauto.
  - rewrite E. simpl. rewrite Ha. simpl.
    rewrite <- lstrip_nil, E. split; discriminate.
Qed.

(** The stripped text is empty or starts with a character that is not
    white space. *)
Lemma strip_head (s : str) :
  Py.strip s = [] \/ exists a t, Py.strip s = a :: t /\ Py.isspace a = false.
Proof.
  unfold Py.strip. destruct (lstrip_head s) as [E | (a & t & E & Ha)].
  - rewrite E. auto.
  - rewrite E. destruct (@rstrip_head a t Ha) as [t' E']. eauto.
Qed.

Lemma truthy_strip (l : str) : Py.truthy (Some (Py.strip l)) = negb (blank l).
Proof.
  destruct (Py.strip l) as [|a t] eqn:E; simpl.
  - apply strip_nil in E. rewrite E. reflexivity.
  - destruct (blank l) eqn:B; [|reflexivity].
    apply strip_nil in B. congruence.
Qed.

Lemma split_nl_cons (s : str) : exists l ls, Py.split_nl s = l :: ls.
Proof.
  destruct s as [|c s]; simpl; eauto.
  destruct (Ascii.eqb c "010"); eauto.
  destruct (Py.split_nl s); eauto.
Qed.







(** A prefix without newline is a prefix of the first line. *)
Lemma startswith_first_line (p s : str) :
  no_newline p = true ->
  Py.startswith (hd [] (Py.split_nl s)) p = Py.startswith s p.
Proof.
  revert s. induction p as [|a p IH]; intros s H.
  - destruct s, (hd [] _); reflexivity.
  - simpl in H. apply andb_prop in H. destruct H as [Ha Hp].
    destruct s as [|b s]; [reflexivity|]. simpl Py.split_nl.
    destruct (Ascii.eqb b "010") eqn:E.
    + apply Ascii.eqb_eq in E. subst b. simpl.
      apply negb_true_iff in Ha. rewrite Ha. reflexivity.
    + destruct (split_nl_cons s) as (l & ls & El).
      specialize (IH s Hp). rewrite El in *. simpl in *. rewrite IH.
      reflexivity.
Qed.

(** The marker loop stops only where the line no longer starts with the
    marker: the length of the line is fuel enough. *)
Lemma indent_loop_exit (fuel : nat) :
  forall lvl (line : str),
    List.length line <= fuel ->
    Py.startswith (snd (indent_loop fuel lvl line)) marker = false.
Proof.
  induction fuel as [|fuel IH]; intros lvl line H; simpl.
  - destruct line; [reflexivity | simpl in H; lia].
  - destruct (Py.startswith line marker) eqn:E; [|exact E].
    apply IH. destruct line as [|a [|b [|c [|d line]]]]; simpl in *;
      try discriminate; try lia;
      repeat (rewrite ?andb_false_r in E; try discriminate).
Qed.

Lemma indent_loop_none (fuel : nat) (line : str) :
  Py.startswith line marker = false -> indent_loop fuel 0 line = (0, line).
Proof. intros H. destruct fuel; simpl; rewrite ?H; reflexivity. Qed.

(** ** parse_weka_j48_tree returns, one record per non-blank line *)

Lemma parse_line_total (line : str) :
  (blank line = true /\ parse_line line = Some None)
  \/ (blank line = false
      /\ exists d, parse_line line = Some (Some d) /\ fresh d /\ leaf_ok d
           /\ level d = fst (indent_loop (List.length line) 0 line)).
Proof.
  unfold parse_line. rewrite truthy_strip, negb_involutive.
  destruct (blank line); [left; auto | right; split; [reflexivity|]].
  destruct (indent_loop (List.length line) 0 line) as [lvl rest].
  destruct (leaf_fields_total (Py.strip rest))
    as (txt & pred & inst & err & -> & H).
  cbn [bind]. eexists. split; [reflexivity|].
  split; [repeat split|]. split; [|reflexivity].
  unfold leaf_ok. cbn [prediction instances error]. tauto.
Qed.

Lemma foldM_parse_step (lines : list str) :
  forall acc,
    foldM parse_step lines acc = Some (acc ++ flat_map line_nodes lines).
Proof.
  induction lines as [|l lines IH]; intros acc; simpl.
  - rewrite app_nil_r. reflexivity.
  - unfold parse_step at 1, line_nodes at 1.
    destruct (parse_line_total l) as [[_ ->] | [_ (d & -> & _)]]; cbn [bind].
    + apply IH.
    + rewrite IH, <- app_assoc. reflexivity.
Qed.

Lemma parse_returns (tree_text : str) :
  parse_weka_j48_tree tree_text
  = Some (flat_map line_nodes (Py.split_nl (Py.strip tree_text))).
Proof. unfold parse_weka_j48_tree. apply foldM_parse_step. Qed.


Lemma line_nodes_ok (lines : list str) :
  Forall (fun d => fresh d /\ leaf_ok d) (flat_map line_nodes lines).
Proof.
  induction lines as [|l lines IH]; simpl; [constructor|].
  apply Forall_app. split; [|exact IH]. unfold line_nodes.
  destruct (parse_line_total l) as [[_ ->] | [_ (d & -> & Hf & Hl & _)]];
    auto.
Qed.


Lemma parse_ok (tree_text : str) (recs : list node) :
  parse_weka_j48_tree tree_text = Some recs ->
  Forall (fun d => fresh d /\ leaf_ok d) recs.
Proof. rewrite parse_returns. intros [= <-]. apply line_nodes_ok. Qed.

(** ** build_tree_structure: identifiers and the table *)

Lemma node_name_inj (i j : nat) : node_name i = node_name j -> i = j.
Proof.
  unfold node_name. intros H. simpl in H. injection H as H.
  apply (f_equal string_of_list_ascii) in H.
  rewrite !string_of_list_ascii_of_string in H.
  apply (f_equal NilEmpty.uint_of_string) in H.
  rewrite !NilEmpty.usu in H. injection H as H.
  apply DecimalNat.Unsigned.to_uint_inj. exact H.
Qed.

Lemma str_eqb_eq (a b : str) : str_eqb a b = true <-> a = b.
Proof.
  unfold str_eqb. destruct (list_eq_dec ascii_dec a b); split;
    auto; discriminate.
Qed.

Lemma dict_set_new (d : dict) (key : str) (v : node) :
  ~ In key (map fst d) -> dict_set d key v = d ++ [(key, v)].
Proof.
  induction d as [|[k w] d IH]; simpl; intros H; [reflexivity|].
  destruct (str_eqb k key) eqn:E.
  - apply str_eqb_eq in E. tauto.
  - rewrite IH by tauto. reflexivity.
Qed.

Lemma build_step_dict (st : build_state) (r : node) :
  nodes_dict (build_step st r)
  = dict_set (nodes_dict st) (node_name (node_counter st)) (stored st r).
Proof.
  unfold build_step, stored. cbn [level set_node_id].
  destruct (level r =? 0); [reflexivity|].
  destruct (pop_while (stack st) (level r)) as [|[pid l] rest]; reflexivity.
Qed.

Lemma build_step_counter (st : build_state) (r : node) :
  node_counter (build_step st r) = S (node_counter st).
Proof.
  unfold build_step. cbn [level set_node_id].
  destruct (level r =? 0); reflexivity.
Qed.

Lemma build_loop_snoc (recs : list node) (r : node) :
  build_loop (recs ++ [r]) = build_step (build_loop recs) r.
Proof. unfold build_loop. rewrite fold_left_app. reflexivity. Qed.

Lemma build_counter (recs : list node) :
  node_counter (build_loop recs) = List.length recs.
Proof.
  induction recs as [|r recs IH] using rev_ind; [reflexivity|].
  rewrite build_loop_snoc, build_step_counter, IH, length_app. simpl. lia.
Qed.

Lemma table_snoc_of_keys (recs : list node) (r : node) :
  map fst (nodes_dict (build_loop recs))
  = map node_name (seq 0 (List.length recs)) ->
  nodes_dict (build_loop (recs ++ [r]))
  = nodes_dict (build_loop recs)
      ++ [(node_name (List.length recs), stored (build_loop recs) r)].
Proof.
  intros K. rewrite build_loop_snoc, build_step_dict, build_counter.
  apply dict_set_new. rewrite K. intros H. apply in_map_iff in H.
  destruct H as (j & Hj & Hin). apply node_name_inj in Hj. subst j.
  apply in_seq in Hin. lia.
Qed.

(** The keys of the table are N0, N1, ... in order. *)
Lemma build_keys (recs : list node) :
  map fst (nodes_dict (build_loop recs))
  = map node_name (seq 0 (List.length recs)).
Proof.
  induction recs as [|x recs IH] using rev_ind; [reflexivity|].
  rewrite (table_snoc_of_keys recs x IH).
  rewrite map_app, IH, length_app, seq_app, map_app. reflexivity.
Qed.

(** No round overwrites an entry: each one appends its own. *)
Lemma table_snoc (recs : list node) (r : node) :
  nodes_dict (build_loop (recs ++ [r]))
  = nodes_dict (build_loop recs)
      ++ [(node_name (List.length recs), stored (build_loop recs) r)].
Proof. apply table_snoc_of_keys, build_keys. Qed.

Lemma build_dict_length (recs : list node) :
  List.length (nodes_dict (build_loop recs)) = List.length recs.
Proof.
  rewrite <- (length_map fst), build_keys.
  rewrite length_map, length_seq. reflexivity.
Qed.

(** Entry [i] of the table is what round [i] stored, from the state the
    first [i] records had led to. *)
Lemma table_entry (recs : list node) :
  forall i r,
    nth_error recs i = Some r ->
    nth_error (nodes_dict (build_loop recs)) i
    = Some (node_name i, stored (build_loop (firstn i recs)) r).
Proof.
  induction recs as [|x recs IH] using rev_ind; intros i r H.
  - destruct i; discriminate.
  - rewrite table_snoc.
    destruct (Nat.lt_ge_cases i (List.length recs)) as [Hi | Hi].
    + rewrite nth_error_app1 in H by exact Hi.
      rewrite nth_error_app1 by (rewrite build_dict_length; exact Hi).
      rewrite firstn_app.
      replace (i - List.length recs) with 0 by lia.
      simpl firstn. rewrite app_nil_r. apply IH. exact H.
    + assert (i = List.length recs).
      { assert (L : i < List.length (recs ++ [x]))
          by (apply nth_error_Some; congruence).
        rewrite length_app in L. simpl in L. lia. }
      subst i. rewrite nth_error_app2 in H by lia.
      rewrite Nat.sub_diag in H. injection H as ->.
      rewrite nth_error_app2 by (rewrite build_dict_length; lia).
      rewrite build_dict_length, Nat.sub_diag.
      rewrite firstn_app, Nat.sub_diag, firstn_all. simpl firstn.
      rewrite app_nil_r. reflexivity.
Qed.

Lemma table_lookup (recs : list node) (i : nat) (nid : str) (nd : node) :
  nth_error (nodes_dict (build_loop recs)) i = Some (nid, nd) ->
  exists r,
    nth_error recs i = Some r /\ nid = node_name i
    /\ nd = stored (build_loop (firstn i recs)) r.
Proof.
  intros H.
  assert (L : i < List.length recs).
  { rewrite <- build_dict_length. apply nth_error_Some. congruence. }
  destruct (nth_error recs i) as [r|] eqn:E.
  - rewrite (table_entry recs i E) in H. injection H as <- <-. eauto.
  - apply nth_error_None in E. lia.
Qed.

Lemma stored_fields (st : build_state) (r : node) :
  level (stored st r) = level r /\ text (stored st r) = text r
  /\ prediction (stored st r) = prediction r
  /\ instances (stored st r) = instances r /\ error (stored st r) = error r
  /\ node_id (stored st r) = Some (node_name (node_counter st)).
Proof.
  unfold stored. destruct (level r =? 0); [repeat split|].
  destruct (pop_while (stack st) (level r)) as [|[pid l] rest]; repeat split.
Qed.

Lemma nth_error_prefix (recs : list node) (i k : nat) (r : node) :
  nth_error (firstn i recs) k = Some r <-> k < i /\ nth_error recs k = Some r.
Proof.
  rewrite nth_error_firstn. destruct (k <? i) eqn:E.
  - apply Nat.ltb_lt in E. tauto.
  - apply Nat.ltb_ge in E. split; [discriminate | lia].
Qed.

Lemma build_keys_nodup (recs : list node) :
  NoDup (map fst (nodes_dict (build_loop recs))).
Proof.
  rewrite build_keys. induction (seq_NoDup (List.length recs) 0) as [|i l Hi Hl IH].
  - constructor.
  - simpl. constructor; [|exact IH]. intros H. apply in_map_iff in H.
    destruct H as (j & Hj & Hin). apply node_name_inj in Hj. subst j. auto.
Qed.

Lemma dict_get_nth (d : dict) :
  NoDup (map fst d) ->
  forall i k v, nth_error d i = Some (k, v) -> dict_get d k = Some v.
Proof.
  induction d as [|[k0 w] d IH]; intros Hnd i k v H.
  - destruct i; discriminate.
  - inversion Hnd as [|? ? Hnotin Hnd']; subst. simpl.
    destruct i as [|i]; simpl in H.
    + injection H as -> ->.
      assert (str_eqb k k = true) as -> by (apply str_eqb_eq; reflexivity).
      reflexivity.
    + destruct (str_eqb k0 k) eqn:E.
      * apply str_eqb_eq in E. subst k0. exfalso. apply Hnotin.
        apply nth_error_In in H. apply (in_map fst) in H. exact H.
      * eapply IH; eauto.
Qed.

(** ** build_tree_structure: the stack *)

Lemma build_step_stack (st : build_state) (r : node) :
  stack (build_step st r)
  = if level r =? 0 then [(node_name (node_counter st), 0)]
    else (node_name (node_counter st), level r)
           :: pop_while (stack st) (level r).
Proof.
  unfold build_step. cbn [level set_node_id].
  destruct (level r =? 0); [reflexivity|].
  destruct (pop_while (stack st) (level r)) as [|[pid l] rest]; reflexivity.
Qed.

Lemma build_step_root (st : build_state) (r : node) :
  root_node_id (build_step st r)
  = if level r =? 0 then Some (node_name (node_counter st))
    else root_node_id st.
Proof.
  unfold build_step. cbn [level set_node_id].
  destruct (level r =? 0); reflexivity.
Qed.

(** Popping for a level after popping for a deeper one is popping for the
    level alone. *)
Lemma pop_while_twice (stk : stack_t) (L L0 : nat) :
  L <= L0 -> pop_while (pop_while stk L0) L = pop_while stk L.
Proof.
  intros H. induction stk as [|[id l] stk IH]; [reflexivity|].
  simpl. destruct (L0 <=? l) eqn:E.
  - apply Nat.leb_le in E.
    assert ((L <=? l) = true) as -> by (apply Nat.leb_le; lia). exact IH.
  - reflexivity.
Qed.

Lemma last_shallower_snoc (recs : list node) (x : node) (L : nat) top :
  L <= level x ->
  last_shallower recs L top -> last_shallower (recs ++ [x]) L top.
Proof.
  intros Hx. destruct top as [[id l]|]; simpl.
  - intros (j & r & -> & Hj & Hl & Hlt & Hk).
    exists j, r. repeat split; auto.
    + rewrite nth_error_app1; [exact Hj|].
      apply nth_error_Some. congruence.
    + intros k rk Hjk E.
      destruct (Nat.lt_ge_cases k (List.length recs)) as [Hlen | Hlen].
      * rewrite nth_error_app1 in E by exact Hlen. eauto.
      * rewrite nth_error_app2 in E by exact Hlen.
        destruct (k - List.length recs) as [|[|n]]; simpl in E;
          try discriminate. injection E as <-. exact Hx.
  - intros Hk k rk E.
    destruct (Nat.lt_ge_cases k (List.length recs)) as [Hlen | Hlen].
    + rewrite nth_error_app1 in E by exact Hlen. eauto.
    + rewrite nth_error_app2 in E by exact Hlen.
      destruct (k - List.length recs) as [|[|n]]; simpl in E;
        try discriminate. injection E as <-. exact Hx.
Qed.

Lemma last_shallower_new (recs : list node) (x : node) (L : nat) :
  level x < L ->
  last_shallower (recs ++ [x]) L
    (Some (node_name (List.length recs), level x)).
Proof.
  intros Hx. simpl. exists (List.length recs), x.
  repeat split; auto.
  - rewrite nth_error_app2, Nat.sub_diag by lia. reflexivity.
  - intros k rk Hk E.
    assert (k < List.length (recs ++ [x])) by (apply nth_error_Some; congruence).
    rewrite length_app in *. simpl in *. lia.
Qed.

Lemma stack_invariant (recs : list node) :
  forall L,
    last_shallower recs L
      (hd_error (pop_while (stack (build_loop recs)) L)).
Proof.
  induction recs as [|x recs IH] using rev_ind; intros L.
  - simpl. intros [|k] rk E; discriminate.
  - rewrite build_loop_snoc, build_step_stack, build_counter.
    destruct (level x =? 0) eqn:E0.
    + apply Nat.eqb_eq in E0. simpl.
      destruct (L <=? 0) eqn:EL.
      * apply Nat.leb_le in EL. simpl. intros k rk _. lia.
      * apply Nat.leb_gt in EL. rewrite <- E0.
        apply last_shallower_new. lia.
    + simpl. destruct (L <=? level x) eqn:EL.
      * apply Nat.leb_le in EL. rewrite pop_while_twice by exact EL.
        apply last_shallower_snoc; [exact EL | apply IH].
      * apply Nat.leb_gt in EL. apply last_shallower_new. exact EL.
Qed.

Lemma root_invariant (recs : list node) :
  last_root recs (root_node_id (build_loop recs)).
Proof.
  induction recs as [|x recs IH] using rev_ind.
  - simpl. intros [|k] rk E; discriminate.
  - rewrite build_loop_snoc, build_step_root, build_counter.
    destruct (level x =? 0) eqn:E0.
    + apply Nat.eqb_eq in E0. simpl. exists (List.length recs), x.
      repeat split; auto.
      * rewrite nth_error_app2, Nat.sub_diag by lia. reflexivity.
      * intros k rk Hk E.
        assert (k < List.length (recs ++ [x]))
          by (apply nth_error_Some; congruence).
        rewrite length_app in *. simpl in *. lia.
    + apply Nat.eqb_neq in E0.
      assert (T : forall k rk, List.length recs <= k ->
                    nth_error (recs ++ [x]) k = Some rk -> level rk <> 0).
      { intros k rk Hlen E. rewrite nth_error_app2 in E by exact Hlen.
        destruct (k - List.length recs) as [|[|n]]; simpl in E;
          try discriminate. injection E as <-. exact E0. }
      destruct (root_node_id (build_loop recs)) as [id|]; simpl in *.
      * destruct IH as (j & r & -> & Hj & Hl & Hk). exists j, r.
        repeat split; auto.
        -- rewrite nth_error_app1; [exact Hj|].
           apply nth_error_Some. congruence.
        -- intros k rk Hjk E.
           destruct (Nat.lt_ge_cases k (List.length recs)) as [Hlen | Hlen].
           ++ rewrite nth_error_app1 in E by exact Hlen. eauto.
           ++ eauto.
      * intros k rk E.
        destruct (Nat.lt_ge_cases k (List.length recs)) as [Hlen | Hlen].
        -- rewrite nth_error_app1 in E by exact Hlen. eauto.
        -- eauto.
Qed.

(** ** generate_dot_from_tree: the layout of the output *)

Lemma fold_left_append (A : Type) (f : A -> str) (l : list A) :
  forall acc : str,
    fold_left (fun acc x => acc ++ f x) l acc = acc ++ concat (map f l).
Proof.
  induction l as [|x l IH]; intros acc; simpl.
  - rewrite app_nil_r. reflexivity.
  - rewrite IH, app_assoc. reflexivity.
Qed.

(** Header, the node declarations in table order, the edge declarations
    in table order, footer. *)
Lemma generate_layout (root_id : option str) (tbl : dict) :
  generate_dot_from_tree root_id tbl
  = dot_header ++ concat (map node_declaration tbl)
      ++ concat (map edge_declaration tbl) ++ "}" ++ nl.
Proof.
  unfold generate_dot_from_tree. rewrite !fold_left_append.
  rewrite <- !app_assoc. reflexivity.
Qed.

(** ** More on the lines of the parser *)

Lemma startswith_split (p s : str) :
  Py.startswith s p = true -> s = p ++ skipn (List.length p) s.
Proof.
  revert s. induction p as [|a p IH]; intros s H; [reflexivity|].
  destruct s as [|b s]; [discriminate|]. simpl in H.
  apply andb_prop in H. destruct H as [Hab Hs].
  apply Ascii.eqb_eq in Hab. subst b. simpl. f_equal. apply IH. exact Hs.
Qed.

Lemma indent_loop_markers (fuel : nat) :
  forall lvl (line : str),
    List.length line <= fuel ->
    exists k rest,
      indent_loop fuel lvl line = (lvl + k, rest)
      /\ line = markers k ++ rest /\ Py.startswith rest marker = false.
Proof.
  induction fuel as [|fuel IH]; intros lvl line H; cbn [indent_loop].
  - destruct line; [|simpl in H; lia].
    exists 0, []. rewrite Nat.add_0_r. auto.
  - destruct (Py.startswith line marker) eqn:E.
    + pose proof (startswith_split marker line E) as Hs.
      destruct (IH (S lvl) (skipn 4 line)) as (k & rest & -> & Hk & Hr).
      { assert (L : List.length line = 4 + List.length (skipn 4 line)).
        { rewrite Hs at 1. rewrite length_app. reflexivity. }
        lia. }
      exists (S k), rest. split; [f_equal; lia|]. split; [|exact Hr].
      change (markers (S k)) with (marker ++ markers k).
      rewrite <- app_assoc, <- Hk. exact Hs.
    + exists 0, line. rewrite Nat.add_0_r. auto.
Qed.

Lemma rstrip_idem (s : str) : Py.rstrip (Py.rstrip s) = Py.rstrip s.
Proof.
  induction s as [|c s IH]; [reflexivity|]. simpl.
  destruct (Py.rstrip s) as [|b r] eqn:E.
  - destruct (Py.isspace c) eqn:Hc; [reflexivity|]. simpl. rewrite Hc.
    reflexivity.
  - simpl in IH. simpl. destruct (Py.rstrip r) as [|b' r'] eqn:E'.
    + destruct (Py.isspace b); [discriminate IH|]. rewrite IH. reflexivity.
    + rewrite IH. reflexivity.
Qed.

(** Stripping a stripped text changes nothing. *)
Lemma strip_idem (s : str) : Py.strip (Py.strip s) = Py.strip s.
Proof.
  destruct (strip_head s) as [E | (a & t & E & Ha)].
  - rewrite E. reflexivity.
  - unfold Py.strip at 1. rewrite E. simpl Py.lstrip. rewrite Ha.
    rewrite <- E. unfold Py.strip. apply rstrip_idem.
Qed.

Lemma leaf_fields_trimmed (x txt : str) pred inst err :
  leaf_fields (Py.strip x) = Some (txt, pred, inst, err) ->
  Py.strip txt = txt.
Proof.
  unfold leaf_fields. destruct (re_match leaf_re (Py.strip x)) as [m|].
  - destruct (group m 1) as [g1|]; [|discriminate]. cbn [bind].
    destruct (group m 3) as [g3|]; [|discriminate]. cbn [bind].
    destruct (F64.float_of_str g3); [|discriminate]. cbn [bind].
    destruct (if Py.truthy (group m 4) then _ else _); [|discriminate].
    cbn [bind]. intros [= <- _ _ _]. apply strip_idem.
  - intros [= <- _ _ _]. apply strip_idem.
Qed.

(** What a round of the parser makes of its line. *)
Lemma parse_line_record (line : str) :
  blank line = false ->
  exists d rest,
    parse_line line = Some (Some d)
    /\ line = markers (level d) ++ rest
    /\ Py.startswith rest marker = false
    /\ Py.strip (text d) = text d
    /\ (prediction d = None -> text d = Py.strip rest)
    /\ fresh d /\ leaf_ok d.
Proof.
  intros Hb. unfold parse_line. rewrite truthy_strip, Hb. cbn [negb].
  destruct (indent_loop_markers 0 line (le_n _)) as (k & rest & -> & Hl & Hr).
  destruct (leaf_fields_total (Py.strip rest))
    as (txt & pred & inst & err & E & H).
  rewrite E. cbn [bind]. eexists. exists rest. split; [reflexivity|].
  cbn [level text prediction instances error]. split; [exact Hl|].
  split; [exact Hr|]. split; [eapply leaf_fields_trimmed; exact E|].
  split.
  - intros ->. destruct H as [(_ & _ & _ & ->) | ([H | H] & _)];
      [reflexivity | discriminate H | discriminate H].
  - split; [repeat split|]. unfold leaf_ok.
    cbn [prediction instances error]. tauto.
Qed.

(** ** The leaf recognizer against the leaf shape *)

Lemma star_any_intro (p rest : str) c :
  no_newline p = true -> matches (Star Any) p rest c c.
Proof.
  induction p as [|a p IH]; simpl; intros H; [constructor|].
  apply andb_prop in H. destruct H as [Ha Hp].
  apply negb_true_iff, Ascii.eqb_neq in Ha.
  apply (@m_star_cons Any [a] p rest c c c); auto with re.
Qed.

Lemma matches_star_any p rest c c' :
  matches (Star Any) p rest c c' -> no_newline p = true.
Proof.
  remember (Star Any) as r eqn:E. induction 1; try discriminate.
  - reflexivity.
  - injection E as ->. match goal with H : matches Any _ _ _ _ |- _ =>
      inversion H; subst end.
    simpl. rewrite IHmatches2 by reflexivity.
    match goal with H : _ <> _ |- _ => apply Ascii.eqb_neq in H; rewrite H end.
    reflexivity.
Qed.

Lemma word_intro (w rest : str) c : matches (Word w) w rest c c.
Proof.
  induction w as [|a w IH]; simpl; [constructor|].
  apply (@m_seq (Lit a) (Word w) [a] w rest c c c); auto with re.
Qed.

Lemma leaf_re_sound (t : str) (m : captures) :
  re_match leaf_re t = Some m ->
  exists cond cls inst err,
    group m 1 = Some cond /\ group m 2 = Some cls /\ group m 3 = Some inst
    /\ group m 4 = err /\ leaf_shape cond cls inst err t.
Proof.
  intros H. apply re_match_sound in H. destruct H as (p & rest & -> & H).
  unfold leaf_re, Opt in H.
  repeat match goal with
  | H : matches (Seq _ _) _ _ _ _ |- _ => inversion H; subst; clear H
  | H : matches (Group _ _) _ _ _ _ |- _ => inversion H; subst; clear H
  | H : matches (Lit _) _ _ _ _ |- _ => inversion H; subst; clear H
  | H : matches Eol _ _ _ _ |- _ => inversion H; subst; clear H
  | H : matches Eps _ _ _ _ |- _ => inversion H; subst; clear H
  | H : matches (Star Any) _ _ _ _ |- _ =>
      let H' := fresh in
      assert (H' := matches_groupless H eq_refl); subst;
      apply matches_star_any in H
  | H : matches (Star (Class _)) _ _ _ _ |- _ =>
      let H' := fresh in
      assert (H' := matches_groupless H eq_refl); subst;
      apply matches_star_class in H
  | H : matches number_re _ _ _ _ |- _ =>
      apply matches_number in H; destruct H as [? ?]; subst
  | H : matches (Alt (Seq (Lit "P") _) _) _ _ _ _ |- _ =>
      apply matches_class_label in H; destruct H as [? ?]; subst
  | H : matches (Alt (Seq _ _) Eps) _ _ _ _ |- _ => inversion H; subst; clear H
  end.
  - rewrite <- !app_assoc. cbn [app].
    do 4 eexists. repeat (split; [reflexivity|]).
    unfold leaf_shape. do 3 eexists.
    split; [unfold error_fragment; cbn [app]; reflexivity|].
    repeat split; eauto.
  - rewrite <- !app_assoc. cbn [app].
    do 3 eexists. exists None. repeat (split; [reflexivity|]).
    unfold leaf_shape. do 3 eexists.
    split; [unfold error_fragment; cbn [app]; reflexivity|].
    repeat split; eauto.
Qed.

Lemma leaf_re_complete (cond cls inst : str) err (t : str) :
  leaf_shape cond cls inst err t -> exists m, re_match leaf_re t = Some m.
Proof.
  intros (ws1 & ws2 & tail & -> & Hc & Hw1 & Hcls & Hw2 & Hi & He & Ht).
  replace (cond ++ ":" ++ ws1 ++ cls ++ ws2 ++ "(" ++ inst
             ++ error_fragment err ++ ")" ++ tail)
    with ((cond ++ [":"%char] ++ ws1 ++ cls ++ ws2 ++ ["("%char] ++ inst
             ++ error_fragment err ++ [")"%char] ++ []) ++ tail)
    by (rewrite <- !app_assoc; reflexivity).
  assert (Hopt : forall rest c,
            exists c', matches (Opt (Seq (Lit "/") (Group 4 number_re)))
                         (error_fragment err) rest c c').
  { intros rest c. destruct err as [e|]; simpl.
    - eexists. apply m_alt_l.
      apply (@m_seq (Lit "/") (Group 4 number_re) ["/"%char] e rest c c);
        [constructor | apply m_group, number_intro; exact He].
    - eexists. apply m_alt_r. constructor. }
  assert (Hcl : forall rest c,
            matches (Alt (Word "POS") (Word "NEG")) cls rest c c).
  { intros rest c. destruct Hcls as [-> | ->];
      [apply m_alt_l | apply m_alt_r]; apply word_intro. }
  edestruct Hopt as [c' Ho].
  eapply re_match_complete; [reflexivity|]. unfold leaf_re.
  eapply m_seq; [apply m_group, star_any_intro; exact Hc|].
  eapply m_seq; [apply m_lit|].
  eapply m_seq; [apply star_class_intro; exact Hw1|].
  eapply m_seq; [apply m_group, Hcl|].
  eapply m_seq; [apply star_class_intro; exact Hw2|].
  eapply m_seq; [apply m_lit|].
  eapply m_seq; [apply m_group, number_intro; exact Hi|].
  eapply m_seq; [exact Ho|].
  eapply m_seq; [apply m_lit|].
  apply m_eol. exact Ht.
Qed.

Lemma numeral_chars (p : str) : numeral p -> forallb numeral_char p = true.
Proof.
  intros (d & ip & dot & fp & -> & Hd & Hip & Hdot & Hfp).
  assert (W : forall l, forallb Py.isdecimal l = true ->
                        forallb numeral_char l = true).
  { induction l as [|a l IH]; simpl; [reflexivity|]. intros H.
    apply andb_prop in H. destruct H as [Ha Hl]. unfold numeral_char at 1.
    rewrite Ha, IH by exact Hl. reflexivity. }
  simpl. unfold numeral_char at 1. rewrite Hd. simpl.
  rewrite !forallb_app, (W ip Hip), (W fp Hfp).
  destruct Hdot as [-> | ->]; reflexivity.
Qed.

Lemma space_not_colon (l : str) :
  forallb Py.isspace l = true -> forallb not_colon l = true.
Proof.
  induction l as [|a l IH]; simpl; [reflexivity|]. intros H.
  apply andb_prop in H. destruct H as [Ha Hl]. rewrite IH by exact Hl.
  unfold not_colon. destruct (Ascii.eqb a ":") eqn:E; [|reflexivity].
  apply Ascii.eqb_eq in E. subst a. discriminate Ha.
Qed.

Lemma numeral_not_colon (l : str) :
  forallb numeral_char l = true -> forallb not_colon l = true.
Proof.
  induction l as [|a l IH]; simpl; [reflexivity|]. intros H.
  apply andb_prop in H. destruct H as [Ha Hl]. rewrite IH by exact Hl.
  unfold not_colon. destruct (Ascii.eqb a ":") eqn:E; [|reflexivity].
  apply Ascii.eqb_eq in E. subst a. discriminate Ha.
Qed.

(** A text is cut in one way only at a character that does not occur
    after the cut. *)
Lemma last_cut_unique (c : ascii) (a a' b b' : str) :
  a ++ c :: b = a' ++ c :: b' ->
  forallb (fun x => negb (Ascii.eqb x c)) b = true ->
  forallb (fun x => negb (Ascii.eqb x c)) b' = true ->
  a = a' /\ b = b'.
Proof.
  assert (N : forall (u v : str),
            forallb (fun x => negb (Ascii.eqb x c)) (u ++ c :: v) = true ->
            False).
  { intros u v H. rewrite forallb_app in H. apply andb_prop in H.
    destruct H as [_ H]. simpl in H. rewrite Ascii.eqb_refl in H.
    discriminate H. }
  revert a'. induction a as [|x a IH]; intros [|y a'] E Hb Hb'; simpl in E.
  - injection E as ->. auto.
  - injection E as <- ->. exfalso. eapply N. exact Hb.
  - injection E as -> <-. exfalso. eapply N. exact Hb'.
  - injection E as -> E. destruct (IH _ E Hb Hb') as [-> ->]. auto.
Qed.

Lemma span_cut q (a a' : str) b b' (x x' : str) :
  forallb q a = true -> forallb q a' = true ->
  q b = false -> q b' = false ->
  a ++ b :: x = a' ++ b' :: x' -> a = a' /\ b :: x = b' :: x'.
Proof.
  intros Ha Ha' Hb Hb' E. apply (f_equal (Py.span q)) in E.
  rewrite !span_stop in E by assumption. inversion E. auto.
Qed.

Lemma class_label_cut (cls cls' x x' : str) :
  (cls = ("POS" : str) \/ cls = ("NEG" : str)) ->
  (cls' = ("POS" : str) \/ cls' = ("NEG" : str)) ->
  cls ++ x = cls' ++ x' -> cls = cls' /\ x = x'.
Proof.
  intros [-> | ->] [-> | ->] E; simpl in E; injection E as E;
    try discriminate; auto.
Qed.

(** The pieces of a leaf text are determined by the text: the condition
    is what precedes the last colon. *)
Lemma leaf_shape_unique (t cond cond' cls cls' inst inst' : str) err err' :
  leaf_shape cond cls inst err t -> leaf_shape cond' cls' inst' err' t ->
  cond = cond' /\ cls = cls' /\ inst = inst' /\ err = err'.
Proof.
  intros (ws1 & ws2 & tail & E & _ & Hw1 & Hcls & Hw2 & Hi & He & Ht)
         (ws1' & ws2' & tail' & E' & _ & Hw1' & Hcls' & Hw2' & Hi' & He' & Ht').
  assert (NC : forall w1 k w2 i e tl,
            forallb Py.isspace w1 = true ->
            (k = ("POS" : str) \/ k = ("NEG" : str)) ->
            forallb Py.isspace w2 = true -> numeral i ->
            match e with Some s => numeral s | None => True end ->
            (tl = [] \/ tl = ["010"%char]) ->
            forallb not_colon
              (w1 ++ k ++ w2 ++ "(" ++ i ++ error_fragment e ++ ")" ++ tl)
            = true).
  { intros w1 k w2 i e tl A1 A2 A3 A4 A5 A6.
    rewrite !forallb_app, (space_not_colon w1 A1), (space_not_colon w2 A3).
    rewrite (numeral_not_colon i (numeral_chars A4)).
    assert (forallb not_colon k = true) as ->
      by (destruct A2 as [-> | ->]; reflexivity).
    assert (forallb not_colon (error_fragment e) = true) as ->.
    { destruct e as [s|]; [|reflexivity]. simpl.
      apply numeral_not_colon, numeral_chars. exact A5. }
    destruct A6 as [-> | ->]; reflexivity. }
  rewrite E in E'. cbn [app list_ascii_of_string] in E'.
  apply last_cut_unique in E';
    [| apply (NC ws1 cls ws2 inst err tail); assumption
     | apply (NC ws1' cls' ws2' inst' err' tail'); assumption].
  destruct E' as [-> E']. split; [reflexivity|].
  assert (H1 : ws1 = ws1' /\ cls ++ ws2 ++ "(" ++ inst
                  ++ error_fragment err ++ ")" ++ tail
                = cls' ++ ws2' ++ "(" ++ inst'
                    ++ error_fragment err' ++ ")" ++ tail').
  { destruct Hcls as [-> | ->], Hcls' as [-> | ->];
      cbn [app list_ascii_of_string] in *;
      eapply span_cut; eauto. }
  destruct H1 as [_ H1].
  apply class_label_cut in H1; [|assumption..]. destruct H1 as [-> H1].
  split; [reflexivity|]. cbn [app list_ascii_of_string] in H1.
  apply span_cut with (q := Py.isspace) in H1; [|auto..].
  destruct H1 as [_ H1]. injection H1 as H1.
  pose proof (numeral_chars Hi) as Ci. pose proof (numeral_chars Hi') as Ci'.
  destruct err as [e|], err' as [e'|]; cbn [error_fragment app] in H1.
  - cbn [list_ascii_of_string app] in H1.
    apply span_cut with (q := numeral_char) in H1; [|auto..].
    destruct H1 as [-> H1]. injection H1 as H1.
    apply span_cut with (q := numeral_char) in H1;
      [|auto using numeral_chars..].
    destruct H1 as [-> _]. auto.
  - cbn [list_ascii_of_string app] in H1.
    apply span_cut with (q := numeral_char) in H1; [|auto..].
    destruct H1 as [_ H1]. discriminate H1.
  - cbn [list_ascii_of_string app] in H1.
    apply span_cut with (q := numeral_char) in H1; [|auto..].
    destruct H1 as [_ H1]. discriminate H1.
  - cbn [list_ascii_of_string app] in H1.
    apply span_cut with (q := numeral_char) in H1; [|auto..].
    destruct H1 as [-> _]. auto.
Qed.

(** The recognizer on a content of the leaf shape, and on any other. *)
Lemma leaf_fields_dichotomy (node_text : str) :
  (exists cond cls inst err x e,
      leaf_shape cond cls inst err node_text
      /\ F64.float_of_str inst = Some x
      /\ match err with
         | Some s => F64.float_of_str s = Some e
         | None => e = F64.zero
         end
      /\ leaf_fields node_text = Some (Py.strip cond, Some cls, Some x, Some e))
  \/ ((forall cond cls inst err, ~ leaf_shape cond cls inst err node_text)
      /\ leaf_fields node_text = Some (node_text, None, None, None)).
Proof.
  unfold leaf_fields. destruct (re_match leaf_re node_text) as [m|] eqn:E.
  - left. apply leaf_re_sound in E.
    destruct E as (cond & cls & inst & err & G1 & G2 & G3 & G4 & Hs).
    pose proof Hs as (_ & _ & _ & _ & _ & _ & _ & _ & Hi & He & _).
    destruct (float_of_numeral Hi) as [x Hx].
    rewrite G1, G2, G3, G4. cbn [bind]. rewrite Hx. cbn [bind].
    destruct err as [s|].
    + destruct (float_of_numeral He) as [e Hes].
      assert (Py.truthy (Some s) = true) as ->
        by (destruct He as (? & ? & ? & ? & -> & _); reflexivity).
      cbn [bind]. rewrite Hes. cbn [bind].
      exists cond, cls, inst, (Some s), x, e. auto.
    + cbn [Py.truthy bind].
      exists cond, cls, inst, None, x, F64.zero. auto.
  - right. split; [|reflexivity]. intros cond cls inst err Hs.
    apply leaf_re_complete in Hs. destruct Hs as [m Hm]. congruence.
Qed.

(** ** Where the parent of an entry comes from *)

Lemma firstn_snoc_nth (A : Type) (l : list A) (i : nat) (a : A) :
  nth_error l i = Some a -> firstn (S i) l = firstn i l ++ [a].
Proof.
  revert i. induction l as [|x l IH]; intros [|i] H; try discriminate.
  - injection H as ->. destruct l; reflexivity.
  - simpl in H. change (firstn (S (S i)) (x :: l)) with (x :: firstn (S i) l).
    rewrite (IH i H). reflexivity.
Qed.

(** Where the parent fields of a stored entry come from. *)
Lemma stored_parent (recs : list node) (i : nat) (r : node) :
  nth_error recs i = Some r ->
  let nd := stored (build_loop (firstn i recs)) r in
  (level r <> 0
   /\ exists j rj,
        j < i /\ nth_error recs j = Some rj /\ level rj < level r
        /\ (forall k rk, j < k < i -> nth_error recs k = Some rk ->
                         level r <= level rk)
        /\ parent_node_id nd = Some (node_name j)
        /\ parent_relation nd = Some (text r))
  \/ ((forall k rk, k < i -> nth_error recs k = Some rk -> level r <= level rk)
      /\ parent_node_id nd = parent_node_id r
      /\ parent_relation nd = parent_relation r).
Proof.
  intros Hr nd. subst nd. unfold stored.
  destruct (level r =? 0) eqn:E0.
  - right. apply Nat.eqb_eq in E0. rewrite E0. repeat split; auto. lia.
  - apply Nat.eqb_neq in E0.
    pose proof (stack_invariant (firstn i recs) (level r)) as Hs.
    destruct (pop_while _ _) as [|[pid l] rest]; simpl in Hs.
    + right. split; [|split; reflexivity]. intros k rk Hk Hrk.
      apply (Hs k rk). apply nth_error_prefix. auto.
    + left. split; [exact E0|].
      destruct Hs as (j & rj & -> & Hj & <- & Hlt & Hk).
      apply nth_error_prefix in Hj. destruct Hj as [Hji Hj].
      exists j, rj. repeat split; auto.
      intros k rk [Hjk Hki] Hrk. apply (Hk k rk Hjk).
      apply nth_error_prefix. auto.
Qed.

(** ** The lines of a text *)

Lemma split_nl_app (a b : str) :
  Py.split_nl (a ++ "010"%char :: b) = Py.split_nl a ++ Py.split_nl b.
Proof.
  induction a as [|c a IH]; [reflexivity|]. simpl.
  destruct (Ascii.eqb c "010"); rewrite IH; [reflexivity|].
  destruct (split_nl_cons a) as (l & ls & ->). reflexivity.
Qed.
(** ** Numbers in the output *)

Lemma decimal_value_app (a b : str) :
  decimal_value (a ++ b)
  = fold_left (fun acc c => (10 * acc + (Z.of_nat (nat_of_ascii c) - 48))%Z)
              b (decimal_value a).
Proof. unfold decimal_value. apply fold_left_app. Qed.

Lemma uint_digits (u : Decimal.uint) :
  forallb Py.isdecimal (list_ascii_of_string (NilEmpty.string_of_uint u))
  = true.
Proof. induction u; simpl; auto. Qed.

Lemma uint_acc_value (u : Decimal.uint) :
  forall acc : positive,
    fold_left (fun acc c => (10 * acc + (Z.of_nat (nat_of_ascii c) - 48))%Z)
              (list_ascii_of_string (NilEmpty.string_of_uint u)) (Zpos acc)
    = Zpos (Pos.of_uint_acc u acc).
Proof.
  induction u; intros acc; cbn [NilEmpty.string_of_uint list_ascii_of_string
                                 fold_left Pos.of_uint_acc];
    [reflexivity| |..].
  all: rewrite <- IHu; f_equal; vm_compute nat_of_ascii; lia.
Qed.

Lemma uint_value (u : Decimal.uint) :
  decimal_value (list_ascii_of_string (NilEmpty.string_of_uint u))
  = Z.of_N (Pos.of_uint u).
Proof.
  unfold decimal_value.
  induction u; cbn [NilEmpty.string_of_uint list_ascii_of_string fold_left
                    Pos.of_uint]; [reflexivity | exact IHu |..].
  all: cbn [Z.of_N]; rewrite <- uint_acc_value; f_equal.
Qed.

Lemma dec_digits (z : Z) : forallb Py.isdecimal (F64.dec z) = true.
Proof. apply uint_digits. Qed.

Lemma dec_value (z : Z) : (0 <= z)%Z -> decimal_value (F64.dec z) = z.
Proof.
  intros H. unfold F64.dec. rewrite uint_value.
  change (Pos.of_uint (N.to_uint (Z.to_N z)))
    with (N.of_uint (N.to_uint (Z.to_N z))).
  rewrite DecimalN.Unsigned.of_to. apply Z2N.id. exact H.
Qed.

Lemma dec_nonempty (z : Z) : F64.dec z <> [].
Proof.
  unfold F64.dec. destruct (Z.to_N z) as [|p]; [discriminate|].
  cbn [N.to_uint]. pose proof (DecimalPos.Unsigned.to_uint_nonnil p) as H.
  destruct (Pos.to_uint p); [contradiction | discriminate..].
Qed.

Lemma round_half_even_nearest (n d : Z) :
  (0 <= n)%Z -> (0 < d)%Z ->
  let h := F64.round_half_even n d in
  (0 <= h)%Z
  /\ (2 * Z.abs (h * d - n) <= d)%Z
  /\ ((2 * Z.abs (h * d - n) = d)%Z -> Z.even h = true).
Proof.
  intros Hn Hd h. subst h. unfold F64.round_half_even.
  pose proof (Z.div_mod n d ltac:(lia)) as E.
  pose proof (Z.mod_pos_bound n d Hd) as B.
  assert (Q : (0 <= n / d)%Z) by (apply Z.div_pos; lia).
  set (q := (n / d)%Z) in *. set (r := (n mod d)%Z) in *.
  destruct (Z.compare_spec (2 * r) d) as [C | C | C].
  - destruct (Z.even q) eqn:Ev.
    + split; [lia|]. split; [nia|]. auto.
    + split; [lia|]. split; [nia|]. intros _.
      rewrite Z.even_add, Ev. reflexivity.
  - split; [lia|]. split; [nia|]. intros H. exfalso. nia.
  - split; [lia|]. split; [nia|]. intros H. exfalso. nia.
Qed.

(** The last two digits of a count of hundredths. *)
Lemma two_digits (k : Z) :
  (0 <= k < 100)%Z ->
  let f := F64.dec k in
  let fp := F64.zeros (2 - Z.of_nat (List.length f)) ++ f in
  List.length fp = 2 /\ forallb Py.isdecimal fp = true
  /\ decimal_value fp = k.
Proof.
  intros Hk.
  assert (A : forallb
                (fun n : nat =>
                   let k := Z.of_nat n in
                   let f := F64.dec k in
                   let fp := F64.zeros (2 - Z.of_nat (List.length f)) ++ f in
                   (List.length fp =? 2) && forallb Py.isdecimal fp
                   && (decimal_value fp =? k)%Z)
                (seq 0 100) = true) by (vm_compute; reflexivity).
  rewrite forallb_forall in A. specialize (A (Z.to_nat k)).
  rewrite Z2Nat.id in A by lia.
  assert (I : In (Z.to_nat k) (seq 0 100)) by (apply in_seq; lia).
  apply A in I. cbv zeta in I.
  apply andb_prop in I. destruct I as [I V].
  apply andb_prop in I. destruct I as [L D].
  apply Nat.eqb_eq in L. apply Z.eqb_eq in V. auto.
Qed.

Lemma decimal_value_two (ip fp : str) :
  List.length fp = 2 ->
  decimal_value (ip ++ fp) = (100 * decimal_value ip + decimal_value fp)%Z.
Proof.
  intros L. destruct fp as [|a [|b [|c fp]]]; try discriminate L.
  rewrite decimal_value_app. unfold decimal_value at 3. cbn [fold_left].
  generalize (decimal_value ip). intros v. lia.
Qed.

(** What the [.2f] format writes for zero and for a positive float. *)
Lemma format_2f_two_decimals (x : F64.float) :
  count_value x -> x <> S754_infinity false ->
  exists h, two_decimal_places (F64.format_2f x) h /\ nearest_hundredths x h.
Proof.
  destruct x as [[|]|[|]| |[|] m e]; try contradiction; intros _ Hx;
    try congruence.
  - exists 0%Z. split; [|reflexivity].
    exists ("0" : str), ("00" : str). repeat split; auto. discriminate.
  - unfold F64.format_2f, F64.exact, nearest_hundredths.
    set (n := (Zpos m * 2 ^ Z.max 0 e)%Z). set (d := (2 ^ Z.max 0 (- e))%Z).
    assert (E : (if (0 <=? e)%Z then (Zpos m * 2 ^ e, 1)%Z
                 else (Zpos m, 2 ^ (- e))%Z) = (n, d)).
    { subst n d. destruct (Z.leb_spec 0 e).
      - rewrite Z.max_r by lia. rewrite Z.max_l by lia. reflexivity.
      - rewrite Z.max_l by lia. rewrite Z.max_r by lia.
        rewrite Z.mul_1_r. reflexivity. }
    rewrite E.
    assert (Hd : (0 < d)%Z) by (subst d; apply Z.pow_pos_nonneg; lia).
    assert (Hn : (0 <= 100 * n)%Z).
    { subst n. assert (0 < 2 ^ Z.max 0 e)%Z by (apply Z.pow_pos_nonneg; lia).
      nia. }
    destruct (round_half_even_nearest Hn Hd) as (H0 & H1 & H2).
    set (h := F64.round_half_even (100 * n) d) in *.
    exists h. split.
    + pose proof (Z.mod_pos_bound h 100 ltac:(lia)) as B.
      destruct (two_digits B) as (L & D & V).
      exists (F64.dec (h / 100)),
             (F64.zeros (2 - Z.of_nat (List.length (F64.dec (h mod 100))))
                ++ F64.dec (h mod 100)).
      split; [reflexivity|]. split; [apply dec_nonempty|].
      split; [apply dec_digits|]. split; [exact L|]. split; [exact D|].
      rewrite (@decimal_value_two _ _ L), V.
      rewrite dec_value by (apply Z.div_pos; lia).
      pose proof (Z.div_mod h 100 ltac:(lia)). lia.
    + replace (100 * Zpos m * 2 ^ Z.max 0 e)%Z with (100 * n)%Z
        by (subst n; lia).
      split; assumption.
Qed.

(** ** The floats the parser makes *)

Lemma shr_1_nonneg (mrs : shr_record) :
  (0 <= shr_m mrs)%Z -> (0 <= shr_m (shr_1 mrs))%Z.
Proof.
  destruct mrs as [m r s]. cbn [shr_m]. intros H.
  destruct m as [|p|p]; [simpl; lia | | lia].
  destruct p; simpl; lia.
Qed.

Lemma iter_pos_nonneg (p : positive) :
  forall mrs : shr_record,
    (0 <= shr_m mrs)%Z -> (0 <= shr_m (iter_pos shr_1 p mrs))%Z.
Proof.
  induction p as [p IH | p IH |]; intros mrs H; cbn [iter_pos].
  - apply IH, IH, shr_1_nonneg, H.
  - apply IH, IH, H.
  - apply shr_1_nonneg, H.
Qed.

Lemma shr_fexp_nonneg (prec emax m e : Z) (l : location) :
  (0 <= m)%Z -> (0 <= shr_m (fst (shr_fexp prec emax m e l)))%Z.
Proof.
  intros H. unfold shr_fexp, shr.
  assert (H0 : (0 <= shr_m (shr_record_of_loc m l))%Z)
    by (destruct l as [|[| |]]; exact H).
  destruct (_ - e)%Z as [|p|p]; cbn [fst]; auto.
  apply iter_pos_nonneg, H0.
Qed.

Lemma binary_round_aux_count (prec emax mx ex : Z) (lx : location) :
  (0 <= mx)%Z -> count_value (binary_round_aux prec emax false mx ex lx).
Proof.
  intros H. unfold binary_round_aux.
  pose proof (shr_fexp_nonneg prec emax ex lx H) as H1.
  destruct (shr_fexp prec emax mx ex lx) as [mrs' e']. cbn [fst] in H1.
  assert (H2 : (0 <= round_nearest_even (shr_m mrs')
                       (loc_of_shr_record mrs'))%Z).
  { unfold round_nearest_even.
    destruct (loc_of_shr_record mrs') as [|[| |]]; try lia.
    destruct (Z.even (shr_m mrs')); lia. }
  pose proof (shr_fexp_nonneg prec emax e' loc_Exact H2) as H3.
  destruct (shr_fexp prec emax _ e' loc_Exact) as [mrs'' e''].
  cbn [fst] in H3.
  destruct (shr_m mrs'') as [|p|p]; [exact I | | lia].
  destruct (e'' <=? emax - prec)%Z; exact I.
Qed.

Lemma of_ratio_count (m d : Z) : count_value (F64.of_ratio m d).
Proof.
  unfold F64.of_ratio. destruct m as [|pm|pm]; try exact I.
  destruct d as [|pd|pd]; try exact I.
  unfold SFdiv, SFdiv_core_binary.
  set (e' := Z.min _ _). set (s := (0 - 0 - e')%Z).
  set (m' := match s with Z0 => Zpos pm | Zpos _ => Z.shiftl (Zpos pm) s
             | Zneg _ => 0%Z end).
  assert (Hm : (0 <= m')%Z).
  { subst m'. destruct s; try lia. apply Z.shiftl_nonneg. lia. }
  pose proof (Z.div_pos m' (Zpos pd) Hm ltac:(lia)) as Hq.
  unfold Z.div in Hq.
  destruct (Z.div_eucl m' (Zpos pd)) as [q r]. cbn [fst] in Hq.
  apply binary_round_aux_count. exact Hq.
Qed.

Lemma float_of_str_count (s : str) (x : F64.float) :
  F64.float_of_str s = Some x -> count_value x.
Proof.
  unfold F64.float_of_str, F64.of_decimal.
  destruct (Py.span Py.isdecimal s) as [ip rest].
  destruct rest as [|c fp].
  - destruct ip; [discriminate|]. intros [= <-].
    destruct (0 <=? 0)%Z; apply of_ratio_count.
  - destruct (_ && _); [|discriminate]. intros [= <-].
    destruct (0 <=? _)%Z; apply of_ratio_count.
Qed.

(** ** The characters of a float in the output *)

Lemma forallb_weaken (p q : ascii -> bool) (l : str) :
  (forall c, p c = true -> q c = true) ->
  forallb p l = true -> forallb q l = true.
Proof.
  intros H. induction l as [|c l IH]; simpl; [reflexivity|].
  intros E. apply andb_prop in E. destruct E as [E1 E2].
  rewrite (H c E1), (IH E2). reflexivity.
Qed.

Lemma forallb_firstn (p : ascii -> bool) (n : nat) (l : str) :
  forallb p l = true -> forallb p (firstn n l) = true.
Proof.
  revert n. induction l as [|c l IH]; intros [|n]; simpl; auto.
  intros E. apply andb_prop in E. destruct E as [-> E]. simpl. auto.
Qed.

Lemma forallb_skipn (p : ascii -> bool) (n : nat) (l : str) :
  forallb p l = true -> forallb p (skipn n l) = true.
Proof.
  revert n. induction l as [|c l IH]; intros [|n]; simpl; auto.
  intros E. apply andb_prop in E. destruct E as [_ E]. auto.
Qed.

Lemma digit_float_char (l : str) :
  forallb Py.isdecimal l = true -> forallb float_char l = true.
Proof.
  apply forallb_weaken. intros c H. unfold float_char. rewrite H. reflexivity.
Qed.

Lemma zeros_digits (n : Z) : forallb Py.isdecimal (F64.zeros n) = true.
Proof.
  unfold F64.zeros. induction (Z.to_nat n); simpl; auto.
Qed.

Lemma drop_trailing_zeros_digits (ds : str) :
  forallb Py.isdecimal ds = true ->
  forallb Py.isdecimal (F64.drop_trailing_zeros ds) = true.
Proof.
  induction ds as [|c ds IH]; simpl; [reflexivity|].
  intros E. apply andb_prop in E. destruct E as [Hc E]. specialize (IH E).
  destruct (F64.drop_trailing_zeros ds) as [|b r].
  - destruct (Ascii.eqb c "0"); simpl; [reflexivity|]. rewrite Hc. reflexivity.
  - cbn [forallb] in *. rewrite Hc, IH. reflexivity.
Qed.

Lemma shortest_digits_digits (x : F64.float) (m : positive) (e : Z) :
  forallb Py.isdecimal (fst (F64.shortest_digits x m e)) = true.
Proof.
  unfold F64.shortest_digits. destruct (F64.exact m e) as [n d].
  destruct (F64.shortest_from _ _ _ _ _ _) as [h p]. cbn [fst].
  apply drop_trailing_zeros_digits, dec_digits.
Qed.

Ltac float_chars :=
  repeat (rewrite forallb_app; apply andb_true_intro; split);
  try reflexivity;
  try (apply digit_float_char;
       first [ apply dec_digits | apply zeros_digits
             | apply forallb_firstn; assumption
             | apply forallb_skipn; assumption
             | assumption ]).

(** [repr] writes digits, a point, an exponent, or one of the words inf
    and nan, and never nothing. *)
Lemma repr_chars (x : F64.float) :
  forallb float_char (F64.repr x) = true /\ F64.repr x <> [].
Proof.
  destruct x as [[|]|[|]| |s m e]; try (split; [reflexivity | discriminate]).
  unfold F64.repr.
  pose proof (shortest_digits_digits (S754_finite s m e) m e) as D.
  destruct (F64.shortest_digits _ m e) as [ds decpt]. cbn [fst] in D.
  assert (S : forallb float_char (F64.sign_str s) = true)
    by (destruct s; reflexivity).
  split.
  - rewrite forallb_app, S. cbn [andb].
    destruct (_ || _).
    + destruct (1 <? _)%Z; destruct (_ <? 0)%Z; float_chars.
    + destruct (decpt <=? 0)%Z; [float_chars|].
      destruct (_ <=? decpt)%Z; float_chars.
  - intros E. apply app_eq_nil in E. destruct E as [_ E].
    destruct (_ || _).
    + apply app_eq_nil in E. destruct E as [_ E].
      apply app_eq_nil in E. destruct E as [_ E]. discriminate E.
    + destruct (decpt <=? 0)%Z; [discriminate E|].
      destruct (_ <=? decpt)%Z.
      * apply app_eq_nil in E. destruct E as [_ E].
        apply app_eq_nil in E. destruct E as [_ E]. discriminate E.
      * apply app_eq_nil in E. destruct E as [_ E]. discriminate E.
Qed.



(** ** Records that stay within their line *)

Lemma split_nl_no_newline (s : str) :
  Forall (fun l => no_newline l = true) (Py.split_nl s).
Proof.
  induction s as [|c s IH]; simpl; [repeat constructor|].
  destruct (Ascii.eqb c "010") eqn:E; [constructor; auto|].
  destruct (Py.split_nl s) as [|l ls]; [repeat constructor; simpl; rewrite E; reflexivity|].
  inversion IH; subst. constructor; [|assumption].
  simpl. rewrite E. assumption.
Qed.

Lemma forallb_lstrip (p : ascii -> bool) (s : str) :
  forallb p s = true -> forallb p (Py.lstrip s) = true.
Proof.
  induction s as [|c s IH]; simpl; [reflexivity|]. intros E.
  destruct (Py.isspace c); [|exact E].
  apply andb_prop in E. destruct E as [_ E]. auto.
Qed.

Lemma forallb_rstrip (p : ascii -> bool) (s : str) :
  forallb p s = true -> forallb p (Py.rstrip s) = true.
Proof.
  induction s as [|c s IH]; simpl; [reflexivity|]. intros E.
  apply andb_prop in E. destruct E as [Hc E]. specialize (IH E).
  destruct (Py.rstrip s) as [|b r].
  - destruct (Py.isspace c); simpl; [reflexivity|]. rewrite Hc. reflexivity.
  - cbn [forallb] in *. rewrite Hc, IH. reflexivity.
Qed.

Lemma forallb_strip (p : ascii -> bool) (s : str) :
  forallb p s = true -> forallb p (Py.strip s) = true.
Proof. intros H. apply forallb_rstrip, forallb_lstrip, H. Qed.

(** What the parser makes of a line stays within the line, and its counts
    are numbers. *)
Lemma parse_line_printable (line : str) (d : node) :
  no_newline line = true -> parse_line line = Some (Some d) -> printable d.
Proof.
  intros Hn. unfold parse_line.
  destruct (negb _); [discriminate|].
  destruct (indent_loop_markers 0 line (le_n _)) as (k & rest & -> & Hl & _).
  assert (Hr : no_newline (Py.strip rest) = true).
  { apply forallb_strip. rewrite Hl in Hn. unfold no_newline in Hn.
    rewrite forallb_app in Hn. apply andb_prop in Hn. tauto. }
  destruct (leaf_fields_dichotomy (Py.strip rest))
    as [(cond & cls & inst & err & x & e & Hs & Hx & He & ->) | [_ ->]];
    cbn [bind]; intros [= <-]; unfold printable;
    cbn [text instances error].
  - destruct Hs as (_ & _ & _ & _ & Hc & _).
    split; [apply forallb_strip, Hc|].
    split.
    + intros ? [= <-]. eapply float_of_str_count, Hx.
    + intros ? [= <-]. destruct err as [s|].
      * eapply float_of_str_count, He.
      * subst e. exact I.
  - split; [exact Hr|]. split; discriminate.
Qed.

Lemma line_nodes_printable (lines : list str) :
  Forall (fun l => no_newline l = true) lines ->
  Forall printable (flat_map line_nodes lines).
Proof.
  induction 1 as [|l lines Hl _ IH]; simpl; [constructor|].
  apply Forall_app. split; [|exact IH]. unfold line_nodes.
  destruct (parse_line l) as [[d|]|] eqn:E; try constructor; [|constructor].
  eapply parse_line_printable; eauto.
Qed.

Lemma parse_printable (tree_text : str) (recs : list node) :
  parse_weka_j48_tree tree_text = Some recs -> Forall printable recs.
Proof.
  rewrite parse_returns. intros [= <-].
  apply line_nodes_printable, split_nl_no_newline.
Qed.

(** ** The lines of the output *)








(** What the first loop writes for an entry the builder has stored. *)
Lemma node_declaration_stored (st : build_state) (r : node) (nid : str) :
  leaf_ok r -> printable r ->
  match prediction r with
  | Some cls =>
      (cls = ("POS" : str) \/ cls = ("NEG" : str))
      /\ exists x e,
           instances r = Some x /\ error r = Some e
           /\ count_value x /\ count_value e
           /\ node_declaration (nid, stored st r)
              = "  " ++ nid ++ " [label=" ++ quote ++ cls ++ " ("
                  ++ F64.repr x ++ "/" ++ F64.format_2f e ++ ")" ++ quote
                  ++ ", fillcolor=lightblue];" ++ nl
  | None =>
      exists label,
        node_declaration (nid, stored st r)
        = "  " ++ nid ++ " [label=" ++ quote ++ label ++ quote ++ "];" ++ nl
        /\ (condition_shape label (text r)
            \/ ((forall name, ~ condition_shape name (text r))
                /\ label = text r))
  end.
Proof.
  intros Hleaf (_ & Hx & He).
  destruct (stored_fields st r) as (_ & Ht & Hpr & Hin & Her & _).
  unfold node_declaration. rewrite Hpr, Hin, Her, Ht.
  destruct Hleaf as [(P & _ & _) | (P & (x & X) & (e & E))].
  - rewrite P. cbn [Py.truthy].
    pose proof (feature_re_spec (text r)) as Hf.
    destruct (re_match feature_re (text r)) as [m|].
    + destruct Hf as (name & -> & Hs). exists name. auto.
    + exists (text r). auto.
  - rewrite X, E.
    destruct P as [-> | ->]; (split; [auto|]); exists x, e;
      (split; [reflexivity|]); (split; [reflexivity|]);
      (split; [apply Hx, X|]); (split; [apply He, E|]);
      cbn [Py.truthy show_str show_float list_ascii_of_string];
      rewrite <- !app_assoc; reflexivity.
Qed.







(** ** The claims *)

(** *** C1: the parent is the nearest preceding shallower node *)

(** C1.  For every input text and every node of the reconstructed table
    that is not at depth 0: if the node has a parent, the parent is an
    earlier entry of the table (the table is in input-line order), its
    depth is strictly less than the node's, and every entry between the
    two is at least as deep as the node. *)
Theorem parent_is_nearest_shallower (tree_text : str) :
  exists recs,
    parse_weka_j48_tree tree_text = Some recs
    /\ let tbl := snd (build_tree_structure recs) in
       map (fun it => level (snd it)) tbl = map level recs
       /\ forall i nid nd pid,
            nth_error tbl i = Some (nid, nd) ->
            level nd <> 0 ->
            parent_node_id nd = Some pid ->
            exists j pd,
              j < i /\ nth_error tbl j = Some (pid, pd)
              /\ level pd < level nd
              /\ forall k kid kd,
                   j < k < i -> nth_error tbl k = Some (kid, kd) ->
                   level nd <= level kd.
Proof.
  exists (flat_map line_nodes (Py.split_nl (Py.strip tree_text))).
  split; [apply parse_returns|].
  pose proof (parse_ok tree_text (parse_returns tree_text)) as Hok.
  set (recs := flat_map line_nodes _) in *. cbn [build_tree_structure snd].
  split.
  - apply nth_error_ext. intros i. rewrite !nth_error_map.
    destruct (nth_error recs i) as [r|] eqn:E.
    + rewrite (table_entry recs i E). simpl.
      rewrite (proj1 (stored_fields _ r)). reflexivity.
    + apply nth_error_None in E. rewrite <- build_dict_length in E.
      apply nth_error_None in E. rewrite E. reflexivity.
  - intros i nid nd pid Hi Hlvl Hpar.
    apply table_lookup in Hi. destruct Hi as (r & Hr & -> & ->).
    destruct (stored_fields (build_loop (firstn i recs)) r) as (Hl & _).
    rewrite Hl in *.
    assert (Hfresh : parent_node_id r = None).
    { rewrite Forall_forall in Hok. apply nth_error_In in Hr.
      apply Hok in Hr. destruct Hr as [(H & _) _]. exact H. }
    pose proof (stack_invariant (firstn i recs) (level r)) as Hs.
    unfold stored in Hpar. apply Nat.eqb_neq in Hlvl. rewrite Hlvl in Hpar.
    destruct (pop_while _ _) as [|[parent_id l] rest];
      [simpl in Hpar; congruence|].
    simpl in Hpar. injection Hpar as ->. simpl in Hs.
    destruct Hs as (j & rj & -> & Hj & <- & Hlt & Hk).
    apply nth_error_prefix in Hj. destruct Hj as [Hji Hj].
    exists j, (stored (build_loop (firstn j recs)) rj).
    split; [exact Hji|]. split; [apply table_entry; exact Hj|].
    split; [rewrite (proj1 (stored_fields _ rj)); exact Hlt|].
    intros k kid kd [Hjk Hki] Hkd.
    apply table_lookup in Hkd. destruct Hkd as (rk & Hrk & -> & ->).
    rewrite (proj1 (stored_fields _ rk)). apply (Hk k rk Hjk).
    apply nth_error_prefix. auto.
Qed.

(** C1 at the two-line input: N1, at depth 1, has the parent N0. *)
Lemma parent_is_nearest_shallower_witness :
  exists recs nd,
    parse_weka_j48_tree two_line_text = Some recs
    /\ nth_error (snd (build_tree_structure recs)) 1 = Some (node_name 1, nd)
    /\ level nd <> 0
    /\ parent_node_id nd = Some (node_name 0)
    /\ exists j pd,
         j < 1
         /\ nth_error (snd (build_tree_structure recs)) j
            = Some (node_name 0, pd)
         /\ level pd < level nd.
Proof.
  destruct (parent_is_nearest_shallower two_line_text) as (recs & Hp & _ & H).
  pose proof Hp as Hq. vm_compute in Hq. injection Hq as <-.
  eexists. eexists. split; [exact Hp|].
  split; [reflexivity|]. split; [discriminate|]. split; [reflexivity|].
  destruct (H 1 _ _ _ eq_refl (fun E => O_S _ (eq_sym E)) eq_refl)
    as (j & pd & Hj & Hpd & Hl & _).
  exists j, pd. auto.
Defined.

(** *** C2: the root identifier that is returned *)

(** C2, counterexample.  On two depth-0 lines the function returns the
    identifier of the second one only: N0 is a depth-0 entry of the table
    and is not in what is returned. *)
Lemma all_roots_returned_fails :
  ~ all_roots_returned ("A <= 0" ++ nl ++ "A > 0").
Proof.
  intros (recs & Hp & H). vm_compute in Hp. injection Hp as <-.
  vm_compute in H. destruct H as [_ H].
  specialize (H _ _ (or_introl eq_refl) eq_refl).
  destruct H as [H | []]. discriminate H.
Qed.

(** C2, amended.  Besides the table, the function returns one optional
    root identifier: that of the last depth-0 entry of the table, and none
    when the table has no depth-0 entry.  Every depth-0 record, returned or
    not, stays in the table: at the position of its line, under its own
    key, with its depth and condition text, and without parent.  The
    returned identifier is the key of one entry only. *)
Theorem last_root_returned (tree_text : str) :
  exists recs,
    parse_weka_j48_tree tree_text = Some recs
    /\ let (root, tbl) := build_tree_structure recs in
       List.length tbl = List.length recs
       /\ (forall k r,
             nth_error recs k = Some r -> level r = 0 ->
             exists nd,
               nth_error tbl k = Some (node_name k, nd)
               /\ dict_get tbl (node_name k) = Some nd
               /\ level nd = 0 /\ text nd = text r
               /\ parent_node_id nd = None /\ parent_relation nd = None)
       /\ match root with
          | Some id =>
              exists j nd,
                id = node_name j
                /\ nth_error tbl j = Some (id, nd) /\ level nd = 0
                /\ (forall k kid kd,
                      j < k -> nth_error tbl k = Some (kid, kd) ->
                      level kd <> 0)
                /\ forall k kid kd,
                     k <> j -> nth_error tbl k = Some (kid, kd) -> kid <> id
          | None =>
              forall k kid kd, nth_error tbl k = Some (kid, kd) -> level kd <> 0
          end.
Proof.
  exists (flat_map line_nodes (Py.split_nl (Py.strip tree_text))).
  split; [apply parse_returns|].
  pose proof (parse_ok tree_text (parse_returns tree_text)) as Hok.
  set (recs := flat_map line_nodes _) in *. cbn [build_tree_structure].
  split; [apply build_dict_length|]. split.
  { intros k r Hk Hl.
    exists (stored (build_loop (firstn k recs)) r).
    pose proof (table_entry recs k Hk) as T.
    destruct (stored_fields (build_loop (firstn k recs)) r) as (L & X & _).
    assert (F : fresh r).
    { rewrite Forall_forall in Hok. apply nth_error_In in Hk.
      apply Hok in Hk. tauto. }
    destruct F as (F1 & F2 & _).
    split; [exact T|].
    split; [eapply dict_get_nth; [apply build_keys_nodup | exact T]|].
    split; [congruence|]. split; [exact X|].
    unfold stored. rewrite Hl. simpl. auto. }
  pose proof (root_invariant recs) as H.
  destruct (root_node_id (build_loop recs)) as [id|]; simpl in H.
  - destruct H as (j & r & -> & Hj & Hl & Hk).
    exists j, (stored (build_loop (firstn j recs)) r).
    split; [reflexivity|].
    split; [apply table_entry; exact Hj|].
    split; [rewrite (proj1 (stored_fields _ r)); exact Hl|].
    split.
    + intros k kid kd Hjk Hkd.
      apply table_lookup in Hkd. destruct Hkd as (rk & Hrk & -> & ->).
      rewrite (proj1 (stored_fields _ rk)). eauto.
    + intros k kid kd Hne Hkd E.
      apply table_lookup in Hkd. destruct Hkd as (rk & Hrk & -> & ->).
      apply node_name_inj in E. contradiction.
  - intros k kid kd Hkd.
    apply table_lookup in Hkd. destruct Hkd as (rk & Hrk & -> & ->).
    rewrite (proj1 (stored_fields _ rk)). eauto.
Qed.

(** *** C3: a forest of roots *)

(** C3.  For every input text and any two different records at depth 0
    (the records of two depth-0 lines): the table has an entry for each, at
    the position of its line and under its own identifier; the two
    identifiers differ, neither entry has a parent, each still carries the
    condition of its line, and looking either identifier up in the table
    finds that entry.  The table has as many entries as there are
    records. *)
Theorem two_roots_kept (tree_text : str) :
  exists recs,
    parse_weka_j48_tree tree_text = Some recs
    /\ let tbl := snd (build_tree_structure recs) in
       List.length tbl = List.length recs
       /\ forall i j ri rj,
            i <> j ->
            nth_error recs i = Some ri -> level ri = 0 ->
            nth_error recs j = Some rj -> level rj = 0 ->
            exists ni nj,
              nth_error tbl i = Some (node_name i, ni)
              /\ nth_error tbl j = Some (node_name j, nj)
              /\ node_name i <> node_name j
              /\ dict_get tbl (node_name i) = Some ni
              /\ dict_get tbl (node_name j) = Some nj
              /\ parent_node_id ni = None /\ parent_node_id nj = None
              /\ level ni = 0 /\ level nj = 0
              /\ text ni = text ri /\ text nj = text rj.
Proof.
  exists (flat_map line_nodes (Py.split_nl (Py.strip tree_text))).
  split; [apply parse_returns|].
  pose proof (parse_ok tree_text (parse_returns tree_text)) as Hok.
  set (recs := flat_map line_nodes _) in *. cbn [build_tree_structure snd].
  split; [apply build_dict_length|].
  intros i j ri rj Hij Hi Hli Hj Hlj.
  assert (P : forall k r, nth_error recs k = Some r -> level r = 0 ->
            parent_node_id (stored (build_loop (firstn k recs)) r) = None).
  { intros k r Hk Hl. unfold stored. rewrite Hl. simpl.
    rewrite Forall_forall in Hok. apply nth_error_In in Hk.
    apply Hok in Hk. destruct Hk as [(H & _) _]. exact H. }
  exists (stored (build_loop (firstn i recs)) ri),
         (stored (build_loop (firstn j recs)) rj).
  pose proof (table_entry recs i Hi) as Ti.
  pose proof (table_entry recs j Hj) as Tj.
  destruct (stored_fields (build_loop (firstn i recs)) ri) as (Li & Xi & _).
  destruct (stored_fields (build_loop (firstn j recs)) rj) as (Lj & Xj & _).
  repeat split; auto; try congruence.
  - intros H. apply node_name_inj in H. contradiction.
  - eapply dict_get_nth; [apply build_keys_nodup | exact Ti].
  - eapply dict_get_nth; [apply build_keys_nodup | exact Tj].
Qed.

(** C3 at an input with two depth-0 lines: N0 and N1 are both kept,
    without a parent. *)
Lemma two_roots_kept_witness :
  exists recs r0 r1 n0 n1,
    parse_weka_j48_tree forest_text = Some recs
    /\ nth_error recs 0 = Some r0 /\ level r0 = 0
    /\ nth_error recs 1 = Some r1 /\ level r1 = 0
    /\ nth_error (snd (build_tree_structure recs)) 0 = Some (node_name 0, n0)
    /\ nth_error (snd (build_tree_structure recs)) 1 = Some (node_name 1, n1)
    /\ node_name 0 <> node_name 1
    /\ parent_node_id n0 = None /\ parent_node_id n1 = None.
Proof.
  destruct (two_roots_kept forest_text) as (recs & Hp & _ & H).
  pose proof Hp as Hq. vm_compute in Hq. injection Hq as <-.
  destruct (H 0 1 _ _ (O_S 0) eq_refl eq_refl eq_refl eq_refl)
    as (n0 & n1 & H0 & H1 & Hne & _ & _ & P0 & P1 & _).
  do 5 eexists. split; [exact Hp|].
  split; [reflexivity|]. split; [reflexivity|].
  split; [reflexivity|]. split; [reflexivity|].
  split; [exact H0|]. split; [exact H1|]. auto.
Defined.

(** *** C4: the two leaf forms *)

(** C4.  The leaf recognizer turns the content f <= 1: NEG (30.07/14.97)
    into the condition f <= 1, the class NEG, the instance count 30.07 and
    the error count 14.97 (the doubles nearest to 3007/100 and 1497/100,
    which print as 30.07 and 14.97), and the content g > 2: POS (15.7),
    where the error fragment is absent (group 4 is unset), into the
    condition g > 2, the class POS, the instance count 15.7 and the error
    count 0.0.  The parser makes of each such line one record with these
    fields at depth 0. *)
Theorem leaf_forms_recognized :
  leaf_fields "f <= 1: NEG (30.07/14.97)"
  = Some (("f <= 1" : str), Some ("NEG" : str),
          Some (F64.of_ratio 3007 100), Some (F64.of_ratio 1497 100))
  /\ parse_weka_j48_tree "f <= 1: NEG (30.07/14.97)"
     = Some [ mk_node 0 "f <= 1" (Some ("NEG" : str))
                (Some (F64.of_ratio 3007 100)) (Some (F64.of_ratio 1497 100))
                None None None ]
  /\ leaf_fields "g > 2: POS (15.7)"
     = Some (("g > 2" : str), Some ("POS" : str),
             Some (F64.of_ratio 157 10), Some F64.zero)
  /\ parse_weka_j48_tree "g > 2: POS (15.7)"
     = Some [ mk_node 0 "g > 2" (Some ("POS" : str))
                (Some (F64.of_ratio 157 10)) (Some F64.zero)
                None None None ]
  /\ option_map (fun m => group m 4) (re_match leaf_re "g > 2: POS (15.7)")
     = Some None
  /\ F64.repr (F64.of_ratio 3007 100) = "30.07"
  /\ F64.repr (F64.of_ratio 1497 100) = "14.97"
  /\ F64.repr (F64.of_ratio 157 10) = "15.7"
  /\ F64.repr F64.zero = "0.0".
Proof. repeat split; vm_compute; reflexivity. Qed.

(** *** C5: the labels of the node declarations *)

(** C5, counterexample.  An error count beyond the range of binary64 is
    read as infinity, and the [.2f] format writes infinity as inf: the
    label of the leaf is POS (1.0/inf), with no decimal places. *)
Lemma leaf_labels_two_decimals_fails :
  ~ leaf_labels_two_decimals huge_error_text.
Proof.
  intros H.
  assert (Hp : exists recs, parse_weka_j48_tree huge_error_text = Some recs)
    by (eexists; apply parse_returns).
  destruct Hp as [recs Hp]. specialize (H recs).
  pose proof Hp as Hq. vm_compute in Hq. injection Hq as <-.
  specialize (H _ _ _ Hp (or_introl eq_refl) eq_refl).
  destruct H as (inst & err & h & E & ip & fp & -> & _ & _ & L & _).
  vm_compute in E. injection E as E.
  destruct fp as [|a [|b [|c fp]]]; try discriminate L.
  assert (R : rev ("1.0/inf" : str)
              = rev (inst ++ "/" ++ ip ++ "." ++ [a; b])).
  { f_equal.
    apply (app_inv_tail (")" ++ quote ++ ", fillcolor=lightblue];" ++ nl)).
    rewrite <- (app_assoc inst). exact E. }
  rewrite !rev_app_distr in R. simpl in R. discriminate R.
Qed.

(** C5, amended.  For every input text the pipeline emits one node
    declaration per entry of the table.  For a leaf (an entry with a
    prediction class) the declaration is the identifier, the label in
    quotes and the fill attribute lightblue; the label is the class, POS
    or NEG, and in brackets the instance count as [repr] writes it, a
    slash and the error count: with two decimal places, that many
    hundredths being nearest to the count, or the word inf for a count
    beyond the range of binary64.  For an internal node the declaration
    has no fill attribute, and its label is the name when the condition
    text has the shape name, comparator, threshold, and the condition text
    itself when it has not. *)
Theorem node_labels (tree_text : str) :
  exists recs root tbl,
    parse_weka_j48_tree tree_text = Some recs
    /\ build_tree_structure recs = (root, tbl)
    /\ pipeline tree_text
       = Some (dot_header ++ concat (map node_declaration tbl)
                 ++ concat (map edge_declaration tbl) ++ "}" ++ nl)
    /\ forall nid nd,
         In (nid, nd) tbl ->
         match prediction nd with
         | Some cls =>
             (cls = ("POS" : str) \/ cls = ("NEG" : str))
             /\ exists x e err,
                  instances nd = Some x /\ error nd = Some e
                  /\ node_declaration (nid, nd)
                     = "  " ++ nid ++ " [label=" ++ quote ++ cls ++ " ("
                         ++ F64.repr x ++ "/" ++ err ++ ")" ++ quote
                         ++ ", fillcolor=lightblue];" ++ nl
                  /\ F64.repr x <> []
                  /\ forallb float_char (F64.repr x) = true
                  /\ match e with
                     | S754_infinity _ => err = ("inf" : str)
                     | _ =>
                         exists h,
                           two_decimal_places err h /\ nearest_hundredths e h
                     end
         | None =>
             exists label,
               node_declaration (nid, nd)
               = "  " ++ nid ++ " [label=" ++ quote ++ label ++ quote
                   ++ "];" ++ nl
               /\ (condition_shape label (text nd)
                   \/ ((forall name, ~ condition_shape name (text nd))
                       /\ label = text nd))
         end.
Proof.
  pose proof (parse_returns tree_text) as Hp.
  pose proof (parse_ok tree_text Hp) as Hok.
  pose proof (parse_printable tree_text Hp) as Hpr.
  set (recs := flat_map line_nodes _) in *.
  exists recs, (root_node_id (build_loop recs)), (nodes_dict (build_loop recs)).
  split; [exact Hp|]. split; [reflexivity|]. split.
  { unfold pipeline. rewrite Hp. cbn [bind build_tree_structure].
    rewrite generate_layout. reflexivity. }
  intros nid nd Hin. apply In_nth_error in Hin. destruct Hin as [i Hi].
  apply table_lookup in Hi. destruct Hi as (r & Hr & -> & ->).
  rewrite Forall_forall in Hok, Hpr. apply nth_error_In in Hr.
  pose proof (node_declaration_stored (build_loop (firstn i recs))
                (node_name i) (proj2 (Hok r Hr)) (Hpr r Hr)) as H.
  destruct (stored_fields (build_loop (firstn i recs)) r)
    as (_ & Ht & Hpd & Hin & Her & _).
  rewrite Hpd, Hin, Her, Ht.
  destruct (prediction r) as [cls|]; [|exact H].
  destruct H as (Hc & x & e & X & E & Cx & Ce & D).
  split; [exact Hc|]. exists x, e, (F64.format_2f e).
  split; [exact X|]. split; [exact E|]. split; [exact D|].
  split; [apply repr_chars|]. split; [apply repr_chars|].
  destruct e as [[|]|[|]| |[|] m ex]; try contradiction; try reflexivity;
    apply format_2f_two_decimals; try exact I; discriminate.
Qed.

(** *** C6: one node declaration per non-blank line *)


(** *** C7: orphans *)

(** C7.  For every input text the parser and the reconstruction return,
    with one table entry per record.  For every record at a depth other
    than 0 whose round finds the stack empty after popping, the entry is
    kept at the record's position under its own identifier, with no parent
    and no incoming edge label, the record's depth and condition
    unchanged, and the emitter declares no edge for it. *)
Theorem orphan_is_kept (tree_text : str) :
  exists recs root tbl,
    parse_weka_j48_tree tree_text = Some recs
    /\ build_tree_structure recs = (root, tbl)
    /\ List.length tbl = List.length recs
    /\ forall i r,
         nth_error recs i = Some r ->
         level r <> 0 ->
         pop_while (stack (build_loop (firstn i recs))) (level r) = [] ->
         exists nd,
           nth_error tbl i = Some (node_name i, nd)
           /\ parent_node_id nd = None /\ parent_relation nd = None
           /\ level nd = level r /\ text nd = text r
           /\ edge_declaration (node_name i, nd) = [].
Proof.
  pose proof (parse_returns tree_text) as Hp.
  pose proof (parse_ok tree_text Hp) as Hok.
  set (recs := flat_map line_nodes _) in *.
  exists recs, (root_node_id (build_loop recs)), (nodes_dict (build_loop recs)).
  split; [exact Hp|]. split; [reflexivity|].
  split; [apply build_dict_length|].
  intros i r Hr Hlvl Hpop.
  exists (stored (build_loop (firstn i recs)) r).
  split; [apply table_entry; exact Hr|].
  assert (Hfresh : fresh r).
  { rewrite Forall_forall in Hok. apply nth_error_In in Hr.
    apply Hok in Hr. tauto. }
  destruct Hfresh as (F1 & F2 & _).
  unfold stored. apply Nat.eqb_neq in Hlvl. rewrite Hlvl, Hpop.
  unfold edge_declaration. simpl. rewrite F1, F2. auto.
Qed.

(** C7 at an input whose first line is one level deep: the stack is
    empty, and N0 is stored without a parent. *)
Lemma orphan_is_kept_witness :
  exists recs r nd,
    parse_weka_j48_tree orphan_text = Some recs
    /\ nth_error recs 0 = Some r
    /\ level r <> 0
    /\ pop_while (stack (build_loop (firstn 0 recs))) (level r) = []
    /\ nth_error (snd (build_tree_structure recs)) 0 = Some (node_name 0, nd)
    /\ parent_node_id nd = None /\ parent_relation nd = None.
Proof.
  destruct (orphan_is_kept orphan_text) as (recs & root & tbl & Hp & Hb & _ & H).
  pose proof Hp as Hq. vm_compute in Hq. injection Hq as <-.
  destruct (H 0 _ eq_refl (fun E => O_S _ (eq_sym E)) eq_refl)
    as (nd & H0 & P & Q & _).
  do 3 eexists. split; [exact Hp|].
  split; [reflexivity|]. split; [discriminate|]. split; [reflexivity|].
  split; [|split; [exact P | exact Q]].
  rewrite Hb. exact H0.
Defined.

(** *** C8: the edge label mirrors the condition *)

(** C8.  For every input text and every entry of the reconstructed
    table: the incoming edge label is absent exactly when the parent is,
    and a label that is present is the entry's own condition text. *)
Theorem edge_label_is_own_condition (tree_text : str) :
  exists recs,
    parse_weka_j48_tree tree_text = Some recs
    /\ forall nid nd,
         In (nid, nd) (snd (build_tree_structure recs)) ->
         (parent_relation nd = None <-> parent_node_id nd = None)
         /\ forall lbl, parent_relation nd = Some lbl -> lbl = text nd.
Proof.
  pose proof (parse_returns tree_text) as Hp.
  pose proof (parse_ok tree_text Hp) as Hok.
  set (recs := flat_map line_nodes _) in *.
  exists recs. split; [exact Hp|]. cbn [build_tree_structure snd].
  intros nid nd Hin. apply In_nth_error in Hin. destruct Hin as [i Hi].
  apply table_lookup in Hi. destruct Hi as (r & Hr & -> & ->).
  assert (Hfresh : fresh r).
  { rewrite Forall_forall in Hok. apply nth_error_In in Hr.
    apply Hok in Hr. tauto. }
  destruct Hfresh as (F1 & F2 & _).
  unfold stored. destruct (level r =? 0).
  - simpl. rewrite F1, F2. split; [tauto | discriminate].
  - destruct (pop_while _ _) as [|[pid l] rest]; simpl.
    + rewrite F1, F2. split; [tauto | discriminate].
    + split; [split; discriminate|]. intros lbl [= <-]. reflexivity.
Qed.

(** C8 at the two-line input: the edge into N1 carries the condition
    of N1. *)
Lemma edge_label_is_own_condition_witness :
  exists recs nd,
    parse_weka_j48_tree two_line_text = Some recs
    /\ In (node_name 1, nd) (snd (build_tree_structure recs))
    /\ parent_node_id nd = Some (node_name 0)
    /\ parent_relation nd = Some (text nd)
    /\ text nd = ("A <= 1" : str).
Proof.
  destruct (edge_label_is_own_condition two_line_text) as (recs & Hp & H).
  pose proof Hp as Hq. vm_compute in Hq. injection Hq as <-.
  assert (Hin : In (node_name 1,
                    mk_node 1 "A <= 1" (Some ("POS" : str))
                      (Some (F64.of_ratio 5 1)) (Some F64.zero)
                      (Some (node_name 0)) (Some ("A <= 1" : str))
                      (Some (node_name 1)))
                   (snd (build_tree_structure
                           [ mk_node 0 "A <= 1" None None None None None None;
                             mk_node 1 "A <= 1" (Some ("POS" : str))
                               (Some (F64.of_ratio 5 1)) (Some F64.zero)
                               None None None ]))).
  { right. left. reflexivity. }
  destruct (H _ _ Hin) as [_ Hl].
  eexists. eexists. split; [exact Hp|]. split; [exact Hin|].
  split; [reflexivity|]. split; [|reflexivity].
  rewrite <- (Hl _ eq_refl). reflexivity.
Defined.

(** *** C9: the depth of the first node *)

(** C9, counterexample.  A text whose first line starts with the marker
    yields a first record at depth 1. *)
Lemma first_depth_zero_fails : ~ first_depth_zero "|   A <= 1".
Proof.
  intros H. specialize (H _ _ eq_refl eq_refl). discriminate H.
Qed.

(** C9, amended.  For every input text that, once stripped of surrounding
    white space, does not start with the indentation marker, the parser
    returns and its first record, if any, is at depth 0. *)
Theorem first_depth_zero_without_marker (tree_text : str) :
  Py.startswith (Py.strip tree_text) marker = false ->
  exists recs,
    parse_weka_j48_tree tree_text = Some recs
    /\ forall d, hd_error recs = Some d -> level d = 0.
Proof.
  intros Hm. eexists. split; [apply parse_returns|].
  destruct (strip_head tree_text) as [E | (a & t & E & Ha)].
  - rewrite E. intros d H. discriminate H.
  - rewrite E in *. destruct (split_nl_cons (a :: t)) as (l & ls & El).
    pose proof (startswith_first_line marker (a :: t) eq_refl) as Hf.
    rewrite El in *. simpl hd in Hf. rewrite Hm in Hf.
    assert (Hb : blank l = false).
    { simpl in El. destruct (Ascii.eqb a "010") eqn:Ea.
      - apply Ascii.eqb_eq in Ea. subst a. discriminate Ha.
      - destruct (Py.split_nl t); injection El as <- _; simpl;
          rewrite Ha; reflexivity. }
    simpl flat_map. unfold line_nodes at 1.
    destruct (parse_line_total l) as [[Hb' _] | [_ (d0 & -> & _ & _ & Hl)]];
      [congruence|].
    simpl. intros d [= <-]. rewrite Hl, indent_loop_none by exact Hf.
    reflexivity.
Qed.

(** C9, amended, at the two-line input, which starts without marker. *)
Lemma first_depth_zero_without_marker_witness :
  Py.startswith (Py.strip two_line_text) marker = false
  /\ exists recs,
       parse_weka_j48_tree two_line_text = Some recs
       /\ forall d, hd_error recs = Some d -> level d = 0.
Proof.
  split; [reflexivity|].
  apply (first_depth_zero_without_marker two_line_text). reflexivity.
Defined.

(** *** C10: the root argument is not read *)

(** C10.  For any table and any two values of the root argument, absent
    or present, the emitted text is the same.  It is the header, one node
    declaration per entry of the table in the order of the table, the
    edge declarations and the footer; the declaration of an entry is the
    line made of two blanks, the key of the entry, the label attribute in
    quotes, for a leaf the fill attribute, and the closing bracket and
    semicolon, whether or not the entry has a parent or can be reached
    from the root. *)
Theorem output_ignores_root (tbl : dict) (root1 root2 : option str) :
  generate_dot_from_tree root1 tbl = generate_dot_from_tree root2 tbl
  /\ exists decls,
       generate_dot_from_tree root1 tbl
       = dot_header ++ concat decls ++ concat (map edge_declaration tbl)
           ++ "}" ++ nl
       /\ Forall2
            (fun (item : str * node) (decl : str) =>
               exists label attr,
                 decl = "  " ++ fst item ++ " [label=" ++ quote ++ label
                          ++ quote ++ attr ++ "];" ++ nl
                 /\ (attr = ([] : str)
                     \/ attr = (", fillcolor=lightblue" : str)))
            tbl decls.
Proof.
  split; [reflexivity|]. exists (map node_declaration tbl).
  split; [apply generate_layout|].
  induction tbl as [|[nid nd] tbl IH]; cbn [map]; constructor; [|exact IH].
  unfold node_declaration. cbn [fst]. cbv zeta.
  destruct (Py.truthy (prediction nd)).
  - match goal with
    | |- context [quote ++ ?l ++ quote ++ _] =>
        exists l, (", fillcolor=lightblue" : str)
    end.
    split; [reflexivity | right; reflexivity].
  - match goal with
    | |- context [quote ++ ?l ++ quote ++ _] => exists l, ([] : str)
    end.
    split; [reflexivity | left; reflexivity].
Qed.

(** * Further properties *)

(** ** More on the parser *)

(** X1.  The depth of a record is the number of indentation markers its
    line starts with: the line is that many markers followed by a rest
    that does not start with the marker.  The condition text of the record
    carries no surrounding white space, and for an internal node it is the
    stripped rest.  A blank line gives no record. *)
Theorem record_of_line (line : str) :
  if blank line then parse_line line = Some None
  else exists d rest,
         parse_line line = Some (Some d)
         /\ line = markers (level d) ++ rest
         /\ Py.startswith rest marker = false
         /\ Py.strip (text d) = text d
         /\ (prediction d = None -> text d = Py.strip rest).
Proof.
  destruct (blank line) eqn:Hb.
  - destruct (parse_line_total line) as [[_ H] | [H _]]; [exact H | congruence].
  - destruct (parse_line_record line Hb) as (d & rest & H1 & H2 & H3 & H4 & H5 & _).
    eauto 10.
Qed.

Lemma line_nodes_well_formed (lines : list str) :
  Forall (fun d => fresh d /\ leaf_ok d /\ Py.strip (text d) = text d)
    (flat_map line_nodes lines).
Proof.
  induction lines as [|l lines IH]; simpl; [constructor|].
  apply Forall_app. split; [|exact IH]. unfold line_nodes.
  destruct (blank l) eqn:Hb.
  - destruct (parse_line_total l) as [[_ ->] | [H _]]; [constructor | congruence].
  - destruct (parse_line_record l Hb) as (d & rest & -> & _ & _ & Ht & _ & Hf & Hl).
    constructor; [auto | constructor].
Qed.

(** X2.  The parser never raises, and every record it returns is as the
    data model has it: without identifier or parent yet, its condition
    text stripped, and either internal with none of the leaf fields or a
    leaf with the class POS or NEG and both counts present. *)
Theorem parsed_records_well_formed (tree_text : str) :
  exists recs,
    parse_weka_j48_tree tree_text = Some recs
    /\ Forall (fun d => fresh d /\ leaf_ok d /\ Py.strip (text d) = text d)
         recs.
Proof.
  eexists. split; [apply parse_returns | apply line_nodes_well_formed].
Qed.

Lemma line_nodes_follow (lines : list str) :
  Forall2 (fun l d => parse_line l = Some (Some d))
    (filter (fun l => negb (blank l)) lines) (flat_map line_nodes lines).
Proof.
  induction lines as [|l lines IH]; simpl; [constructor|].
  unfold line_nodes at 1.
  destruct (parse_line_total l) as [[-> ->] | [-> (d & E & _)]];
    rewrite ?E; simpl.
  - exact IH.
  - constructor; [exact E | exact IH].
Qed.

(** X3.  The records are in line order: the i-th record is what the loop
    body makes of the i-th non-blank line of the stripped text. *)
Theorem records_follow_lines (tree_text : str) :
  exists recs,
    parse_weka_j48_tree tree_text = Some recs
    /\ Forall2 (fun l d => parse_line l = Some (Some d))
         (nonblank_lines (Py.strip tree_text)) recs.
Proof.
  eexists. split; [apply parse_returns | apply line_nodes_follow].
Qed.

(** ** The leaf pattern, read declaratively *)

(** X4.  The leaf recognizer decides by the shape of the content and
    never raises.  On a content of the shape condition, colon, class,
    counts in brackets it returns the stripped condition, the class, the
    instance count and the error count, 0.0 when the error fragment is
    absent; on any other content it returns the content unchanged, as an
    internal node. *)
Theorem leaf_recognizer_spec (node_text : str) :
  (exists cond cls inst err x e,
      leaf_shape cond cls inst err node_text
      /\ F64.float_of_str inst = Some x
      /\ match err with
         | Some s => F64.float_of_str s = Some e
         | None => e = F64.zero
         end
      /\ leaf_fields node_text = Some (Py.strip cond, Some cls, Some x, Some e))
  \/ ((forall cond cls inst err, ~ leaf_shape cond cls inst err node_text)
      /\ leaf_fields node_text = Some (node_text, None, None, None)).
Proof. apply leaf_fields_dichotomy. Qed.

(** X5.  Whatever pieces a leaf content is seen to be made of, those are
    the ones the recognizer returns: the condition is cut at the last
    colon of the content, also when the condition has colons of its
    own. *)
Theorem leaf_fields_of_shape (cond cls inst : str) (err : option str)
    (node_text : str) :
  leaf_shape cond cls inst err node_text ->
  exists x e,
    F64.float_of_str inst = Some x
    /\ match err with
       | Some s => F64.float_of_str s = Some e
       | None => e = F64.zero
       end
    /\ leaf_fields node_text = Some (Py.strip cond, Some cls, Some x, Some e).
Proof.
  intros Hs.
  destruct (leaf_fields_dichotomy node_text)
    as [(cond' & cls' & inst' & err' & x & e & Hs' & Hx & He & Hf) | [Hn _]].
  - destruct (leaf_shape_unique Hs Hs') as (-> & -> & -> & ->). eauto.
  - exfalso. eapply Hn. exact Hs.
Qed.

Lemma leaf_fields_of_shape_witness :
  leaf_shape "a: POS (1)" "NEG" "2.5" (Some ("1" : str)) "a: POS (1): NEG (2.5/1)"
  /\ exists x e,
       F64.float_of_str "2.5" = Some x /\ F64.float_of_str "1" = Some e
       /\ leaf_fields "a: POS (1): NEG (2.5/1)"
          = Some (("a: POS (1)" : str), Some ("NEG" : str), Some x, Some e).
Proof.
  assert (Hs : leaf_shape "a: POS (1)" "NEG" "2.5" (Some ("1" : str))
                 "a: POS (1): NEG (2.5/1)").
  { exists (" " : str), (" " : str), ([] : str).
    split; [reflexivity|]. split; [reflexivity|]. split; [reflexivity|].
    split; [right; reflexivity|]. split; [reflexivity|].
    split; [exists "2"%char, [], ["."%char], ["5"%char]; repeat split; auto|].
    split; [exists "1"%char, [], [], []; repeat split; auto|].
    left. reflexivity. }
  split; [exact Hs|].
  destruct (leaf_fields_of_shape Hs) as (x & e & Hx & He & Hf).
  exists x, e. auto.
Defined.

(** ** More on the reconstruction *)

(** X6.  For every input text, the table has one entry per record, in
    order, under the keys N0, N1, ... which are pairwise different; the
    entry of a record carries its key as identifier and the record's
    depth, condition text, class and counts unchanged; and looking a key
    up in the table finds its entry. *)
Theorem table_entries (tree_text : str) :
  exists recs,
    parse_weka_j48_tree tree_text = Some recs
    /\ let tbl := snd (build_tree_structure recs) in
       map fst tbl = map node_name (seq 0 (List.length recs))
       /\ NoDup (map fst tbl)
       /\ forall i r,
            nth_error recs i = Some r ->
            exists nd,
              nth_error tbl i = Some (node_name i, nd)
              /\ dict_get tbl (node_name i) = Some nd
              /\ node_id nd = Some (node_name i)
              /\ level nd = level r /\ text nd = text r
              /\ prediction nd = prediction r
              /\ instances nd = instances r /\ error nd = error r.
Proof.
  exists (flat_map line_nodes (Py.split_nl (Py.strip tree_text))).
  split; [apply parse_returns|].
  set (recs := flat_map line_nodes _). cbn [build_tree_structure snd].
  split; [apply build_keys|]. split; [apply build_keys_nodup|].
  intros i r Hr. exists (stored (build_loop (firstn i recs)) r).
  pose proof (table_entry recs i Hr) as T.
  destruct (stored_fields (build_loop (firstn i recs)) r)
    as (H1 & H2 & H3 & H4 & H5 & H6).
  split; [exact T|].
  split; [eapply dict_get_nth; [apply build_keys_nodup | exact T]|].
  rewrite build_counter in H6.
  assert (L : List.length (firstn i recs) = i).
  { apply firstn_length_le. apply Nat.lt_le_incl.
    apply nth_error_Some. congruence. }
  rewrite L in H6. auto 10.
Qed.

Lemma pop_while_descending (stk : stack_t) (lvl : nat) :
  descending stk ->
  descending (pop_while stk lvl)
  /\ match pop_while stk lvl with
     | (_, l) :: _ => l < lvl
     | [] => True
     end.
Proof.
  induction stk as [|[id l] stk IH]; simpl; intros H; [auto|].
  destruct H as [H0 H]. destruct (lvl <=? l) eqn:E.
  - apply IH. exact H.
  - apply Nat.leb_gt in E. simpl. auto.
Qed.

Lemma pop_while_incl (stk : stack_t) (lvl : nat) :
  incl (pop_while stk lvl) stk.
Proof.
  induction stk as [|[id l] stk IH]; simpl; [apply incl_refl|].
  destruct (lvl <=? l); [apply incl_tl; exact IH | apply incl_refl].
Qed.

(** X7.  After any list of records the stack holds records of the list,
    each with its key and depth, their depths strictly decreasing from the
    top downwards; after a non-empty list its top is the last record. *)
Theorem stack_descends (recs : list node) :
  let stk := stack (build_loop recs) in
  descending stk
  /\ (forall id l, In (id, l) stk ->
        exists j r, id = node_name j /\ nth_error recs j = Some r
                    /\ level r = l)
  /\ forall before r,
       recs = before ++ [r] ->
       hd_error stk = Some (node_name (List.length before), level r).
Proof.
  cbn zeta. induction recs as [|x recs (D & M & _)] using rev_ind.
  - split; [exact I|]. split; [intros id l []|].
    intros [|b before] r H; discriminate H.
  - rewrite build_loop_snoc, build_step_stack, build_counter.
    assert (Mx : forall id l, In (id, l) (stack (build_loop recs)) ->
              exists j r, id = node_name j
                          /\ nth_error (recs ++ [x]) j = Some r /\ level r = l).
    { intros id l Hin. destruct (M id l Hin) as (j & r & -> & Hj & Hl).
      exists j, r. repeat split; auto.
      rewrite nth_error_app1; [exact Hj|]. apply nth_error_Some. congruence. }
    assert (Nx : nth_error (recs ++ [x]) (List.length recs) = Some x)
      by (rewrite nth_error_app2, Nat.sub_diag by lia; reflexivity).
    split; [|split].
    + destruct (level x =? 0); [simpl; auto|].
      destruct (pop_while_descending (stack (build_loop recs)) (level x) D)
        as [D' T].
      simpl. split; [|exact D'].
      destruct (pop_while _ _) as [|[id' l'] rest]; auto.
    + intros id l Hin. destruct (level x =? 0) eqn:E0.
      * apply Nat.eqb_eq in E0. destruct Hin as [[= <- <-] | []].
        exists (List.length recs), x. auto.
      * destruct Hin as [[= <- <-] | Hin].
        -- exists (List.length recs), x. auto.
        -- apply Mx. eapply pop_while_incl. exact Hin.
    + intros before r Hr. apply app_inj_tail in Hr. destruct Hr as [-> ->].
      destruct (level r =? 0) eqn:E0; [|reflexivity].
      apply Nat.eqb_eq in E0. rewrite E0. reflexivity.
Qed.

(** X8.  For every input text, an entry of the table is without parent
    exactly when no earlier entry is shallower than it; this covers the
    depth-0 entries and the orphans, and nothing else. *)
Theorem parentless_iff_no_shallower (tree_text : str) :
  exists recs,
    parse_weka_j48_tree tree_text = Some recs
    /\ let tbl := snd (build_tree_structure recs) in
       forall i nid nd,
         nth_error tbl i = Some (nid, nd) ->
         (parent_node_id nd = None
          <-> forall k kid kd,
                k < i -> nth_error tbl k = Some (kid, kd) ->
                level nd <= level kd).
Proof.
  pose proof (parse_returns tree_text) as Hp.
  pose proof (parse_ok tree_text Hp) as Hok.
  set (recs := flat_map line_nodes _) in *.
  exists recs. split; [exact Hp|]. cbn [build_tree_structure snd].
  intros i nid nd Hi.
  apply table_lookup in Hi. destruct Hi as (r & Hr & -> & ->).
  assert (Hfresh : parent_node_id r = None).
  { rewrite Forall_forall in Hok. apply nth_error_In in Hr.
    apply Hok in Hr. destruct Hr as [(H & _) _]. exact H. }
  rewrite (proj1 (stored_fields _ r)).
  destruct (stored_parent recs i Hr)
    as [(_ & j & rj & Hji & Hj & Hlt & _ & Hpar & _) | (Hall & Hpar & _)].
  - rewrite Hpar. split; [discriminate|]. intros H. exfalso.
    specialize (H j _ _ Hji (table_entry recs j Hj)).
    rewrite (proj1 (stored_fields _ rj)) in H. lia.
  - rewrite Hpar, Hfresh. split; [|reflexivity]. intros _ k kid kd Hk Hkd.
    apply table_lookup in Hkd. destruct Hkd as (rk & Hrk & -> & ->).
    rewrite (proj1 (stored_fields _ rk)). eauto.
Qed.

(** X9.  When the records of an input text are well nested (the first at
    depth 0, none more than one level deeper than the one before it),
    every record at a depth other than 0 gets a parent, exactly one level
    up: there are no orphans and no skipped levels. *)
Theorem well_nested_parent_one_up
    (tree_text : str) (recs : list node) (i : nat) (r : node) :
  parse_weka_j48_tree tree_text = Some recs ->
  well_nested recs ->
  nth_error recs i = Some r ->
  level r <> 0 ->
  exists j rj nd,
    j < i /\ nth_error recs j = Some rj /\ S (level rj) = level r
    /\ nth_error (snd (build_tree_structure recs)) i = Some (node_name i, nd)
    /\ parent_node_id nd = Some (node_name j)
    /\ parent_relation nd = Some (text r).
Proof.
  intros _ [W0 W1] Hr Hl. cbn [build_tree_structure snd].
  pose proof (table_entry recs i Hr) as T.
  destruct (stored_parent recs i Hr)
    as [(_ & j & rj & Hji & Hj & Hlt & Hk & Hpar & Hrel) | (Hall & _)].
  - exists j, rj, (stored (build_loop (firstn i recs)) r).
    repeat split; auto.
    destruct (nth_error recs (S j)) as [x|] eqn:Ex.
    + specialize (W1 j rj x Hj Ex).
      destruct (Nat.eq_dec (S j) i) as [<- | Hne].
      * assert (x = r) by congruence. subst x. lia.
      * assert (level r <= level x) by (apply (Hk (S j)); [lia | exact Ex]).
        lia.
    + apply nth_error_None in Ex.
      assert (i < List.length recs) by (apply nth_error_Some; congruence).
      lia.
  - exfalso. destruct i as [|i].
    + apply Hl, W0. destruct recs; [discriminate Hr | exact Hr].
    + destruct recs as [|r0 recs']; [discriminate Hr|].
      specialize (W0 r0 eq_refl).
      specialize (Hall 0 r0 (Nat.lt_0_succ i) eq_refl). lia.
Qed.

Lemma well_nested_parent_one_up_witness :
  parse_weka_j48_tree nested_text = Some nested_recs
  /\ well_nested nested_recs
  /\ nth_error nested_recs 3 = Some (internal 2 "C > 2")
  /\ level (internal 2 "C > 2") <> 0
  /\ exists j rj nd,
       j < 3 /\ nth_error nested_recs j = Some rj
       /\ S (level rj) = level (internal 2 "C > 2")
       /\ nth_error (snd (build_tree_structure nested_recs)) 3
          = Some (node_name 3, nd)
       /\ parent_node_id nd = Some (node_name j)
       /\ parent_relation nd = Some (text (internal 2 "C > 2")).
Proof.
  assert (P : parse_weka_j48_tree nested_text = Some nested_recs)
    by (vm_compute; reflexivity).
  assert (W : well_nested nested_recs).
  { split.
    - intros r [= <-]. reflexivity.
    - intros [|[|[|[|[|i]]]]] a b Ha Hb; simpl in Ha, Hb;
        try discriminate Hb; injection Ha as <-; injection Hb as <-;
        simpl; lia. }
  split; [exact P|]. split; [exact W|]. split; [reflexivity|].
  split; [discriminate|].
  apply (@well_nested_parent_one_up nested_text nested_recs 3
           (internal 2 "C > 2") P W);
    [reflexivity | discriminate].
Defined.

(** X10.  Among the records of an input text, a record deeper than the
    record right before it becomes the child of that record, however many
    levels deeper it is. *)
Theorem deeper_line_is_child_of_previous
    (tree_text : str) (recs : list node) (i : nat) (a b : node) :
  parse_weka_j48_tree tree_text = Some recs ->
  nth_error recs i = Some a ->
  nth_error recs (S i) = Some b ->
  level a < level b ->
  exists nd,
    nth_error (snd (build_tree_structure recs)) (S i)
    = Some (node_name (S i), nd)
    /\ parent_node_id nd = Some (node_name i)
    /\ parent_relation nd = Some (text b).
Proof.
  intros _ Ha Hb Hl. cbn [build_tree_structure snd].
  exists (stored (build_loop (firstn (S i) recs)) b).
  split; [apply table_entry; exact Hb|].
  destruct (stored_parent recs (S i) Hb)
    as [(_ & j & rj & Hji & Hj & Hlt & Hk & Hpar & Hrel) | (Hall & _)].
  - destruct (Nat.eq_dec j i) as [-> | Hne]; [auto|].
    exfalso. assert (level b <= level a) by (apply (Hk i); [lia | exact Ha]).
    lia.
  - exfalso. specialize (Hall i a (Nat.lt_succ_diag_r i) Ha). lia.
Qed.

Lemma deeper_line_is_child_of_previous_witness :
  parse_weka_j48_tree nested_text = Some nested_recs
  /\ nth_error nested_recs 1 = Some (internal 1 "B <= 1")
  /\ nth_error nested_recs 2 = Some (internal 2 "C <= 2")
  /\ level (internal 1 "B <= 1") < level (internal 2 "C <= 2")
  /\ exists nd,
       nth_error (snd (build_tree_structure nested_recs)) 2
       = Some (node_name 2, nd)
       /\ parent_node_id nd = Some (node_name 1)
       /\ parent_relation nd = Some (text (internal 2 "C <= 2")).
Proof.
  assert (P : parse_weka_j48_tree nested_text = Some nested_recs)
    by (vm_compute; reflexivity).
  split; [exact P|]. split; [reflexivity|]. split; [reflexivity|].
  split; [simpl; lia|].
  apply (@deeper_line_is_child_of_previous nested_text nested_recs 1
           (internal 1 "B <= 1") (internal 2 "C <= 2") P);
    [reflexivity | reflexivity | simpl; lia].
Defined.

(** X11.  Among the records of an input text, two consecutive records at
    the same depth end up with the same parent, or both with none. *)
Theorem same_depth_lines_share_parent
    (tree_text : str) (recs : list node) (i : nat) (a b : node) :
  parse_weka_j48_tree tree_text = Some recs ->
  nth_error recs i = Some a ->
  nth_error recs (S i) = Some b ->
  level a = level b ->
  exists na nb,
    nth_error (snd (build_tree_structure recs)) i = Some (node_name i, na)
    /\ nth_error (snd (build_tree_structure recs)) (S i)
       = Some (node_name (S i), nb)
    /\ parent_node_id na = parent_node_id nb.
Proof.
  intros Hp Ha Hb Hl. cbn [build_tree_structure snd].
  pose proof (parse_ok tree_text Hp) as Hok. rewrite Forall_forall in Hok.
  assert (Fa : parent_node_id a = None)
    by (apply (Hok a (nth_error_In _ _ Ha))).
  assert (Fb : parent_node_id b = None)
    by (apply (Hok b (nth_error_In _ _ Hb))).
  exists (stored (build_loop (firstn i recs)) a),
         (stored (build_loop (firstn (S i) recs)) b).
  split; [apply table_entry; exact Ha|].
  split; [apply table_entry; exact Hb|].
  destruct (stored_parent recs i Ha)
    as [(_ & j & rj & Hji & Hj & Hlt & Hk & Hpar & _) | (Hall & Hpar & _)];
  destruct (stored_parent recs (S i) Hb)
    as [(_ & j' & rj' & Hji' & Hj' & Hlt' & Hk' & Hpar' & _)
       | (Hall' & Hpar' & _)];
    rewrite Hpar, Hpar'.
  - assert (j' <> i) by (intros ->; assert (rj' = a) by congruence; subst; lia).
    destruct (Nat.lt_total j j') as [H1 | [-> | H1]]; [| reflexivity |].
    + exfalso. assert (level a <= level rj')
        by (apply (Hk j'); [lia | exact Hj']). lia.
    + exfalso. assert (level b <= level rj)
        by (apply (Hk' j); [lia | exact Hj]). lia.
  - exfalso. assert (level b <= level rj)
      by (apply (Hall' j); [lia | exact Hj]). lia.
  - exfalso. assert (j' <> i)
      by (intros ->; assert (rj' = a) by congruence; subst; lia).
    assert (level a <= level rj') by (apply (Hall j'); [lia | exact Hj']).
    lia.
  - congruence.
Qed.

Lemma same_depth_lines_share_parent_witness :
  parse_weka_j48_tree nested_text = Some nested_recs
  /\ nth_error nested_recs 2 = Some (internal 2 "C <= 2")
  /\ nth_error nested_recs 3 = Some (internal 2 "C > 2")
  /\ exists na nb,
       nth_error (snd (build_tree_structure nested_recs)) 2
       = Some (node_name 2, na)
       /\ nth_error (snd (build_tree_structure nested_recs)) 3
          = Some (node_name 3, nb)
       /\ parent_node_id na = parent_node_id nb.
Proof.
  assert (P : parse_weka_j48_tree nested_text = Some nested_recs)
    by (vm_compute; reflexivity).
  split; [exact P|]. split; [reflexivity|]. split; [reflexivity|].
  apply (@same_depth_lines_share_parent nested_text nested_recs 2
           (internal 2 "C <= 2") (internal 2 "C > 2") P);
    reflexivity.
Defined.

(** X12.  For every input text and every entry of the table: an entry
    with a parent contributes exactly one edge declaration, from the
    parent, which is the key of an earlier entry, to the entry itself,
    labelled with the entry's own condition text; an entry without parent
    contributes nothing. *)
Theorem edges_emitted (tree_text : str) :
  exists recs,
    parse_weka_j48_tree tree_text = Some recs
    /\ let tbl := snd (build_tree_structure recs) in
       forall i nid nd,
         nth_error tbl i = Some (nid, nd) ->
         match parent_node_id nd with
         | Some pid =>
             (exists j pd, j < i /\ nth_error tbl j = Some (pid, pd))
             /\ edge_declaration (nid, nd)
                = "  " ++ pid ++ " -> " ++ nid ++ " [label=" ++ quote
                    ++ text nd ++ quote ++ "];" ++ nl
         | None => edge_declaration (nid, nd) = []
         end.
Proof.
  pose proof (parse_returns tree_text) as Hp.
  pose proof (parse_ok tree_text Hp) as Hok.
  set (recs := flat_map line_nodes _) in *.
  exists recs. split; [exact Hp|]. cbn [build_tree_structure snd].
  intros i nid nd Hi.
  apply table_lookup in Hi. destruct Hi as (r & Hr & -> & ->).
  assert (Hfresh : fresh r).
  { rewrite Forall_forall in Hok. apply nth_error_In in Hr.
    apply Hok in Hr. tauto. }
  destruct Hfresh as (F1 & F2 & _).
  unfold edge_declaration.
  rewrite (proj1 (proj2 (stored_fields (build_loop (firstn i recs)) r))).
  destruct (stored_parent recs i Hr)
    as [(_ & j & rj & Hji & Hj & _ & _ & Hpar & Hrel) | (_ & Hpar & _)].
  - rewrite Hpar, Hrel. split; [|reflexivity].
    exists j, (stored (build_loop (firstn j recs)) rj).
    split; [exact Hji | apply table_entry; exact Hj].
  - rewrite Hpar, F1. reflexivity.
Qed.

(** X13.  A text of white space only, the empty text included, is not an
    error: the parser returns no record, no root is found, and the
    pipeline emits the header and the footer with nothing in between. *)
Theorem blank_text_empty_graph (tree_text : str) :
  blank tree_text = true ->
  parse_weka_j48_tree tree_text = Some []
  /\ build_tree_structure [] = (None, [])
  /\ pipeline tree_text = Some (dot_header ++ "}" ++ nl).
Proof.
  intros H. apply strip_nil in H.
  assert (P : parse_weka_j48_tree tree_text = Some []).
  { rewrite parse_returns, H. reflexivity. }
  split; [exact P|]. split; [reflexivity|].
  unfold pipeline. rewrite P. reflexivity.
Qed.

Lemma blank_text_empty_graph_witness :
  blank (nl ++ "  " ++ nl) = true
  /\ parse_weka_j48_tree (nl ++ "  " ++ nl) = Some []
  /\ build_tree_structure [] = (None, [])
  /\ pipeline (nl ++ "  " ++ nl) = Some (dot_header ++ "}" ++ nl).
Proof.
  split; [reflexivity|].
  apply (blank_text_empty_graph (nl ++ "  " ++ nl)). reflexivity.
Defined.

(** ** The shape of the tree *)

Lemma map_level_snoc (r1 r2 : list node) (x : node) :
  map level (r1 ++ [x]) = map level r2 ->
  exists r2' y, r2 = r2' ++ [y] /\ map level r1 = map level r2'
                /\ level x = level y.
Proof.
  intros H. rewrite map_app in H. symmetry in H. apply map_eq_app in H.
  destruct H as (r2' & l & -> & H1 & H2).
  destruct l as [|y [|z l]]; try discriminate H2.
  simpl in H2. injection H2 as H2. exists r2', y. auto.
Qed.

(** The stack and the root depend on the depths of the records only. *)
Lemma stack_of_levels (r1 : list node) :
  forall r2,
    map level r1 = map level r2 ->
    stack (build_loop r1) = stack (build_loop r2)
    /\ root_node_id (build_loop r1) = root_node_id (build_loop r2).
Proof.
  induction r1 as [|x r1 IH] using rev_ind; intros r2 H.
  - destruct r2; [auto | discriminate H].
  - apply map_level_snoc in H. destruct H as (r2' & y & -> & H & Hl).
    destruct (IH r2' H) as [Hs Hr].
    assert (L : List.length r1 = List.length r2').
    { rewrite <- (length_map level r1), H. apply length_map. }
    rewrite !build_loop_snoc, !build_step_stack, !build_step_root.
    rewrite !build_counter, Hs, Hr, Hl, L. auto.
Qed.

(** X20.  The links depend on the depths alone: two input texts whose
    records have the same depths line by line give the same parent to the
    same position and the same root, whatever the lines say and whether
    they are leaves or not. *)
Theorem links_depend_on_depths_only
    (text1 text2 : str) (recs1 recs2 : list node) :
  parse_weka_j48_tree text1 = Some recs1 ->
  parse_weka_j48_tree text2 = Some recs2 ->
  map level recs1 = map level recs2 ->
  map (fun it => parent_node_id (snd it)) (snd (build_tree_structure recs1))
  = map (fun it => parent_node_id (snd it)) (snd (build_tree_structure recs2))
  /\ fst (build_tree_structure recs1) = fst (build_tree_structure recs2).
Proof.
  intros P1 P2 H. cbn [build_tree_structure fst snd].
  pose proof (parse_ok text1 P1) as F1. pose proof (parse_ok text2 P2) as F2.
  split; [|apply stack_of_levels; exact H].
  apply nth_error_ext. intros i. rewrite !nth_error_map.
  assert (Hi : nth_error (map level recs1) i = nth_error (map level recs2) i)
    by (rewrite H; reflexivity).
  rewrite !nth_error_map in Hi.
  destruct (nth_error recs1 i) as [a|] eqn:Ea;
    destruct (nth_error recs2 i) as [b|] eqn:Eb; try discriminate Hi.
  - rewrite (table_entry recs1 i Ea), (table_entry recs2 i Eb). simpl.
    injection Hi as Hl. f_equal. unfold stored.
    assert (Hs : stack (build_loop (firstn i recs1))
                 = stack (build_loop (firstn i recs2))).
    { apply stack_of_levels. rewrite <- !firstn_map, H. reflexivity. }
    rewrite Hs, Hl.
    rewrite Forall_forall in F1, F2.
    assert (Pa : parent_node_id a = None)
      by (apply (F1 a (nth_error_In _ _ Ea))).
    assert (Pb : parent_node_id b = None)
      by (apply (F2 b (nth_error_In _ _ Eb))).
    destruct (level b =? 0); [simpl; congruence|].
    destruct (pop_while _ _) as [|[pid l] rest]; simpl; congruence.
  - apply nth_error_None in Ea, Eb. rewrite <- build_dict_length in Ea, Eb.
    apply nth_error_None in Ea, Eb. rewrite Ea, Eb. reflexivity.
Qed.

Lemma links_depend_on_depths_only_witness :
  parse_weka_j48_tree nested_text = Some nested_recs
  /\ parse_weka_j48_tree other_text = Some other_recs
  /\ map level nested_recs = map level other_recs
  /\ map (fun it => parent_node_id (snd it))
       (snd (build_tree_structure nested_recs))
     = map (fun it => parent_node_id (snd it))
         (snd (build_tree_structure other_recs))
  /\ fst (build_tree_structure nested_recs)
     = fst (build_tree_structure other_recs).
Proof.
  assert (P1 : parse_weka_j48_tree nested_text = Some nested_recs)
    by (vm_compute; reflexivity).
  assert (P2 : parse_weka_j48_tree other_text = Some other_recs)
    by (vm_compute; reflexivity).
  split; [exact P1|]. split; [exact P2|]. split; [reflexivity|].
  apply (@links_depend_on_depths_only nested_text other_text
           nested_recs other_recs P1 P2 eq_refl).
Defined.

(** The table for a list of records followed by more records starts with
    the table for the list alone. *)
Lemma table_of_prefix (recs more : list node) :
  firstn (List.length recs) (nodes_dict (build_loop (recs ++ more)))
  = nodes_dict (build_loop recs).
Proof.
  induction more as [|x more IH] using rev_ind.
  - rewrite app_nil_r. apply firstn_all2. rewrite build_dict_length. lia.
  - rewrite app_assoc, table_snoc, firstn_app, build_dict_length, length_app.
    replace (List.length recs - (List.length recs + List.length more))
      with 0 by lia.
    simpl firstn. rewrite app_nil_r. exact IH.
Qed.

(** ** Texts put one after the other *)

Lemma rstrip_app_stable (x y : str) :
  Py.rstrip y = y -> y <> [] -> Py.rstrip (x ++ y) = x ++ y.
Proof.
  intros Hy Hn. induction x as [|c x IH]; [exact Hy|].
  simpl. rewrite IH. destruct (x ++ y) eqn:E; [|reflexivity].
  apply app_eq_nil in E. tauto.
Qed.

Lemma strip_stable_parts (t : str) :
  Py.strip t = t -> Py.lstrip t = t /\ Py.rstrip t = t.
Proof.
  intros H. destruct (strip_head t) as [E | (a & u & E & Ha)].
  - rewrite E in H. subst t. auto.
  - rewrite H in E. subst t. simpl Py.lstrip. rewrite Ha.
    split; [reflexivity|]. unfold Py.strip in H. simpl Py.lstrip in H.
    rewrite Ha in H. exact H.
Qed.

Lemma strip_join (t1 t2 : str) :
  Py.strip t1 = t1 -> Py.strip t2 = t2 -> t1 <> [] -> t2 <> [] ->
  Py.strip (t1 ++ nl ++ t2) = t1 ++ nl ++ t2.
Proof.
  intros H1 H2 N1 N2.
  destruct (strip_stable_parts H1) as [L1 _].
  destruct (strip_stable_parts H2) as [_ R2].
  unfold Py.strip.
  assert (L : Py.lstrip (t1 ++ nl ++ t2) = t1 ++ nl ++ t2).
  { destruct t1 as [|a u]; [contradiction|]. simpl in *.
    destruct (Py.isspace a) eqn:Ha; [|reflexivity].
    exfalso. destruct (lstrip_head u) as [E | (b & v & E & Hb)].
    - rewrite E in L1. discriminate L1.
    - rewrite E in L1. injection L1 as -> _. congruence. }
  rewrite L. rewrite app_assoc. apply rstrip_app_stable; assumption.
Qed.

(** X22.  Parsing composes: for two non-empty texts without surrounding
    white space, the records of the first, a newline and the second are
    the records of the first followed by the records of the second. *)
Theorem parse_of_joined_texts (t1 t2 : str) :
  Py.strip t1 = t1 -> Py.strip t2 = t2 -> t1 <> [] -> t2 <> [] ->
  exists r1 r2,
    parse_weka_j48_tree t1 = Some r1
    /\ parse_weka_j48_tree t2 = Some r2
    /\ parse_weka_j48_tree (t1 ++ nl ++ t2) = Some (r1 ++ r2).
Proof.
  intros H1 H2 N1 N2.
  exists (flat_map line_nodes (Py.split_nl t1)),
         (flat_map line_nodes (Py.split_nl t2)).
  rewrite !parse_returns, H1, H2, (strip_join H1 H2 N1 N2).
  split; [reflexivity|]. split; [reflexivity|].
  change (t1 ++ nl ++ t2) with (t1 ++ "010"%char :: t2).
  rewrite split_nl_app, flat_map_app. reflexivity.
Qed.

Lemma parse_of_joined_texts_witness :
  Py.strip "A <= 1" = "A <= 1"
  /\ Py.strip "|   A <= 1: POS (5.0)" = "|   A <= 1: POS (5.0)"
  /\ exists r1 r2,
       parse_weka_j48_tree "A <= 1" = Some r1
       /\ parse_weka_j48_tree "|   A <= 1: POS (5.0)" = Some r2
       /\ parse_weka_j48_tree ("A <= 1" ++ nl ++ "|   A <= 1: POS (5.0)")
          = Some (r1 ++ r2).
Proof.
  split; [reflexivity|]. split; [reflexivity|].
  apply (@parse_of_joined_texts "A <= 1" "|   A <= 1: POS (5.0)");
    [reflexivity | reflexivity | discriminate | discriminate].
Defined.

(** X21.  Lines added at the end of a text leave the entries of the
    lines before them as they were: for two non-empty texts without
    surrounding white space, the table of the first text, a newline and
    the second starts with the table of the first text alone. *)
Theorem table_prefix_stable (t1 t2 : str) :
  Py.strip t1 = t1 -> Py.strip t2 = t2 -> t1 <> [] -> t2 <> [] ->
  exists r1 r12,
    parse_weka_j48_tree t1 = Some r1
    /\ parse_weka_j48_tree (t1 ++ nl ++ t2) = Some r12
    /\ firstn (List.length r1) (snd (build_tree_structure r12))
       = snd (build_tree_structure r1).
Proof.
  intros H1 H2 N1 N2.
  exists (flat_map line_nodes (Py.split_nl t1)),
         (flat_map line_nodes (Py.split_nl t1)
            ++ flat_map line_nodes (Py.split_nl t2)).
  rewrite !parse_returns, H1, (strip_join H1 H2 N1 N2).
  split; [reflexivity|]. split.
  - change (t1 ++ nl ++ t2) with (t1 ++ "010"%char :: t2).
    rewrite split_nl_app, flat_map_app. reflexivity.
  - cbn [build_tree_structure snd]. apply table_of_prefix.
Qed.

Lemma table_prefix_stable_witness :
  Py.strip "A <= 1" = "A <= 1"
  /\ Py.strip "|   A <= 1: POS (5.0)" = "|   A <= 1: POS (5.0)"
  /\ exists r1 r12,
       parse_weka_j48_tree "A <= 1" = Some r1
       /\ parse_weka_j48_tree ("A <= 1" ++ nl ++ "|   A <= 1: POS (5.0)")
          = Some r12
       /\ firstn (List.length r1) (snd (build_tree_structure r12))
          = snd (build_tree_structure r1).
Proof.
  split; [reflexivity|]. split; [reflexivity|].
  apply (@table_prefix_stable "A <= 1" "|   A <= 1: POS (5.0)");
    [reflexivity | reflexivity | discriminate | discriminate].
Defined.

(** ** NominalToOrdinal.py *)

Lemma lookup_codes (s : str) :
  match Ordinal.lookup Ordinal.binding_strength_map s with
  | Some z => In s Ordinal.codes /\ (0 <= z <= 4)%Z
  | None => ~ In s Ordinal.codes
  end.
Proof.
  unfold Ordinal.binding_strength_map, Ordinal.codes. cbn [Ordinal.lookup].
  repeat match goal with
  | |- context [str_eqb ?k s] =>
      let E := fresh "E" in
      destruct (str_eqb k s) eqn:E;
      [apply str_eqb_eq in E; subst s; simpl; split; [tauto | lia] |]
  end.
  intros H. simpl in H.
  repeat (destruct H as [H | H];
          [subst s;
           repeat match goal with
           | E : str_eqb _ _ = false |- _ =>
               vm_compute in E; try discriminate E; clear E
           end |]).
  exact H.
Qed.

Lemma replace_cell_encoded (c : Ordinal.cell) :
  Ordinal.encoded c (Ordinal.replace_cell Ordinal.binding_strength_map c).
Proof.
  unfold Ordinal.encoded, Ordinal.is_code.
  destruct c as [s| | | |]; cbn [Ordinal.replace_cell];
    try (right; split; [intros (s' & E & _); discriminate E | reflexivity]).
  pose proof (lookup_codes s) as H.
  destruct (Ordinal.lookup Ordinal.binding_strength_map s) as [z|].
  - left. destruct H as [Hin Hz].
    split; [exists s; auto | exists z; split; [reflexivity | exact Hz]].
  - right. split; [|reflexivity]. intros (s' & [= <-] & Hin). auto.
Qed.

Lemma replace_cell_idem (c : Ordinal.cell) :
  Ordinal.replace_cell Ordinal.binding_strength_map
    (Ordinal.replace_cell Ordinal.binding_strength_map c)
  = Ordinal.replace_cell Ordinal.binding_strength_map c.
Proof.
  destruct c as [s| | | |]; try reflexivity. cbn [Ordinal.replace_cell].
  destruct (Ordinal.lookup Ordinal.binding_strength_map s) eqn:E;
    [reflexivity|]. cbn [Ordinal.replace_cell]. rewrite E. reflexivity.
Qed.

(** X14.  Every cell of the converted frame comes from the cell at the
    same place of the original: one of the ten strength codes has become
    an integer between 0 and 4, and any other cell, a text that is no
    code included, is unchanged. *)
Theorem convert_to_ordinal_cells (df : Ordinal.dataframe) :
  Forall2 (Forall2 Ordinal.encoded) df (Ordinal.convert_to_ordinal df).
Proof.
  unfold Ordinal.convert_to_ordinal, Ordinal.replace.
  induction df as [|row df IH]; simpl; constructor; [|exact IH].
  induction row as [|c row IHr]; simpl; constructor;
    [apply replace_cell_encoded | exact IHr].
Qed.

(** X15.  Converting keeps the number of rows and the length of every
    row, leaves no strength code in the frame, and converting twice is
    converting once. *)
Theorem convert_to_ordinal_idempotent (df : Ordinal.dataframe) :
  map (@List.length Ordinal.cell) (Ordinal.convert_to_ordinal df)
  = map (@List.length Ordinal.cell) df
  /\ (forall row c,
        In row (Ordinal.convert_to_ordinal df) -> In c row ->
        ~ Ordinal.is_code c)
  /\ Ordinal.convert_to_ordinal (Ordinal.convert_to_ordinal df)
     = Ordinal.convert_to_ordinal df.
Proof.
  unfold Ordinal.convert_to_ordinal, Ordinal.replace. split; [|split].
  - rewrite map_map. apply map_ext. intros row. apply length_map.
  - intros row c Hrow Hc. apply in_map_iff in Hrow.
    destruct Hrow as (row0 & <- & _). apply in_map_iff in Hc.
    destruct Hc as (c0 & <- & _).
    destruct (replace_cell_encoded c0) as [(_ & z & -> & _) | (Hn & ->)].
    + intros (s & E & _). discriminate E.
    + exact Hn.
  - rewrite map_map. apply map_ext. intros row. rewrite map_map.
    apply map_ext. apply replace_cell_idem.
Qed.

(** ** CompareCSV.py *)

Lemma label_eqb_eq (a b : CompareCSV.label) :
  a <> CompareCSV.Missing ->
  (CompareCSV.label_eqb a b = true <-> a = b).
Proof.
  intros Ha. destruct a as [s|x|], b as [t|y|]; simpl;
    try (split; [discriminate | intros [=]]); try contradiction.
  - rewrite str_eqb_eq. split; [intros -> | intros [= ->]]; reflexivity.
  - rewrite Z.eqb_eq. split; [intros -> | intros [= ->]]; reflexivity.
Qed.

Lemma member_In (x : CompareCSV.label) (ys : list CompareCSV.label) :
  x <> CompareCSV.Missing ->
  (CompareCSV.member x ys = true <-> In x ys).
Proof.
  intros Hx. unfold CompareCSV.member. rewrite existsb_exists. split.
  - intros (y & Hin & E). apply (label_eqb_eq _ Hx) in E. subst y. exact Hin.
  - intros H. exists x. split; [exact H | apply label_eqb_eq; auto].
Qed.

Lemma not_in_In (xs ys : list CompareCSV.label) (x : CompareCSV.label) :
  CompareCSV.present xs ->
  (In x (CompareCSV.not_in xs ys) <-> In x xs /\ ~ In x ys).
Proof.
  intros Hp. unfold CompareCSV.not_in. rewrite filter_In. split.
  - intros [H1 H2]. split; [exact H1|].
    assert (Hx : x <> CompareCSV.Missing) by (intros ->; exact (Hp H1)).
    intros Hin. apply (member_In _ Hx) in Hin.
    rewrite Hin in H2. discriminate H2.
  - intros [H1 H2]. split; [exact H1|].
    assert (Hx : x <> CompareCSV.Missing) by (intros ->; exact (Hp H1)).
    destruct (CompareCSV.member x ys) eqn:E; [|reflexivity].
    apply (member_In _ Hx) in E. contradiction.
Qed.

Lemma not_in_nil (xs ys : list CompareCSV.label) :
  CompareCSV.present xs ->
  (CompareCSV.not_in xs ys = [] <-> incl xs ys).
Proof.
  intros Hp. split.
  - intros H x Hx.
    assert (Nx : x <> CompareCSV.Missing) by (intros ->; exact (Hp Hx)).
    destruct (CompareCSV.member x ys) eqn:E.
    + apply (member_In _ Nx). exact E.
    + exfalso. assert (Hin : In x (CompareCSV.not_in xs ys)).
      { apply (not_in_In _ _ Hp). split; [exact Hx|].
        rewrite <- (member_In _ Nx). congruence. }
      rewrite H in Hin. exact Hin.
  - intros H. destruct (CompareCSV.not_in xs ys) as [|x l] eqn:E;
      [reflexivity|]. exfalso.
    assert (Hin : In x (CompareCSV.not_in xs ys)) by (rewrite E; left; auto).
    apply (not_in_In _ _ Hp) in Hin. destruct Hin as [H1 H2]. auto.
Qed.

Lemma same_labels_iff (xs ys : list CompareCSV.label) :
  CompareCSV.present xs -> CompareCSV.present ys ->
  ((CompareCSV.not_in xs ys = [] /\ CompareCSV.not_in ys xs = [])
   <-> forall x, In x xs <-> In x ys).
Proof.
  intros Px Py. rewrite (not_in_nil _ Px), (not_in_nil _ Py).
  unfold incl. split.
  - intros [H1 H2] x. split; auto.
  - intros H. split; intros x Hx; apply H; exact Hx.
Qed.

(** X16.  When no label is missing, the script reports a label as
    missing exactly when it is in file 1 and not in file 2, as extra
    exactly when it is in file 2 and not in file 1, for columns and for
    rows alike.  So it reports no column difference exactly when the two
    files have the same set of column labels, whatever their order and
    however often a label repeats; and the same for rows. *)
Theorem report_empty_iff_same_labels
    (columns1 columns2 rows1 rows2 : list CompareCSV.label) :
  CompareCSV.present columns1 -> CompareCSV.present columns2 ->
  CompareCSV.present rows1 -> CompareCSV.present rows2 ->
  let rep := CompareCSV.compare columns1 columns2 rows1 rows2 in
  (forall x, In x (CompareCSV.missing_columns_in_csv2 rep)
             <-> In x columns1 /\ ~ In x columns2)
  /\ (forall x, In x (CompareCSV.extra_columns_in_csv2 rep)
                <-> In x columns2 /\ ~ In x columns1)
  /\ (forall x, In x (CompareCSV.missing_rows_in_csv2 rep)
                <-> In x rows1 /\ ~ In x rows2)
  /\ (forall x, In x (CompareCSV.extra_rows_in_csv2 rep)
                <-> In x rows2 /\ ~ In x rows1)
  /\ ((CompareCSV.missing_columns_in_csv2 rep = []
       /\ CompareCSV.extra_columns_in_csv2 rep = [])
      <-> forall x, In x columns1 <-> In x columns2)
  /\ ((CompareCSV.missing_rows_in_csv2 rep = []
       /\ CompareCSV.extra_rows_in_csv2 rep = [])
      <-> forall x, In x rows1 <-> In x rows2).
Proof.
  intros C1 C2 R1 R2. cbn zeta. unfold CompareCSV.compare.
  cbn [CompareCSV.missing_columns_in_csv2 CompareCSV.extra_columns_in_csv2
       CompareCSV.missing_rows_in_csv2 CompareCSV.extra_rows_in_csv2].
  split; [intros x; apply not_in_In; assumption|].
  split; [intros x; apply not_in_In; assumption|].
  split; [intros x; apply not_in_In; assumption|].
  split; [intros x; apply not_in_In; assumption|].
  split; apply same_labels_iff; assumption.
Qed.

Lemma report_empty_iff_same_labels_witness :
  CompareCSV.present [CompareCSV.Name "a"; CompareCSV.Name "b"]
  /\ CompareCSV.present [CompareCSV.Name "b"; CompareCSV.Name "a"]
  /\ CompareCSV.present [CompareCSV.Number 1; CompareCSV.Number 2]
  /\ CompareCSV.present [CompareCSV.Number 2; CompareCSV.Number 3]
  /\ CompareCSV.missing_rows_in_csv2
       (CompareCSV.compare
          [CompareCSV.Name "a"; CompareCSV.Name "b"]
          [CompareCSV.Name "b"; CompareCSV.Name "a"]
          [CompareCSV.Number 1; CompareCSV.Number 2]
          [CompareCSV.Number 2; CompareCSV.Number 3])
     = [CompareCSV.Number 1]
  /\ forall x,
       In x (CompareCSV.missing_rows_in_csv2
               (CompareCSV.compare
                  [CompareCSV.Name "a"; CompareCSV.Name "b"]
                  [CompareCSV.Name "b"; CompareCSV.Name "a"]
                  [CompareCSV.Number 1; CompareCSV.Number 2]
                  [CompareCSV.Number 2; CompareCSV.Number 3]))
       <-> In x [CompareCSV.Number 1; CompareCSV.Number 2]
           /\ ~ In x [CompareCSV.Number 2; CompareCSV.Number 3].
Proof.
  assert (C1 : CompareCSV.present [CompareCSV.Name "a"; CompareCSV.Name "b"])
    by (intros [H | [H | []]]; discriminate H).
  assert (C2 : CompareCSV.present [CompareCSV.Name "b"; CompareCSV.Name "a"])
    by (intros [H | [H | []]]; discriminate H).
  assert (R1 : CompareCSV.present [CompareCSV.Number 1; CompareCSV.Number 2])
    by (intros [H | [H | []]]; discriminate H).
  assert (R2 : CompareCSV.present [CompareCSV.Number 2; CompareCSV.Number 3])
    by (intros [H | [H | []]]; discriminate H).
  split; [exact C1|]. split; [exact C2|]. split; [exact R1|].
  split; [exact R2|]. split; [reflexivity|].
  apply (report_empty_iff_same_labels C1 C2 R1 R2).
Defined.

(** X17.  What is reported about file 1 depends on file 2 only through
    the set of its labels, and keeps the order and the repetitions of
    file 1. *)
Theorem not_in_other_order
    (xs ys ys' : list CompareCSV.label) :
  (forall y, In y ys <-> In y ys') ->
  CompareCSV.not_in xs ys = CompareCSV.not_in xs ys'.
Proof.
  intros H. unfold CompareCSV.not_in. apply filter_ext. intros x. f_equal.
  unfold CompareCSV.member.
  destruct (existsb (CompareCSV.label_eqb x) ys) eqn:E,
           (existsb (CompareCSV.label_eqb x) ys') eqn:E';
    try reflexivity.
  - apply existsb_exists in E. destruct E as (y & Hy & Ey).
    assert (X : existsb (CompareCSV.label_eqb x) ys' = true)
      by (apply existsb_exists; exists y; split; [apply H, Hy | exact Ey]).
    congruence.
  - apply existsb_exists in E'. destruct E' as (y & Hy & Ey).
    assert (X : existsb (CompareCSV.label_eqb x) ys = true)
      by (apply existsb_exists; exists y; split; [apply H, Hy | exact Ey]).
    congruence.
Qed.

Lemma not_in_other_order_witness :
  (forall y, In y [CompareCSV.Name "a"; CompareCSV.Name "b"]
             <-> In y [CompareCSV.Name "b"; CompareCSV.Name "a";
                       CompareCSV.Name "b"])
  /\ CompareCSV.not_in [CompareCSV.Name "c"; CompareCSV.Name "a"]
       [CompareCSV.Name "a"; CompareCSV.Name "b"]
     = CompareCSV.not_in [CompareCSV.Name "c"; CompareCSV.Name "a"]
         [CompareCSV.Name "b"; CompareCSV.Name "a"; CompareCSV.Name "b"].
Proof.
  assert (H : forall y, In y [CompareCSV.Name "a"; CompareCSV.Name "b"]
                        <-> In y [CompareCSV.Name "b"; CompareCSV.Name "a";
                                  CompareCSV.Name "b"])
    by (intros y; simpl; tauto).
  split; [exact H|].
  apply (@not_in_other_order [CompareCSV.Name "c"; CompareCSV.Name "a"] _ _ H).
Defined.

(** ** VisualizeOutput.py *)

Lemma split_on_no_sep (k : str) :
  Visualize.no_colon k = true -> Visualize.split_on ":" k = [k].
Proof.
  induction k as [|a k IH]; simpl; [reflexivity|]. intros H.
  apply andb_prop in H. destruct H as [Ha Hk].
  apply negb_true_iff in Ha. rewrite Ha, IH by exact Hk. reflexivity.
Qed.

Lemma split_on_cut (k r : str) :
  Visualize.no_colon k = true ->
  Visualize.split_on ":" (k ++ ":"%char :: r) = k :: Visualize.split_on ":" r.
Proof.
  induction k as [|a k IH]; simpl; [reflexivity|]. intros H.
  apply andb_prop in H. destruct H as [Ha Hk].
  apply negb_true_iff in Ha. rewrite Ha, IH by exact Hk. reflexivity.
Qed.

(** A text is its first piece, or its first piece, a colon and more. *)
Lemma first_piece (s : str) :
  exists k,
    Visualize.no_colon k = true
    /\ (s = k \/ exists r, s = k ++ ":"%char :: r).
Proof.
  induction s as [|a s (k & Hk & IH)].
  - exists []. auto.
  - destruct (Ascii.eqb a ":") eqn:E.
    + apply Ascii.eqb_eq in E. subst a. exists []. split; [reflexivity|].
      right. exists s. reflexivity.
    + exists (a :: k). split; [simpl; rewrite E, Hk; reflexivity|].
      destruct IH as [-> | (r & ->)]; [left | right; exists r]; reflexivity.
Qed.

(** When a cell yields a label. *)
Lemma label_of_spec (c : Visualize.cell) (lab : str) :
  Visualize.label_of c = Some lab <-> Visualize.second_field_is lab c.
Proof.
  unfold Visualize.second_field_is. split.
  - destruct c as [s| |]; [|discriminate..]. simpl.
    destruct (first_piece s) as (k & Hk & [-> | (r & ->)]).
    + rewrite split_on_no_sep by exact Hk. discriminate.
    + rewrite split_on_cut by exact Hk. simpl.
      destruct (first_piece r) as (l & Hl & [-> | (r' & ->)]).
      * rewrite split_on_no_sep by exact Hl. intros [= <-].
        exists k, []. rewrite app_nil_r. auto.
      * rewrite split_on_cut by exact Hl. intros [= <-].
        exists k, (":"%char :: r'). eauto 6.
  - intros (k & tail & -> & Hk & Hl & Ht). simpl.
    rewrite split_on_cut by exact Hk. simpl.
    destruct Ht as [-> | (t & ->)].
    + rewrite app_nil_r, split_on_no_sep by exact Hl. reflexivity.
    + rewrite split_on_cut by exact Hl. reflexivity.
Qed.

Lemma accepts_str_spec (column : list Visualize.cell) :
  Visualize.accepts_str column = true <-> Visualize.text_column column.
Proof.
  unfold Visualize.text_column. destruct column as [|c column].
  - simpl. split; auto.
  - cbn [Visualize.accepts_str]. rewrite existsb_exists. split.
    + intros ([s| |] & Hin & E); try discriminate E. right. eauto.
    + intros [H | (s & Hin)]; [discriminate H|].
      exists (Visualize.Text s). auto.
Qed.

Lemma labels_of_cells (column : list Visualize.cell) :
  Forall2 (fun c l => forall lab,
             l = Some lab <-> Visualize.second_field_is lab c)
          column (map Visualize.label_of column).
Proof.
  induction column as [|c column IH]; simpl; constructor; [|exact IH].
  intros lab. apply label_of_spec.
Qed.

Lemma binary_of_cells (column : list Visualize.cell) :
  Forall2 (fun c b =>
             (b = 1 <-> Visualize.second_field_is "POS" c)
             /\ (b = 1 \/ b = 0))
          column
          (map Visualize.binary_of (map Visualize.label_of column)).
Proof.
  induction column as [|c column IH]; simpl; constructor; [|exact IH].
  unfold Visualize.binary_of.
  destruct (Visualize.label_of c) as [l|] eqn:E.
  - destruct (str_eqb l "POS") eqn:El.
    + apply str_eqb_eq in El. subst l. apply label_of_spec in E.
      split; [tauto | auto].
    + split; [|auto]. split; [discriminate|]. intros H.
      apply label_of_spec in H.
      rewrite H in E. injection E as E. subst l.
      vm_compute in El. discriminate El.
  - split; [|auto]. split; [discriminate|]. intros H.
    apply label_of_spec in H. congruence.
Qed.

(** X18.  On a column that holds a text, or no cell at all, the label
    column has, cell for cell, the second colon-separated field: a cell
    yields a label exactly when it is a text that reads some text free of
    colons, a colon, the label, itself free of colons, and then either
    nothing or a colon and anything; so 2:POS yields POS, and a missing
    cell, a number and a text without colon yield no label.  On any other
    column, of numbers or with nothing but missing cells, the accessor
    raises. *)
Theorem label_is_second_field (column : list Visualize.cell) :
  (Visualize.text_column column ->
   exists labs,
     Visualize.second_field column = Some labs
     /\ Forall2 (fun c l => forall lab,
                   l = Some lab <-> Visualize.second_field_is lab c)
                column labs)
  /\ (~ Visualize.text_column column -> Visualize.second_field column = None).
Proof.
  unfold Visualize.second_field. split; intros H.
  - apply accepts_str_spec in H. rewrite H. eexists.
    split; [reflexivity | apply labels_of_cells].
  - destruct (Visualize.accepts_str column) eqn:E; [|reflexivity].
    apply accepts_str_spec in E. contradiction.
Qed.

(** X19.  The script gets as far as the binary columns exactly when the
    frame has the columns actual, predicted and prediction and the first
    two hold a text or no cell at all; and then a row counts as positive
    exactly when the second field of its cell is POS, and as 0 otherwise,
    a missing cell, a number and a text without colon included. *)
Theorem positive_iff_second_field_pos (df : Visualize.frame) :
  match Visualize.derive df with
  | Some d =>
      exists actual predicted confidence,
        Visualize.column df "actual" = Some actual
        /\ Visualize.column df "predicted" = Some predicted
        /\ Visualize.column df "prediction" = Some confidence
        /\ Visualize.text_column actual /\ Visualize.text_column predicted
        /\ Forall2 (fun c b =>
                      (b = 1 <-> Visualize.second_field_is "POS" c)
                      /\ (b = 1 \/ b = 0))
                   actual (Visualize.actual_binary d)
        /\ Forall2 (fun c b =>
                      (b = 1 <-> Visualize.second_field_is "POS" c)
                      /\ (b = 1 \/ b = 0))
                   predicted (Visualize.predicted_binary d)
  | None =>
      Visualize.column df "actual" = None
      \/ Visualize.column df "predicted" = None
      \/ Visualize.column df "prediction" = None
      \/ (exists actual, Visualize.column df "actual" = Some actual
                         /\ ~ Visualize.text_column actual)
      \/ (exists predicted, Visualize.column df "predicted" = Some predicted
                            /\ ~ Visualize.text_column predicted)
  end.
Proof.
  unfold Visualize.derive, Visualize.second_field.
  destruct (Visualize.column df "actual") as [actual|]; cbn [bind]; [|auto].
  destruct (Visualize.accepts_str actual) eqn:Ea; cbn [bind].
  2:{ right. right. right. left. exists actual. split; [reflexivity|].
      intros H. apply accepts_str_spec in H. congruence. }
  destruct (Visualize.column df "predicted") as [predicted|]; cbn [bind];
    [|auto].
  destruct (Visualize.accepts_str predicted) eqn:Ep; cbn [bind].
  2:{ right. right. right. right. exists predicted. split; [reflexivity|].
      intros H. apply accepts_str_spec in H. congruence. }
  destruct (Visualize.column df "prediction") as [confidence|]; cbn [bind];
    [|auto].
  cbn [Visualize.actual_binary Visualize.predicted_binary].
  exists actual, predicted, confidence.
  split; [reflexivity|]. split; [reflexivity|]. split; [reflexivity|].
  split; [apply accepts_str_spec, Ea|].
  split; [apply accepts_str_spec, Ep|].
  split; apply binary_of_cells.
Qed.
